(** * The request scheduler of the migration tool

    A shallow embedding of [util/request-scheduler.js]: the rate-limit
    estimator [timeToNextRequest], the asynchronous function [schedule] and the
    four verb wrappers of the [RequestScheduler] class, together with the
    invariants the design document states about them.

    JavaScript values are embedded as an inductive type, objects as finite
    maps from property names to values.  A JavaScript number is either [NaN]
    or an exact integer: the headers the estimator reads and the result of
    [Date.parse] are integers, and on integers below 2^53 in magnitude the
    arithmetic of doubles is exact.  Fractions, infinities and the rounding of
    larger values are outside the model.

    The second half embeds the account model of [stormpath/account.js]
    ([flattenCustomData], [transform], [addRequiredAttributes] and the
    [Account] class) and [deleteCustomSchema] of [bin/reset.js].  That code
    enumerates the keys of objects, so there an object is the list of its
    properties in the order of [Object.keys]. *)

From Stdlib Require Import ZArith Lia Ascii String.
From stdpp Require Import base option list gmap strings pretty.

Set Warnings "-register-all".

(** ** Numbers *)

Inductive number : Type :=
| NaN
| Fin (z : Z).

(** The arithmetic of the code on numbers.  On integers the results are
    exact here; those of the code are exact as long as they stay within
    [2^53] in magnitude and are rounded beyond, so a theorem that states the
    value of a product, a difference or a sum assumes that range
    ([safe_reading] below). *)
Module Num.

Definition mul (a b : number) : number :=
  match a, b with
  | Fin x, Fin y => Fin (x * y)
  | _, _ => NaN
  end.

Definition sub (a b : number) : number :=
  match a, b with
  | Fin x, Fin y => Fin (x - y)
  | _, _ => NaN
  end.

Definition add (a b : number) : number :=
  match a, b with
  | Fin x, Fin y => Fin (x + y)
  | _, _ => NaN
  end.

(** [a > b]: false as soon as one side is [NaN]. *)
Definition gt (a b : number) : bool :=
  match a, b with
  | Fin x, Fin y => (y <? x)%Z
  | _, _ => false
  end.

(** [a === b] on numbers: [NaN] is different from everything. *)
Definition strict_eq (a b : number) : bool :=
  match a, b with
  | Fin x, Fin y => (x =? y)%Z
  | _, _ => false
  end.

(** Whether a timer duration is a number that is not below zero. *)
Definition nonneg (a : number) : Prop :=
  match a with
  | Fin x => (0 <= x)%Z
  | NaN => False
  end.

End Num.

(** ** Values *)

Inductive value : Type :=
| VUndefined
| VNull
| VBool (b : bool)
| VNum (n : number)
| VStr (s : string)
| VObj (props : gmap string value).

(** The outcome of evaluating an expression or of running a function body:
    a value, or a thrown exception. *)
Inductive completion (A : Type) : Type :=
| Normal (a : A)
| Throw (e : value).
Arguments Normal {A} a.
Arguments Throw {A} e.

(** The error thrown when a property of [undefined] or [null] is read.  The
    text of the message is the engine's; what matters below is that the
    error object has neither a [headers] nor a [response] property. *)
Definition TypeError (what : string) (key : string) : value :=
  VObj {[ "name" := VStr "TypeError";
          "message" := VStr ("Cannot read property '" +:+ key +:+ "' of " +:+ what) ]}.

(** [v[key]] and [v.key].  Reading a property of [undefined] or [null]
    throws; a missing property reads as [undefined].  Primitive values have
    none of the properties this program reads ([headers], [response], [body],
    [date], [x-rate-limit-remaining], [x-rate-limit-reset]). *)
Definition get_property (v : value) (key : string) : completion value :=
  match v with
  | VUndefined => Throw (TypeError "undefined" key)
  | VNull => Throw (TypeError "null" key)
  | VObj props => Normal (default VUndefined (props !! key))
  | VBool _ | VNum _ | VStr _ => Normal VUndefined
  end.

Definition ToBoolean (v : value) : bool :=
  match v with
  | VUndefined | VNull => false
  | VBool b => b
  | VNum NaN => false
  | VNum (Fin z) => negb (z =? 0)%Z
  | VStr s => negb (String.eqb s "")
  | VObj _ => true
  end.

Definition ToString (v : value) : string :=
  match v with
  | VUndefined => "undefined"
  | VNull => "null"
  | VBool true => "true"
  | VBool false => "false"
  | VNum NaN => "NaN"
  | VNum (Fin z) => pretty z
  | VStr s => s
  | VObj _ => "[object Object]"
  end.

(** ** The engine's parsers

    [Number(s)] on a string and [Date.parse(s)] belong to the JavaScript
    engine ([Date.parse] is implementation-defined outside two formats), so
    the program is embedded over any engine.  [Reference] below is one such
    engine, used for running the program on concrete responses. *)
Class Runtime : Type := {
  StringToNumber : string -> number;
  Date_parse_string : string -> number;
}.

Section Conversions.
Context `{rt : Runtime}.

(** [Number(v)], which is also the conversion applied by [v * 1000]. *)
Definition ToNumber (v : value) : number :=
  match v with
  | VUndefined => NaN
  | VNull => Fin 0
  | VBool true => Fin 1
  | VBool false => Fin 0
  | VNum n => n
  | VStr s => StringToNumber s
  | VObj _ => NaN
  end.

(** [Date.parse(v)]: the argument is converted to a string first. *)
Definition Date_parse (v : value) : number :=
  Date_parse_string (ToString v).

End Conversions.

(** ** A reference engine

    [Number(s)] for the integer numerals the rate-limit headers carry, and
    [Date.parse(s)] for the two formats a [date] header or a test fixture
    uses: the IMF-fixdate of HTTP ("Mon, 01 Jan 2024 00:00:00 GMT") and the
    ISO format ("2024-01-01T00:00:00Z", with optional milliseconds).  Any
    other string is not a number or not a date for this engine. *)
Module Reference.

Definition digit (c : ascii) : option Z :=
  let n := Z.of_nat (nat_of_ascii c) in
  if ((48 <=? n) && (n <=? 57))%Z then Some (n - 48)%Z else None.

Fixpoint digits (acc : Z) (cs : list ascii) : option Z :=
  match cs with
  | [] => Some acc
  | c :: cs => d ← digit c; digits (10 * acc + d)%Z cs
  end.

Definition numeral (cs : list ascii) : option Z :=
  match cs with
  | [] => None
  | _ => digits 0 cs
  end.

Definition is_space (c : ascii) : bool :=
  let n := nat_of_ascii c in
  (n =? 32) || ((9 <=? n) && (n <=? 13)).

Fixpoint trim_left (cs : list ascii) : list ascii :=
  match cs with
  | c :: cs' => if is_space c then trim_left cs' else cs
  | [] => []
  end.

Definition trim (cs : list ascii) : list ascii :=
  reverse (trim_left (reverse (trim_left cs))).

Definition StringToNumber (s : string) : number :=
  match trim (list_ascii_of_string s) with
  | [] => Fin 0
  | "+"%char :: cs => from_option Fin NaN (numeral cs)
  | "-"%char :: cs => from_option (fun z => Fin (- z)) NaN (numeral cs)
  | cs => from_option Fin NaN (numeral cs)
  end.

(** Small parsers over the remaining characters. *)
Definition lit (c : ascii) (cs : list ascii) : option (list ascii) :=
  match cs with
  | x :: cs' => if Ascii.eqb x c then Some cs' else None
  | [] => None
  end.

Fixpoint number_of (n : nat) (acc : Z) (cs : list ascii) : option (Z * list ascii) :=
  match n with
  | O => Some (acc, cs)
  | S n' =>
      match cs with
      | c :: cs' => d ← digit c; number_of n' (10 * acc + d)%Z cs'
      | [] => None
      end
  end.

Definition word3 (cs : list ascii) : option (string * list ascii) :=
  match cs with
  | a :: b :: c :: cs' => Some (string_of_list_ascii [a; b; c], cs')
  | _ => None
  end.

Definition month_names : list string :=
  ["Jan"; "Feb"; "Mar"; "Apr"; "May"; "Jun";
   "Jul"; "Aug"; "Sep"; "Oct"; "Nov"; "Dec"].

Definition day_names : list string :=
  ["Mon"; "Tue"; "Wed"; "Thu"; "Fri"; "Sat"; "Sun"].

Fixpoint index_of (s : string) (l : list string) (i : Z) : option Z :=
  match l with
  | [] => None
  | x :: l' => if String.eqb s x then Some i else index_of s l' (i + 1)%Z
  end.

Definition leap (y : Z) : bool :=
  ((y mod 4 =? 0) && (negb (y mod 100 =? 0) || (y mod 400 =? 0)))%Z.

Definition days_in_month (y m : Z) : Z :=
  if (m =? 2)%Z then (if leap y then 29 else 28)%Z
  else if ((m =? 4) || (m =? 6) || (m =? 9) || (m =? 11))%Z then 30%Z
  else 31%Z.

(** Days between 1970-01-01 and the given day of the Gregorian calendar. *)
Definition days_from_civil (y m d : Z) : Z :=
  let y' := (if m <=? 2 then y - 1 else y)%Z in
  let era := (y' / 400)%Z in
  let yoe := (y' - era * 400)%Z in
  let mp := (if 2 <? m then m - 3 else m + 9)%Z in
  let doy := ((153 * mp + 2) / 5 + d - 1)%Z in
  let doe := (yoe * 365 + yoe / 4 - yoe / 100 + doy)%Z in
  (era * 146097 + doe - 719468)%Z.

Definition utc_ms (y mo d h mi s ms : Z) : option Z :=
  if ((1 <=? mo) && (mo <=? 12) && (1 <=? d) && (d <=? days_in_month y mo)
      && (h <? 24) && (mi <? 60) && (s <? 60))%Z
  then Some ((((days_from_civil y mo d * 24 + h) * 60 + mi) * 60 + s) * 1000 + ms)%Z
  else None.

Definition time_of_day (cs : list ascii) : option (Z * Z * Z * list ascii) :=
  '(h, cs) ← number_of 2 0 cs;
  cs ← lit ":" cs;
  '(mi, cs) ← number_of 2 0 cs;
  cs ← lit ":" cs;
  '(s, cs) ← number_of 2 0 cs;
  Some (h, mi, s, cs).

Definition parse_iso (cs : list ascii) : option Z :=
  '(y, cs) ← number_of 4 0 cs;
  cs ← lit "-" cs;
  '(mo, cs) ← number_of 2 0 cs;
  cs ← lit "-" cs;
  '(d, cs) ← number_of 2 0 cs;
  cs ← lit "T" cs;
  '(h, mi, s, cs) ← time_of_day cs;
  match cs with
  | ["Z"%char] => utc_ms y mo d h mi s 0
  | "."%char :: cs =>
      '(ms, cs) ← number_of 3 0 cs;
      match cs with
      | ["Z"%char] => utc_ms y mo d h mi s ms
      | _ => None
      end
  | _ => None
  end.

Definition parse_imf (cs : list ascii) : option Z :=
  '(wd, cs) ← word3 cs;
  _ ← index_of wd day_names 0;
  cs ← lit "," cs;
  cs ← lit " " cs;
  '(d, cs) ← number_of 2 0 cs;
  cs ← lit " " cs;
  '(mn, cs) ← word3 cs;
  mo ← index_of mn month_names 1;
  cs ← lit " " cs;
  '(y, cs) ← number_of 4 0 cs;
  cs ← lit " " cs;
  '(h, mi, s, cs) ← time_of_day cs;
  match cs with
  | [" "; "G"; "M"; "T"]%char => utc_ms y mo d h mi s 0
  | _ => None
  end.

Definition Date_parse_string (s : string) : number :=
  let cs := list_ascii_of_string s in
  match parse_iso cs with
  | Some ms => Fin ms
  | None => from_option Fin NaN (parse_imf cs)
  end.

Definition engine : Runtime :=
  Build_Runtime StringToNumber Date_parse_string.

End Reference.

(** ** The logger, the transport and the pool *)

Inductive level : Type := silly | warn.

Inductive status : Type := SUCCESS | FAILURE.

Inductive verb : Type := GET | PUT | POST | DELETE.

(** One call [rp.<method>.apply(null, arguments)] on the transport. *)
Record request : Type := {
  method : verb;
  arguments : list value;
}.

(** An argument as a caller passes it to a verb: a value that
    [JSON.stringify] prints, or something it throws on (a [BigInt], an
    object that holds one or that contains itself), with the error it
    throws.  The scheduler prints its arguments and hands them on; it
    reads nothing of them. *)
Inductive argument : Type :=
| Plain (v : value)
| Unprintable (error : value).

(** [JSON.stringify(arguments)], as far as the scheduler depends on it:
    the values it printed, or the error of the first argument it throws
    on. *)
Fixpoint stringify_arguments (given : list argument) : completion (list value) :=
  match given with
  | [] => Normal []
  | Plain v :: rest =>
      match stringify_arguments rest with
      | Normal args => Normal (v :: args)
      | Throw e => Throw e
      end
  | Unprintable e :: _ => Throw e
  end.

(** The texts handed to the logger, with the interpolated values kept
    apart: [msg] of a verb is its name and the argument list it prints. *)
Inductive message : Type :=
| RateLimitRemaining (remaining : number)
| RateLimitReached (time remaining : number)
| Scheduling (requestId : Z) (msg : string * list value)
| Executing (requestId : Z)
| Finished (requestId : Z) (st : status).

(** Modelled from the spec: the [ConcurrencyPool] class of
    [util/concurrency-pool], which is not among the sources.  A pool owns
    [limit] slots; [acquire()] suspends its caller until a slot is free and then
    marks it held, and [release()] on the handle it returned gives the slot
    back.  Which suspended caller is woken first is left open, and a second
    [release()] on one handle changes nothing.  A handle is identified by the
    number of the call that acquired it. *)
Record ConcurrencyPool : Type := {
  limit : nat;
  held : gset nat;
}.

Module Pool.

Definition new (n : nat) : ConcurrencyPool :=
  {| limit := n; held := ∅ |}.

Definition has_free_slot (p : ConcurrencyPool) : bool :=
  bool_decide (size (held p) < limit p).

Definition acquire (resource : nat) (p : ConcurrencyPool) : ConcurrencyPool :=
  {| limit := limit p; held := {[resource]} ∪ held p |}.

Definition release (resource : nat) (p : ConcurrencyPool) : ConcurrencyPool :=
  {| limit := limit p; held := held p ∖ {[resource]} |}.

End Pool.

(** ** The state of the process *)

(** Where one invocation of [schedule] stands: suspended at
    [await scheduler.pool.acquire()], suspended at [await fn()] holding
    [resource], or finished with what its promise settled to. *)
Inductive phase : Type :=
| AwaitingSlot
| AwaitingTransport (resource : nat)
| Completed (result : completion value).

(** An invocation of [schedule] with its locals [requestId] and [fn]. *)
Record call : Type := {
  call_id : Z;
  call_fn : request;
  call_phase : phase;
}.

(** A [setTimeout(resource.release, delay)] and whether it has fired. *)
Record timer : Type := {
  resource : nat;
  delay : number;
  fired : bool;
}.

Record world : Type := {
  requestId : Z;                       (* scheduler.requestId *)
  pool : ConcurrencyPool;              (* scheduler.pool *)
  calls : list call;                   (* the invocations of schedule *)
  transport : list request;            (* the calls scheduler.rp received *)
  timers : list timer;                 (* the timers armed so far *)
  logger : list (level * message);     (* what the logger received *)
}.

Definition REQUEST_CONCURRENCY_LIMIT : nat := 100.

(** [new RequestScheduler()]. *)
Definition RequestScheduler_new : world :=
  {| requestId := 0;
     pool := Pool.new REQUEST_CONCURRENCY_LIMIT;
     calls := [];
     transport := [];
     timers := [];
     logger := [] |}.

(** ** Computations that read and write the state and may throw *)

Definition sched (A : Type) : Type := world -> completion A * world.

#[export] Instance sched_ret : MRet sched :=
  fun A a w => (Normal a, w).

#[export] Instance sched_bind : MBind sched :=
  fun A B k m w =>
    match m w with
    | (Normal a, w') => k a w'
    | (Throw e, w') => (Throw e, w')
    end.

Definition throw {A : Type} (e : value) : sched A :=
  fun w => (Throw e, w).

Definition lift {A : Type} (c : completion A) : sched A :=
  fun w => (c, w).

(** [try { body } catch (err) { handler }] *)
Definition try_catch {A : Type} (body : sched A) (handler : value -> sched A) : sched A :=
  fun w =>
    match body w with
    | (Normal a, w') => (Normal a, w')
    | (Throw err, w') => handler err w'
    end.

Definition logger_log (l : level) (m : message) : sched unit :=
  fun w =>
    (Normal tt,
     {| requestId := requestId w; pool := pool w; calls := calls w;
        transport := transport w; timers := timers w;
        logger := logger w ++ [(l, m)] |}).

(** [scheduler.requestId++] *)
Definition requestId_post_increment : sched Z :=
  fun w =>
    (Normal (requestId w),
     {| requestId := requestId w + 1; pool := pool w; calls := calls w;
        transport := transport w; timers := timers w; logger := logger w |}).

(** [setTimeout(resource.release, t)] *)
Definition setTimeout_release (r : nat) (t : number) : sched unit :=
  fun w =>
    (Normal tt,
     {| requestId := requestId w; pool := pool w; calls := calls w;
        transport := transport w;
        timers := timers w ++ [{| resource := r; delay := t; fired := false |}];
        logger := logger w |}).

(** [fn()] for [fn = () => this.rp.<method>.apply(null, arguments)]: the
    transport receives the request; its promise settles later. *)
Definition call_fn_now (fn : request) : sched unit :=
  fun w =>
    (Normal tt,
     {| requestId := requestId w; pool := pool w; calls := calls w;
        transport := transport w ++ [fn]; timers := timers w;
        logger := logger w |}).

(** The rest of an invocation waits in [calls]; the promise returned to the
    caller is named by its position there. *)
Definition suspend (c : call) : sched nat :=
  fun w =>
    (Normal (length (calls w)),
     {| requestId := requestId w; pool := pool w; calls := calls w ++ [c];
        transport := transport w; timers := timers w; logger := logger w |}).

Definition set_call (i : nat) (c : call) (w : world) : world :=
  {| requestId := requestId w; pool := pool w; calls := <[i := c]> (calls w);
     transport := transport w; timers := timers w; logger := logger w |}.

Definition set_pool (p : ConcurrencyPool) (w : world) : world :=
  {| requestId := requestId w; pool := p; calls := calls w;
     transport := transport w; timers := timers w; logger := logger w |}.

Definition set_timer (i : nat) (t : timer) (w : world) : world :=
  {| requestId := requestId w; pool := pool w; calls := calls w;
     transport := transport w; timers := <[i := t]> (timers w);
     logger := logger w |}.

(** ** The source functions *)

Section Scheduler.
Context `{rt : Runtime}.

(** [function timeToNextRequest(res)] *)
Definition timeToNextRequest (res : value) : sched number :=
  h ← lift (get_property res "headers");
  headers ← (if ToBoolean h then mret h
             else r ← lift (get_property res "response");
                  lift (get_property r "headers"));
  x ← lift (get_property headers "x-rate-limit-remaining");
  let remaining := ToNumber x in
  if Num.gt remaining (Fin (Z.of_nat REQUEST_CONCURRENCY_LIMIT + 10)) then
    logger_log silly (RateLimitRemaining remaining);;
    mret (Fin 0)
  else
    d ← lift (get_property headers "date");
    let serverTimeUtcMs := Date_parse d in
    y ← lift (get_property headers "x-rate-limit-reset");
    let serverResetUtcMs := Num.mul (ToNumber y) (Fin 1000) in
    let time := Num.add (Num.sub serverResetUtcMs serverTimeUtcMs) (Fin 1000) in
    logger_log (if Num.strict_eq remaining (Fin 11) then warn else silly)
               (RateLimitReached time remaining);;
    mret time.

(** [async function schedule(scheduler, msg, fn)], from its call to
    [await scheduler.pool.acquire()]. *)
Definition schedule (msg : string * list value) (fn : request) : sched nat :=
  requestId ← requestId_post_increment;
  logger_log silly (Scheduling requestId msg);;
  suspend {| call_id := requestId; call_fn := fn; call_phase := AwaitingSlot |}.

(** [schedule] resumed with the acquired resource, up to [await fn()]. *)
Definition schedule_acquired (requestId : Z) (fn : request) : sched unit :=
  logger_log silly (Executing requestId);;
  call_fn_now fn.

(** [schedule] resumed when the promise of [fn()] has settled: [outcome]
    is the response it resolved to, or the error it rejected with. *)
Definition schedule_settled (requestId : Z) (resource : nat)
    (outcome : completion value) : sched value :=
  try_catch
    (res ← lift outcome;
     logger_log silly (Finished requestId SUCCESS);;
     t ← timeToNextRequest res;
     setTimeout_release resource t;;
     lift (get_property res "body"))
    (fun err =>
     logger_log silly (Finished requestId FAILURE);;
     t ← timeToNextRequest err;
     setTimeout_release resource t;;
     throw err).

End Scheduler.

(** The methods of [class RequestScheduler]: each builds its message with
    [JSON.stringify(arguments)], which throws on some arguments, and only
    then calls [schedule]. *)
Module RequestScheduler.

Definition get (given : list argument) : sched nat :=
  args ← lift (stringify_arguments given);
  schedule ("GET", args) {| method := GET; arguments := args |}.

Definition put (given : list argument) : sched nat :=
  args ← lift (stringify_arguments given);
  schedule ("PUT", args) {| method := PUT; arguments := args |}.

Definition post (given : list argument) : sched nat :=
  args ← lift (stringify_arguments given);
  schedule ("POST", args) {| method := POST; arguments := args |}.

Definition delete (given : list argument) : sched nat :=
  args ← lift (stringify_arguments given);
  schedule ("DELETE", args) {| method := DELETE; arguments := args |}.

Definition invoke (m : verb) : list argument -> sched nat :=
  match m with
  | GET => get
  | PUT => put
  | POST => post
  | DELETE => delete
  end.

End RequestScheduler.

(** ** The event loop

    What can happen to a scheduler: a caller invokes a verb with arguments
    that [JSON.stringify] prints (with others the verb throws to its caller
    and leaves the scheduler as it was); the pool hands a
    slot to a suspended invocation; the transport settles the request of an
    invocation; an armed timer fires and calls [resource.release].  Any
    event that is enabled may come next, so a list of events is one
    interleaving of the concurrent callers, the transport and the timers.
    A timer keeps the duration it was armed with and may fire at any later
    moment: the passing of time is not part of the state. *)
Inductive event : Type :=
| Invoke (m : verb) (args : list value)
| Acquired (c : nat)
| Settled (c : nat) (outcome : completion value)
| TimerFired (t : nat).

Section EventLoop.
Context `{rt : Runtime}.

Definition step (w : world) (e : event) : option world :=
  match e with
  | Invoke m args => Some (snd (RequestScheduler.invoke m (Plain <$> args) w))
  | Acquired c =>
      match calls w !! c with
      | Some {| call_id := id; call_fn := fn; call_phase := AwaitingSlot |} =>
          if Pool.has_free_slot (pool w) then
            let w1 := set_pool (Pool.acquire c (pool w)) w in
            let w2 := snd (schedule_acquired id fn w1) in
            Some (set_call c {| call_id := id; call_fn := fn;
                                call_phase := AwaitingTransport c |} w2)
          else None
      | _ => None
      end
  | Settled c outcome =>
      match calls w !! c with
      | Some {| call_id := id; call_fn := fn;
                call_phase := AwaitingTransport resource |} =>
          let (result, w1) := schedule_settled id resource outcome w in
          Some (set_call c {| call_id := id; call_fn := fn;
                              call_phase := Completed result |} w1)
      | _ => None
      end
  | TimerFired t =>
      match timers w !! t with
      | Some {| resource := r; delay := d; fired := false |} =>
          let w1 := set_pool (Pool.release r (pool w)) w in
          Some (set_timer t {| resource := r; delay := d; fired := true |} w1)
      | _ => None
      end
  end.

Fixpoint run (w : world) (es : list event) : option world :=
  match es with
  | [] => Some w
  | e :: es' => w' ← step w e; run w' es'
  end.

Definition reachable (w : world) : Prop :=
  exists es, run RequestScheduler_new es = Some w.

End EventLoop.

(** ** What is observed of a world *)

(** The ids the scheduler issued, in the order of the invocations. *)
Definition issued_ids (w : world) : list Z :=
  call_id <$> calls w.

(** The resources for which a release timer was armed, one entry a timer. *)
Definition armed_for (w : world) : list nat :=
  resource <$> timers w.

(** What the promise of invocation [c] settled to, if it has. *)
Definition result_of (c : nat) (w : world) : option (completion value) :=
  match calls w !! c with
  | Some {| call_phase := Completed r |} => Some r
  | _ => None
  end.

Definition is_Invoke (e : event) : bool :=
  match e with
  | Invoke _ _ => true
  | _ => false
  end.

(** How many verb invocations an interleaving holds. *)
Definition invocations (es : list event) : nat :=
  length (filter (fun e => is_Invoke e = true) es).

(** Every timer armed so far was given a duration that is a number and is
    not below zero. *)
Definition delays_nonneg (w : world) : Prop :=
  forall t, t ∈ timers w -> Num.nonneg (delay t).

(** [res.headers || res.response.headers], the headers the estimator
    inspects for a response or for an error that wraps one. *)
Definition headers_of (res : value) : completion value :=
  match get_property res "headers" with
  | Normal h =>
      if ToBoolean h then Normal h
      else match get_property res "response" with
           | Normal r => get_property r "headers"
           | Throw e => Throw e
           end
  | Throw e => Throw e
  end.

(** The transport is configured with [resolveWithFullResponse: true]: what
    it resolves to is the whole response, an object whose [headers] is an
    object. *)
Definition full_response (res : value) : Prop :=
  exists (props hs : gmap string value),
    res = VObj props /\ props !! "headers" = Some (VObj hs).

(** The response a promise resolved to, or the error it rejected with. *)
Definition outcome_value (outcome : completion value) : value :=
  match outcome with
  | Normal res => res
  | Throw err => err
  end.

(** The delay computed from [remaining = n], a reset at [r] seconds and a
    server date of [d] milliseconds, as an integer of either sign. *)
Definition unclamped_delay (n r d : Z) : Z :=
  if (Z.of_nat REQUEST_CONCURRENCY_LIMIT + 10 <? n)%Z then 0%Z
  else (r * 1000 - d + 1000)%Z.

(** The code computes in doubles.  A double holds every integer up to
    [2^53] in magnitude, and an operation on two such integers whose exact
    result is in that range returns it; beyond the range the result is
    rounded, which [Num] does not model. *)
Definition safe_integer (z : Z) : Prop := (Z.abs z <= 2 ^ 53)%Z.

(** Everything the estimator computes from a reset at [r] seconds and a
    date of [d] milliseconds is in the range of the exact integers:
    [R * 1000], [Date.parse(D)], the difference and the sum with the buffer. *)
Definition safe_reading (r d : Z) : Prop :=
  safe_integer r /\ safe_integer (r * 1000) /\ safe_integer d /\
  safe_integer (r * 1000 - d) /\ safe_integer (r * 1000 - d + 1000).

Definition armed (r : nat) (t : number) : timer :=
  {| resource := r; delay := t; fired := false |}.

Definition log_entry (l : level) (m : message) (w : world) : world :=
  snd (logger_log l m w).

Section Derived.
Context `{rt : Runtime}.

(** The value the estimator returns, or the error it throws. *)
Definition estimate (res : value) : completion number :=
  fst (timeToNextRequest res RequestScheduler_new).

(** The estimator once the three headers have been read. *)
Definition estimate_from (x d y : value) (w : world) : completion number * world :=
  let remaining := ToNumber x in
  if Num.gt remaining (Fin (Z.of_nat REQUEST_CONCURRENCY_LIMIT + 10)) then
    (Normal (Fin 0), log_entry silly (RateLimitRemaining remaining) w)
  else
    let time :=
      Num.add (Num.sub (Num.mul (ToNumber y) (Fin 1000)) (Date_parse d)) (Fin 1000) in
    (Normal time,
     log_entry (if Num.strict_eq remaining (Fin 11) then warn else silly)
               (RateLimitReached time remaining) w).

(** The timers the [catch] block arms and what the promise settles to. *)
Definition on_failure (r : nat) (err : value) : list timer * completion value :=
  match estimate err with
  | Normal t => ([armed r t], Throw err)
  | Throw e => ([], Throw e)
  end.

(** The same for the whole [try]/[catch]: the [catch] block also receives
    what the estimator throws inside the [try] block. *)
Definition on_settled (r : nat) (outcome : completion value)
    : list timer * completion value :=
  match outcome with
  | Normal res =>
      match estimate res with
      | Normal t => ([armed r t], get_property res "body")
      | Throw e => on_failure r e
      end
  | Throw err => on_failure r err
  end.

End Derived.

(** ** Invariants of the event loop *)

(** An invocation suspended at [await fn()] holds the slot named after it. *)
Definition handles_named (w : world) : Prop :=
  forall c call r,
    calls w !! c = Some call -> call_phase call = AwaitingTransport r ->
    r = c /\ c ∈ held (pool w).

(** No resource has two release timers, only finished invocations have
    one, and the pool never holds more slots than it owns. *)
Definition release_discipline (w : world) : Prop :=
  handles_named w /\
  NoDup (armed_for w) /\
  (forall c, c ∈ armed_for w -> is_Some (result_of c w)) /\
  size (held (pool w)) <= limit (pool w).

(** Invocation [c] is over, its slot is held and no timer will release it. *)
Definition leaked (c : nat) (w : world) : Prop :=
  is_Some (result_of c w) /\ c ∈ held (pool w) /\ c ∉ armed_for w.

(** ** Responses and errors used to run the program *)
Module Fixture.

Definition headers (date remaining reset : string) : gmap string value :=
  {[ "date" := VStr date;
     "x-rate-limit-remaining" := VStr remaining;
     "x-rate-limit-reset" := VStr reset;
     "content-type" := VStr "application/json" ]}.

(** What the transport resolves to. *)
Definition response (hs : gmap string value) (body : value) : value :=
  VObj {[ "statusCode" := VNum (Fin 200); "headers" := VObj hs; "body" := body ]}.

(** What the transport rejects with on a status outside 2xx. *)
Definition StatusCodeError (code : Z) (hs : gmap string value) (body : value) : value :=
  VObj {[ "name" := VStr "StatusCodeError";
          "statusCode" := VNum (Fin code);
          "response" := VObj {[ "statusCode" := VNum (Fin code);
                                "headers" := VObj hs; "body" := body ]} ]}.

(** What the transport rejects with when the connection is reset: an
    error that wraps no response. *)
Definition RequestError (message : string) : gmap string value :=
  {[ "name" := VStr "RequestError";
     "message" := VStr message;
     "response" := VUndefined ]}.

Definition ECONNRESET : value :=
  VObj (RequestError "Error: read ECONNRESET").

(** Five requests left, the window resets two seconds after the date. *)
Definition scarce : gmap string value :=
  headers "2024-01-01T00:00:00Z" "5" "1704067202".

(** The same reading on another response. *)
Definition scarce_too : gmap string value :=
  <["retry-after" := VStr "2"]> (headers "2024-01-01T00:00:00Z" "5" "1704067202").

(** Plenty of requests left. *)
Definition ample : gmap string value :=
  headers "Mon, 01 Jan 2024 00:00:00 GMT" "600" "1704067260".

(** Five requests left, the reset time lies ten seconds before the date. *)
Definition stale : gmap string value :=
  headers "Mon, 01 Jan 2024 00:00:10 GMT" "5" "1704067200".

Definition users : list value := [VStr "/api/v1/users"].

Definition groups : list value := [VStr "/api/v1/groups"].

Definition user : value :=
  VObj {[ "id" := VStr "00u1"; "status" := VStr "ACTIVE" ]}.

(** The world the reference engine reaches by an interleaving. *)
Definition after (es : list event) : world :=
  default RequestScheduler_new (run (rt := Reference.engine) RequestScheduler_new es).

(** [get] was invoked and its request is on its way. *)
Definition get_users_executing : list event :=
  [Invoke GET users; Acquired 0].

(** A second invocation that runs to the end, release included. *)
Definition put_groups_done : list event :=
  [Invoke PUT groups; Acquired 1; Settled 1 (Normal (response scarce user));
   TimerFired 0].

End Fixture.

(** ** Occupancy of the pool *)

(** The invocation is between [await fn()] and the settling of its
    request. *)
Definition is_executing (c : call) : bool :=
  match call_phase c with
  | AwaitingTransport _ => true
  | _ => false
  end.

(** The invocation has got past [await scheduler.pool.acquire()]. *)
Definition has_started (c : call) : bool :=
  match call_phase c with
  | AwaitingSlot => false
  | _ => true
  end.

(** The invocations whose request is on its way. *)
Definition in_flight (w : world) : list nat :=
  filter (fun c => is_executing <$> calls w !! c = Some true) (seq 0 (length (calls w))).

(** A release timer of slot [c] has run. *)
Definition has_fired (c : nat) (w : world) : Prop :=
  exists t, t ∈ timers w /\ resource t = c /\ fired t = true.

(** Invocation [c] is executing its request, or has settled and no release
    timer of its slot has run yet. *)
Definition cooling_or_running (c : nat) (w : world) : Prop :=
  is_executing <$> calls w !! c = Some true \/
  (is_Some (result_of c w) /\ ~ has_fired c w).

(** The requests of the invocations that got a slot, in the order of the
    invocations. *)
Definition requests_started (w : world) : list request :=
  call_fn <$> filter (fun c => has_started c = true) (calls w).

(** * The account model *)

(** ** Values with arrays and ordered objects

    The account model enumerates the keys of objects, so an object is the
    list of its own enumerable properties in the order of [Object.keys]:
    array indices in ascending order first, then the other names in the
    order of their creation. *)

Inductive js : Type :=
| JUndefined
| JNull
| JBool (b : bool)
| JNum (n : number)
| JStr (s : string)
| JFunction
| JArr (items : list js)
| JObj (props : list (string * js)).

(** The methods of [Array.prototype] are the engine's: their names. *)
Class Builtins : Type := {
  Array_prototype_methods : list string;
}.

Module Js.

Definition ToBoolean (v : js) : bool :=
  match v with
  | JUndefined | JNull => false
  | JBool b => b
  | JNum NaN => false
  | JNum (Fin z) => negb (z =? 0)%Z
  | JStr s => negb (String.eqb s "")
  | JFunction | JArr _ | JObj _ => true
  end.

(** The own property [k], if there is one. *)
Fixpoint own (k : string) (o : list (string * js)) : option js :=
  match o with
  | [] => None
  | (k', v) :: o' => if decide (k = k') then Some v else own k o'
  end.

(** [Object.keys(o)] *)
Definition keys (o : list (string * js)) : list string := fst <$> o.

Definition Object_prototype_methods : list string :=
  ["constructor"; "__defineGetter__"; "__defineSetter__"; "hasOwnProperty";
   "__lookupGetter__"; "__lookupSetter__"; "isPrototypeOf";
   "propertyIsEnumerable"; "toString"; "valueOf"; "toLocaleString"].

(** What a plain object inherits from [Object.prototype] under the name
    [k]: the prototype itself through the [__proto__] accessor, a function
    for a method, [undefined] otherwise. *)
Definition inherited (k : string) : js :=
  if decide (k = "__proto__") then JObj []
  else if decide (k ∈ Object_prototype_methods) then JFunction
  else JUndefined.

(** [o[k]] on a plain object. *)
Definition get (o : list (string * js)) (k : string) : js :=
  default (inherited k) (own k o).

(** The array index a property name denotes: a canonical numeral up to
    [2^32 - 2]. *)
Definition array_index (k : string) : option Z :=
  match list_ascii_of_string k with
  | [] => None
  | c :: cs =>
      if decide (c = "0"%char /\ cs <> []) then None
      else n ← Reference.digits 0 (c :: cs);
           if (n <=? 4294967294)%Z then Some n else None
  end.

Fixpoint replace (k : string) (v : js) (o : list (string * js)) : list (string * js) :=
  match o with
  | [] => []
  | (k', v') :: o' => if decide (k = k') then (k', v) :: o' else (k', v') :: replace k v o'
  end.

Fixpoint insert_index (n : Z) (k : string) (v : js) (o : list (string * js))
    : list (string * js) :=
  match o with
  | [] => [(k, v)]
  | (k', v') :: o' =>
      match array_index k' with
      | Some n' => if (n <? n')%Z then (k, v) :: o else (k', v') :: insert_index n k v o'
      | None => (k, v) :: o
      end
  end.

(** A new own property takes its place in the order of [Object.keys]. *)
Definition create (k : string) (v : js) (o : list (string * js)) : list (string * js) :=
  match array_index k with
  | Some n => insert_index n k v o
  | None => o ++ [(k, v)]
  end.

(** An object under assignment: its own properties, and whether the
    [__proto__] accessor of [Object.prototype] is still on its prototype
    chain.  This is enough for an object that is afterwards enumerated or
    read under its own names only; an object that is read under arbitrary
    names after its prototype may have been replaced is a [chained]
    below. *)
Record object : Type := {
  props : list (string * js);
  setter : bool;
}.

(** [{}] *)
Definition empty : object := {| props := []; setter := true |}.

(** Whether the accessor is still inherited after [o.__proto__ = v] went
    through it: [null] removes the chain, an object becomes the prototype
    (and hides the accessor when it has its own [__proto__]), a primitive
    is ignored. *)
Definition keeps_setter (v : js) (before : bool) : bool :=
  match v with
  | JNull => false
  | JObj p => negb (bool_decide (is_Some (own "__proto__" p)))
  | JArr _ | JFunction => true
  | JUndefined | JBool _ | JNum _ | JStr _ => before
  end.

(** [o[k] = v] *)
Definition assign (k : string) (v : js) (o : object) : object :=
  match own k (props o) with
  | Some _ => {| props := replace k v (props o); setter := setter o |}
  | None =>
      if decide (k = "__proto__") then
        if setter o then {| props := props o; setter := keeps_setter v true |}
        else {| props := create k v (props o); setter := false |}
      else {| props := create k v (props o); setter := setter o |}
  end.

(** [Object.assign(target, source)] *)
Definition Object_assign (target : object) (source : list (string * js)) : object :=
  foldl (fun o kv => assign kv.1 kv.2 o) target source.

(** *** Objects that are read through their prototype

    An object that is read under arbitrary names after assignments under
    arbitrary names keeps, besides its own properties, the prototype its
    reads fall back on: [Object.prototype] at first, and afterwards
    whatever an assignment to [__proto__] put in its place. *)
Inductive prototype : Type :=
| Object_prototype
| Null_prototype
| Installed (v : js).

Record chained : Type := {
  fields : list (string * js);
  proto : prototype;
}.

(** [{}] *)
Definition blank : chained := {| fields := []; proto := Object_prototype |}.

(** Whether the [__proto__] accessor of [Object.prototype] is what a read
    or an assignment under [__proto__] finds on the prototype chain: it is
    hidden by an own [__proto__] property of an installed object (the
    parser of JSON creates such properties) and gone with the chain. *)
Definition has_accessor (pr : prototype) : bool :=
  match pr with
  | Object_prototype => true
  | Null_prototype => false
  | Installed (JObj p) => negb (bool_decide (is_Some (own "__proto__" p)))
  | Installed _ => true
  end.

(** The prototype after [o.__proto__ = v] went through the accessor: an
    object, an array or a function becomes the prototype, [null] removes
    it, another primitive is ignored. *)
Definition install (v : js) (pr : prototype) : prototype :=
  match v with
  | JNull => Null_prototype
  | JObj _ | JArr _ | JFunction => Installed v
  | JUndefined | JBool _ | JNum _ | JStr _ => pr
  end.

(** [o[k] = v].  Every property an object or an array from JSON has, and
    every property of the built-in prototypes behind them, is writable, so
    an assignment under a name the object does not own creates an own
    property, except under [__proto__] while the accessor is in reach. *)
Definition write (k : string) (v : js) (o : chained) : chained :=
  match own k (fields o) with
  | Some _ => {| fields := replace k v (fields o); proto := proto o |}
  | None =>
      if decide (k = "__proto__") then
        if has_accessor (proto o)
        then {| fields := fields o; proto := install v (proto o) |}
        else {| fields := create k v (fields o); proto := proto o |}
      else {| fields := create k v (fields o); proto := proto o |}
  end.

Section Reading.
Context `{Builtins}.

(** [items[k]] for a name other than [__proto__]: the length, an item, a
    method of [Array.prototype] or what [Object.prototype] has. *)
Definition array_member (items : list js) (k : string) : js :=
  if decide (k = "length") then JNum (Fin (Z.of_nat (length items)))
  else match n ← array_index k; items !! Z.to_nat n with
       | Some v => v
       | None =>
           if decide (k ∈ Array_prototype_methods) then JFunction else inherited k
       end.

(** What a read under [k] finds on the prototype chain.  Under
    [__proto__] the accessor gives the prototype itself.  A function is no
    value of JSON: what it owns ([length], [name]) is not modelled. *)
Definition through (pr : prototype) (k : string) : js :=
  match pr with
  | Object_prototype => inherited k
  | Null_prototype => JUndefined
  | Installed (JObj p) =>
      match own k p with
      | Some v => v
      | None => if decide (k = "__proto__") then JObj p else inherited k
      end
  | Installed (JArr items) =>
      if decide (k = "__proto__") then JArr items else array_member items k
  | Installed v => if decide (k = "__proto__") then v else inherited k
  end.

(** [o[k]] *)
Definition read (o : chained) (k : string) : js :=
  default (through (proto o) k) (own k (fields o)).

End Reading.

End Js.

(** [JSON.stringify] is the engine's: the text it produces for a value that
    has one. *)
Class Json : Type := {
  stringify : js -> string;
}.

(** [JSON.stringify(v)]: [undefined] for [undefined] and for a function. *)
Definition JSON_stringify `{Json} (v : js) : js :=
  match v with
  | JUndefined | JFunction => JUndefined
  | _ => JStr (stringify v)
  end.

(** What the account model reads from [config] and [cache]. *)
Record settings : Type := {
  isCustomDataStringify : bool;
  isCustomDataSchema : bool;
  customSchemaTypeMap : list (string * js);
}.

(** The warnings of the account model. *)
Inductive account_log : Type :=
| RequiredAttributes (missing : list string) (email : js)
| InvalidCustomData (accountIds : list js) (invalid : list (string * js * js))
| TooManyApiKeys (id : js) (numApiKeys : nat).

(** What a method gives: its result, or the [Error] it throws. *)
Inductive outcome (A : Type) : Type :=
| Returned (a : A)
| Thrown (message : string).
Arguments Returned {A} a.
Arguments Thrown {A} message.

Record apiKey : Type := {
  key_id : string;
  key_secret : string;
}.

(** The fields of an [Account] the model reads or writes: [id'] is
    [this.id] ([id] being the identity function of the library), and
    [directory_id] is [this.directory.id] as a property name. *)
Record account : Type := {
  id' : js;
  username : js;
  givenName : js;
  middleName : js;
  surName : js;
  surname : js;
  fullName : js;
  email : js;
  externalId : js;
  directory_id : string;
  customData : list (string * js);
  apiKeys : list apiKey;
  accountIds : list js;
  directoryIds : list string;
  externalIds : Js.chained;
  oktaUserId : js;
}.

Module Account.

(** [function flattenCustomData(customData, prefix = '')], one property at a
    time: [flatten_property prefixStr key val flattened] is the body of the
    loop. *)
Fixpoint flatten_property (prefixStr key : string) (val : js) (flattened : Js.object)
    {struct val} : Js.object :=
  match val with
  | JObj customData =>
      let prefix := prefixStr +:+ key in
      let prefixStr' := if decide (prefix = "") then "" else prefix +:+ "_" in
      let nested :=
        (fix loop (kvs : list (string * js)) (flattened' : Js.object) : Js.object :=
           match kvs with
           | [] => flattened'
           | (k, v) :: kvs' => loop kvs' (flatten_property prefixStr' k v flattened')
           end) customData Js.empty in
      Js.Object_assign flattened (Js.props nested)
  | _ => Js.assign (prefixStr +:+ key) val flattened
  end.

Definition flatten_properties (prefixStr : string) (customData : list (string * js))
    (flattened : Js.object) : Js.object :=
  foldl (fun fl kv => flatten_property prefixStr kv.1 kv.2 fl) flattened customData.

Definition flattenCustomData (customData : list (string * js)) (prefix : string)
    : Js.object :=
  let prefixStr := if decide (prefix = "") then "" else prefix +:+ "_" in
  flatten_properties prefixStr customData Js.empty.

Section WithJson.
Context `{Json}.

(** [{ type, val }] *)
Definition typed (type : string) (val : js) : js :=
  JObj [("type", JStr type); ("val", val)].

(** [function transform(original)] *)
Definition transform (original : js) : js :=
  match original with
  | JArr items =>
      let type := match items with
                  | JNum _ :: _ => "array-number"
                  | _ => "array-string"
                  end in
      typed type
        (JArr ((fun item => if decide (type = "array-string")
                            then JSON_stringify item else item) <$> items))
  | JBool _ => typed "boolean" original
  | JNum _ => typed "number" original
  | JStr _ => typed "string" original
  | _ => typed "string" (JSON_stringify original)
  end.

End WithJson.

(** [function addRequiredAttributes(profile)], with the warning it logs. *)
Definition addRequiredAttributes (profile : Js.object)
    : Js.object * list account_log :=
  let '(profile, missing) :=
    foldl (fun '(profile, missing) attr =>
             if negb (Js.ToBoolean (Js.get (Js.props profile) attr))
             then (Js.assign attr (JStr "not_provided") profile, missing ++ [attr])
             else (profile, missing))
          (profile, []) ["firstName"; "lastName"] in
  (profile,
   match missing with
   | [] => []
   | _ => [RequiredAttributes missing (Js.get (Js.props profile) "email")]
   end).

(** What the constructor leaves after [super(filePath, json)] has run:
    [keys] is [options.accountApiKeys[this.id]], if there is one. *)
Definition constructor (this : account) (keys : option (list apiKey)) : account :=
  {| id' := id' this; username := username this; givenName := givenName this;
     middleName := middleName this; surName := surName this;
     surname := surname this; fullName := fullName this; email := email this;
     externalId := externalId this; directory_id := directory_id this;
     customData := customData this;
     apiKeys := default [] keys;
     accountIds := [id' this];
     directoryIds := [directory_id this];
     externalIds :=
       if Js.ToBoolean (externalId this)
       then Js.write (directory_id this) (externalId this) Js.blank
       else Js.blank;
     oktaUserId := oktaUserId this |}.

(** [if (!this[prop]) { this[prop] = account[prop]; }] *)
Definition merge_property (mine theirs : js) : js :=
  if negb (Js.ToBoolean mine) then theirs else mine.

(** Step 2 of [merge], the loop over [Object.keys(account.customData)]. *)
Definition merge_customData (mine theirs : list (string * js)) : list (string * js) :=
  Js.props
    (foldl (fun cd key =>
              if negb (Js.ToBoolean (Js.get (Js.props cd) key))
              then Js.assign key (Js.get theirs key) cd
              else cd)
           {| Js.props := mine; Js.setter := true |}
           (Js.keys theirs)).

(** [merge(account)] *)
Definition merge (this other : account) : account :=
  {| id' := id' this;
     username := merge_property (username this) (username other);
     givenName := merge_property (givenName this) (givenName other);
     middleName := merge_property (middleName this) (middleName other);
     surName := merge_property (surName this) (surName other);
     surname := surname this;
     fullName := merge_property (fullName this) (fullName other);
     email := email this;
     externalId := externalId this;
     directory_id := directory_id this;
     customData := merge_customData (customData this) (customData other);
     apiKeys := apiKeys this ++ apiKeys other;
     accountIds := accountIds this ++ [id' other];
     directoryIds := directoryIds this ++ [directory_id other];
     externalIds :=
       if Js.ToBoolean (externalId other)
       then Js.write (directory_id other) (externalId other) (externalIds this)
       else externalIds this;
     oktaUserId := oktaUserId this |}.

(** [setOktaUserId(oktaUserId)] *)
Definition setOktaUserId (this : account) (oktaUserId' : js) : account :=
  {| id' := id' this; username := username this; givenName := givenName this;
     middleName := middleName this; surName := surName this;
     surname := surname this; fullName := fullName this; email := email this;
     externalId := externalId this; directory_id := directory_id this;
     customData := customData this; apiKeys := apiKeys this;
     accountIds := accountIds this; directoryIds := directoryIds this;
     externalIds := externalIds this;
     oktaUserId := oktaUserId' |}.

(** [getOktaUserId()] *)
Definition getOktaUserId (this : account) : js := oktaUserId this.

(** [getExternalIdForDirectory(directoryId)] *)
Definition getExternalIdForDirectory `{Builtins} (this : account) (directoryId : string)
    : js :=
  Js.read (externalIds this) directoryId.

Definition skip : list string := ["createdAt"; "modifiedAt"; "href"; "id"].

(** [v.k] for one of the values [getCustomData] stores. *)
Definition field (v : js) (k : string) : js :=
  match v with
  | JObj p => Js.get p k
  | _ => JUndefined
  end.

(** [a === b] *)
Definition strict_equals (a b : js) : bool :=
  match a, b with
  | JStr s, JStr s' => bool_decide (s = s')
  | JUndefined, JUndefined | JNull, JNull => true
  | JBool x, JBool y => bool_decide (x = y)
  | JNum x, JNum y => Num.strict_eq x y
  | _, _ => false
  end.

Section Methods.
Context `{Json}.
Variable config : settings.

(** The loop of [getCustomData] over the flattened keys. *)
Fixpoint schema_properties (this : account) (keys : list string)
    (collected : Js.object) : outcome Js.object :=
  match keys with
  | [] => Returned collected
  | key :: keys' =>
      if String.prefix "stormpathApiKey_" key
      then Thrown (key +:+ " is a reserved property name")
      else schema_properties this keys'
             (Js.assign key (transform (Js.get (customData this) key)) collected)
  end.

(** [this.apiKeys.forEach((key, i) => ...)], at index [i]. *)
Fixpoint apiKey_properties (i : nat) (keys : list apiKey) (collected : Js.object)
    : Js.object :=
  match keys with
  | [] => collected
  | key :: keys' =>
      apiKey_properties (S i) keys'
        (if decide (i < 10)
         then Js.assign ("stormpathApiKey_" +:+ pretty (i + 1))
                        (transform (JStr (key_id key +:+ ":" +:+ key_secret key)))
                        collected
         else collected)
  end.

(** [getCustomData()], with the warning it logs. *)
Definition getCustomData (this : account) : outcome Js.object * list account_log :=
  let first : outcome Js.object :=
    if isCustomDataStringify config then
      Returned (Js.assign "customData"
                  (transform (JSON_stringify (JObj (customData this))))
                  Js.empty)
    else if isCustomDataSchema config then
      let flattened := flattenCustomData (customData this) "" in
      let keys := filter (fun key => key ∉ skip) (Js.keys (Js.props flattened)) in
      schema_properties this keys Js.empty
    else Returned Js.empty in
  match first with
  | Thrown message => (Thrown message, [])
  | Returned collected =>
      let collected := apiKey_properties 0 (apiKeys this) collected in
      let numApiKeys := length (apiKeys this) in
      (Returned collected,
       if decide (10 < numApiKeys) then [TooManyApiKeys (id' this) numApiKeys] else [])
  end.

(** The loop of [getProfileAttributes] over [Object.keys(customData)]. *)
Definition schema_checked (collected : list (string * js))
    (profileAttributes : Js.object) : Js.object * list (string * js * js) :=
  foldl (fun '(profileAttributes, invalid) key =>
           let property := Js.get collected key in
           let schemaType := Js.get (customSchemaTypeMap config) key in
           if negb (strict_equals (field property "type") schemaType)
           then (profileAttributes, invalid ++ [(key, field property "type", schemaType)])
           else (Js.assign key (field (Js.get collected key) "val") profileAttributes,
                 invalid))
        (profileAttributes, []) (Js.keys collected).

(** [getProfileAttributes()], with the warnings it logs. *)
Definition getProfileAttributes (this : account) : outcome Js.object * list account_log :=
  let '(profileAttributes, log1) :=
    addRequiredAttributes
      {| Js.props := [("login", username this); ("email", email this);
                      ("firstName", givenName this); ("middleName", middleName this);
                      ("lastName", surname this); ("displayName", fullName this)];
         Js.setter := true |} in
  match getCustomData this with
  | (Thrown message, log2) => (Thrown message, log1 ++ log2)
  | (Returned collected, log2) =>
      let '(profileAttributes, invalid) :=
        schema_checked (Js.props collected) profileAttributes in
      (Returned profileAttributes,
       log1 ++ log2 ++
       match invalid with
       | [] => []
       | _ => [InvalidCustomData (accountIds this) invalid]
       end)
  end.

End Methods.

End Account.

(** ** Observations on the account model *)

(** The leaves of a nested value with the names flattening gives them, in
    the order of the traversal. *)
Fixpoint leaves_of (prefixStr key : string) (val : js) {struct val} : list (string * js) :=
  match val with
  | JObj customData =>
      let prefix := prefixStr +:+ key in
      let prefixStr' := if decide (prefix = "") then "" else prefix +:+ "_" in
      (fix go (kvs : list (string * js)) : list (string * js) :=
         match kvs with
         | [] => []
         | (k, v) :: kvs' => leaves_of prefixStr' k v ++ go kvs'
         end) customData
  | _ => [(prefixStr +:+ key, val)]
  end.

Definition leaves (prefix : string) (customData : list (string * js)) : list (string * js) :=
  let prefixStr := if decide (prefix = "") then "" else prefix +:+ "_" in
  flat_map (fun kv => leaves_of prefixStr kv.1 kv.2) customData.

(** The last property of a list with the given key. *)
Definition own_last (k : string) (l : list (string * js)) : option js :=
  Js.own k (reverse l).

(** [!!val && !Array.isArray(val) && typeof val === 'object'] *)
Definition is_plain_object (v : js) : bool :=
  match v with
  | JObj _ => true
  | _ => false
  end.

(** Induction on a value, with the hypothesis for the items of an array
    and for the values of an object. *)
Section js_induction.
Variable P : js -> Prop.
Hypothesis HUndefined : P JUndefined.
Hypothesis HNull : P JNull.
Hypothesis HBool : forall b, P (JBool b).
Hypothesis HNum : forall n, P (JNum n).
Hypothesis HStr : forall s, P (JStr s).
Hypothesis HFunction : P JFunction.
Hypothesis HArr : forall items, Forall P items -> P (JArr items).
Hypothesis HObj : forall props, Forall (fun kv => P kv.2) props -> P (JObj props).

Fixpoint js_nested_ind (v : js) : P v :=
  match v with
  | JUndefined => HUndefined
  | JNull => HNull
  | JBool b => HBool b
  | JNum n => HNum n
  | JStr s => HStr s
  | JFunction => HFunction
  | JArr items =>
      HArr items
        ((fix go (l : list js) : Forall P l :=
            match l with
            | [] => @List.Forall_nil _ _
            | x :: l' => @List.Forall_cons _ P x l' (js_nested_ind x) (go l')
            end) items)
  | JObj props =>
      HObj props
        ((fix go (l : list (string * js)) : Forall (fun kv => P kv.2) l :=
            match l with
            | [] => @List.Forall_nil _ _
            | (k, x) :: l' =>
                @List.Forall_cons _ (fun kv => P kv.2) (k, x) l' (js_nested_ind x) (go l')
            end) props)
  end.
End js_induction.

(** What one round of the loop of [flattenCustomData] keeps and adds. *)
Definition flattens_well (val : js) : Prop :=
  forall prefixStr key flattened,
    NoDup (Js.keys (Js.props flattened)) ->
    NoDup (Js.keys (Js.props (Account.flatten_property prefixStr key val flattened))) /\
    (forall K, K <> "__proto__" ->
       Js.own K (Js.props (Account.flatten_property prefixStr key val flattened))
       = match own_last K (leaves_of prefixStr key val) with
         | Some v => Some v
         | None => Js.own K (Js.props flattened)
         end) /\
    (forall kv, kv ∈ Js.props (Account.flatten_property prefixStr key val flattened) ->
       kv ∈ Js.props flattened \/ is_plain_object kv.2 = false).

(** [if (!profile[attr]) { profile[attr] = 'not_provided'; }] *)
Definition provided (attr : string) (profile : Js.object) : Js.object :=
  if Js.ToBoolean (Js.get (Js.props profile) attr) then profile
  else Js.assign attr (JStr "not_provided") profile.

(** The required attributes [profile] lacks. *)
Definition missing_attributes (profile : Js.object) : list string :=
  filter (fun attr => Js.ToBoolean (Js.get (Js.props profile) attr) = false)
         ["firstName"; "lastName"].

(** The directory and external id of each account that has an external
    id. *)
Definition externalId_entries (accounts : list account) : list (string * js) :=
  omap (fun a => if Js.ToBoolean (externalId a)
                 then Some (directory_id a, externalId a) else None) accounts.

(** No account is filed under the directory id [__proto__]. *)
Definition plain_directories (accounts : list account) : Prop :=
  Forall (fun a => directory_id a <> "__proto__") accounts.

(** [key.indexOf('stormpathApiKey_') === 0] *)
Definition reserved (key : string) : bool := String.prefix "stormpathApiKey_" key.

(** The types [transform] gives. *)
Definition schema_types : list string :=
  ["array-number"; "array-string"; "boolean"; "number"; "string"].

Definition is_typed (v : js) : Prop :=
  exists type val, v = Account.typed type val /\ type ∈ schema_types.

(** The attributes [getProfileAttributes] starts from. *)
Definition base_attributes : list string :=
  ["login"; "email"; "firstName"; "middleName"; "lastName"; "displayName"].

(** [Object.keys(flattened).filter(key => !skip.includes(key))] *)
Definition schema_keys (this : account) : list string :=
  filter (fun key => key ∉ Account.skip)
         (Js.keys (Js.props (Account.flattenCustomData (customData this) ""))).

(** * The reset script *)

Module Reset.

(** What a statement of the script throws: the error a request rejected
    with, or the [TypeError] of the engine for a read on [undefined] or
    [null]. *)
Inductive exception : Type :=
| Raised (err : js)
| CannotRead (name : string) (v : js)
| CannotConvert (v : js).

(** What an awaited promise settles to. *)
Inductive settled : Type :=
| Fulfilled (v : js)
| Rejected (err : js).

(** What the script logs; [error msg err] is
    [logger.error(new ApiError(msg, err))]. *)
Inductive entry : Type :=
| header (msg : string)
| info (msg : string)
| error (msg : string) (err : js).

(** [v.name] for a name that no built-in prototype defines and that is no
    index of a string or an array: [definitions], [custom],
    [properties]. *)
Definition member (v : js) (name : string) : exception + js :=
  match v with
  | JUndefined | JNull => inl (CannotRead name v)
  | JObj p => inr (Js.get p name)
  | JBool _ | JNum _ | JStr _ | JFunction | JArr _ => inr JUndefined
  end.

(** [Object.keys(v)]: the indices of a string or an array, nothing for
    another primitive or a function. *)
Definition Object_keys (v : js) : exception + list string :=
  match v with
  | JUndefined | JNull => inl (CannotConvert v)
  | JObj p => inr (Js.keys p)
  | JArr items => inr (pretty <$> seq 0 (length items))
  | JStr s => inr (pretty <$> seq 0 (String.length s))
  | JBool _ | JNum _ | JFunction => inr []
  end.

(** [Object.keys(schema.definitions.custom.properties)] *)
Definition custom_properties (schema : js) : exception + list string :=
  match member schema "definitions" with
  | inl e => inl e
  | inr definitions =>
      match member definitions "custom" with
      | inl e => inl e
      | inr custom =>
          match member custom "properties" with
          | inl e => inl e
          | inr properties => Object_keys properties
          end
      end
  end.

(** [properties] of the request body after the loop
    [for (let prop of props) { ...properties[prop] = null; }]. *)
Definition nulled (props : list string) : Js.object :=
  foldl (fun properties prop => Js.assign prop JNull properties) Js.empty props.

(** [options] when it is passed to [rs.post]. *)
Definition options (props : list string) : js :=
  JObj [("url", JStr "/api/v1/meta/schemas/user/default");
        ("body",
         JObj [("definitions",
                JObj [("custom",
                       JObj [("id", JStr "#custom");
                             ("type", JStr "object");
                             ("properties", JObj (Js.props (nulled props)))])])])].

(** One run of a function of the script: whether it returned or threw,
    what it logged, and the arguments of its calls of [rs.post]. *)
Record ran : Type := {
  result : exception + unit;
  logged : list entry;
  posted : list js;
}.

Section Script.

(** What [await rs.get('/api/v1/meta/schemas/user/default')] settles to,
    and what [await rs.post(options)] does for the options it is given. *)
Variable get_schema : settled.
Variable post_schema : js -> settled.

(** [async function deleteCustomSchema()] *)
Definition deleteCustomSchema : ran :=
  let started := [header "Deleting custom schema"] in
  match get_schema with
  | Rejected err => {| result := inl (Raised err); logged := started; posted := [] |}
  | Fulfilled schema =>
      match custom_properties schema with
      | inl e => {| result := inl e; logged := started; posted := [] |}
      | inr props =>
          if decide (length props = 0) then
            {| result := inr tt;
               logged := started ++ [info "No custom properties to delete"];
               posted := [] |}
          else
            let deleting :=
              started ++
              [info ("Deleting " +:+ pretty (length props) +:+ " custom properties")] in
            match post_schema (options props) with
            | Fulfilled _ =>
                {| result := inr tt;
                   logged := deleting ++
                     [info ("Deleted " +:+ pretty (length props) +:+ " custom properties")];
                   posted := [options props] |}
            | Rejected err =>
                {| result := inr tt;
                   logged := deleting ++ [error "Error deleting custom properties" err];
                   posted := [options props] |}
            end
      end
  end.

End Script.

End Reset.

(** ** Sample accounts *)

Module Sample.

Definition quote : string := String (ascii_of_nat 34) "".

(** [JSON.stringify] on values whose strings need no escape. *)
Fixpoint stringify (v : js) : string :=
  match v with
  | JUndefined | JFunction | JNull | JNum NaN => "null"
  | JBool true => "true"
  | JBool false => "false"
  | JNum (Fin z) => pretty z
  | JStr s => quote +:+ s +:+ quote
  | JArr items =>
      "[" +:+
      (fix go (l : list js) : string :=
         match l with
         | [] => ""
         | [x] => stringify x
         | x :: l' => stringify x +:+ "," +:+ go l'
         end) items
      +:+ "]"
  | JObj props =>
      "{" +:+
      (fix go (first : bool) (l : list (string * js)) : string :=
         match l with
         | [] => ""
         | (_, JUndefined) :: l' | (_, JFunction) :: l' => go first l'
         | (k, x) :: l' =>
             (if first then "" else ",") +:+ quote +:+ k +:+ quote +:+ ":"
             +:+ stringify x +:+ go false l'
         end) true props
      +:+ "}"
  end.

Definition json : Json := Build_Json stringify.

(** The configuration that maps custom data to schema properties. *)
Definition schema (types : list (string * js)) : settings :=
  {| isCustomDataStringify := false; isCustomDataSchema := true;
     customSchemaTypeMap := types |}.

(** What [super(filePath, json)] leaves of an exported account. *)
Definition exported (i login given family mail external : js)
    (directory : string) (data : list (string * js)) : account :=
  {| id' := i; username := login; givenName := given;
     middleName := JUndefined; surName := JUndefined; surname := family;
     fullName := JUndefined; email := mail; externalId := external;
     directory_id := directory; customData := data; apiKeys := [];
     accountIds := []; directoryIds := []; externalIds := Js.blank;
     oktaUserId := JUndefined |}.

(** The custom data of the comment on [flattenCustomData], with a tag
    list and an id. *)
Definition address : list (string * js) :=
  [("address", JObj [("number", JNum (Fin 5)); ("street", JStr "Brannan St.")]);
   ("tags", JArr [JStr "a"; JStr "b"]);
   ("id", JStr "2bSsCwFRXM1zkbMzoKGjs")].

Definition key (n : string) : apiKey := {| key_id := "id" +:+ n; key_secret := "s" +:+ n |}.

Definition eleven_keys : list apiKey :=
  key <$> ["1"; "2"; "3"; "4"; "5"; "6"; "7"; "8"; "9"; "10"; "11"].

Definition alice : account :=
  Account.constructor
    (exported (JStr "a1") (JStr "alice") (JStr "Alice") JUndefined
              (JStr "alice@example.com") (JStr "ext-1") "dir1" address)
    (Some eleven_keys).

(** The same person in two other directories, one without a username
    and one with. *)
Definition alice_too : account :=
  Account.constructor
    (exported (JStr "a2") (JStr "") JUndefined (JStr "Liddell")
              (JStr "alice@example.com") JUndefined "dir2"
              [("zip", JStr "94107"); ("tags", JArr [])])
    None.

Definition alice_three : account :=
  Account.constructor
    (exported (JStr "a3") (JStr "aliddell") JUndefined JUndefined
              (JStr "alice@example.com") (JStr "ext-3") "dir3" [])
    None.

(** An account whose custom data holds an empty first name. *)
Definition renamed : account :=
  Account.constructor
    (exported (JStr "a4") (JStr "alice") (JStr "Alice") JUndefined
              (JStr "alice@example.com") JUndefined "dir1"
              [("firstName", JStr "")])
    None.

(** An account of a directory whose id is [__proto__], with an object as
    its external id. *)
Definition mallory : account :=
  Account.constructor
    (exported (JStr "a9") (JStr "mallory") JUndefined JUndefined
              (JStr "mallory@example.com") (JObj [("dir9", JStr "evil")])
              "__proto__" [])
    None.

(** The methods of [Array.prototype] in ECMAScript 2015. *)
Definition builtins : Builtins :=
  Build_Builtins
    ["concat"; "constructor"; "copyWithin"; "entries"; "every"; "fill"; "filter";
     "find"; "findIndex"; "forEach"; "indexOf"; "join"; "keys"; "lastIndexOf";
     "map"; "pop"; "push"; "reduce"; "reduceRight"; "reverse"; "shift"; "slice";
     "some"; "sort"; "splice"; "toLocaleString"; "toString"; "unshift"].

(** An account that has nothing set. *)
Definition nobody : account :=
  Account.constructor
    (exported (JStr "a0") JUndefined JUndefined JUndefined JUndefined JUndefined
              "dir0" [])
    None.

(** What a method returned. *)
Definition returned (o : outcome Js.object) : Js.object :=
  match o with
  | Returned a => a
  | Thrown _ => Js.empty
  end.

Definition custom_data (config : settings) (this : account) : Js.object :=
  returned (fst (Account.getCustomData (H := json) config this)).

Definition profile (config : settings) (this : account) : Js.object :=
  returned (fst (Account.getProfileAttributes (H := json) config this)).

(** The user schema of an organisation with two custom properties. *)
Definition user_schema : js :=
  JObj [("id", JStr "https://example.okta.com/meta/schemas/user/default");
        ("definitions",
         JObj [("base", JObj [("id", JStr "#base")]);
               ("custom",
                JObj [("id", JStr "#custom");
                      ("type", JStr "object");
                      ("properties",
                       JObj [("favoriteColor", JObj [("type", JStr "string")]);
                             ("shoeSize", JObj [("type", JStr "number")])])])])].

(** What [JSON.stringify] throws on a [BigInt]. *)
Definition cannot_serialize : value :=
  VObj {[ "name" := VStr "TypeError";
          "message" := VStr "Do not know how to serialize a BigInt" ]}.

(** The arguments of a call that asks the transport for the body alone. *)
Definition body_only : list value :=
  [VObj {[ "uri" := VStr "/api/v1/users/00u1";
           "resolveWithFullResponse" := VBool false ]}].

(** A response that lost its headers on the way. *)
Definition bare_response : value :=
  VObj {[ "statusCode" := VNum (Fin 200); "body" := Fixture.user ]}.

(** Eleven requests left. *)
Definition eleven_left : gmap string value :=
  Fixture.headers "2024-01-01T00:00:00Z" "11" "1704067202".

End Sample.

(** * The estimator *)

Create HintDb sched discriminated.
#[export] Hint Unfold mbind sched_bind mret sched_ret lift throw : sched.

(** Splits on the comparison of [remaining] with the concurrency limit
    plus ten. *)
Ltac case_headroom n :=
  destruct (Z.ltb_spec (Z.of_nat REQUEST_CONCURRENCY_LIMIT + 10) n).

(** Runs the program on closed input. *)
Ltac by_running := vm_compute; reflexivity.

Section Estimator.
Context `{rt : Runtime}.

Lemma timeToNextRequest_headers res headers w :
  headers_of res = Normal headers ->
  timeToNextRequest res w =
    match get_property headers "x-rate-limit-remaining",
          get_property headers "date",
          get_property headers "x-rate-limit-reset" with
    | Normal x, Normal d, Normal y => estimate_from x d y w
    | Throw e, _, _ => (Throw e, w)
    | _, Throw e, _ => (Throw e, w)
    | _, _, Throw e => (Throw e, w)
    end.
Proof.
  unfold headers_of, timeToNextRequest, estimate_from, log_entry.
  autounfold with sched. unfold logger_log.
  intros Hh.
  destruct (get_property res "headers") as [h|e]; [|discriminate].
  destruct (ToBoolean h).
  - injection Hh as ->.
    destruct headers; cbn [get_property]; try reflexivity;
      match goal with |- context [Num.gt ?a ?b] => destruct (Num.gt a b) end;
      reflexivity.
  - destruct (get_property res "response") as [r|e]; [|discriminate].
    rewrite Hh.
    destruct headers; cbn [get_property]; try reflexivity;
      match goal with |- context [Num.gt ?a ?b] => destruct (Num.gt a b) end;
      reflexivity.
Qed.

Lemma timeToNextRequest_no_headers res e w :
  headers_of res = Throw e ->
  timeToNextRequest res w = (Throw e, w).
Proof.
  unfold headers_of, timeToNextRequest. autounfold with sched.
  intros Hh.
  destruct (get_property res "headers") as [h|e']; [|congruence].
  destruct (ToBoolean h); [discriminate|].
  destruct (get_property res "response") as [r|e']; [|congruence].
  rewrite Hh. reflexivity.
Qed.

(** The estimator returns the same in every state, and writes to the
    logger only. *)
Lemma timeToNextRequest_frame res w :
  fst (timeToNextRequest res w) = estimate res /\
  requestId (snd (timeToNextRequest res w)) = requestId w /\
  pool (snd (timeToNextRequest res w)) = pool w /\
  calls (snd (timeToNextRequest res w)) = calls w /\
  transport (snd (timeToNextRequest res w)) = transport w /\
  timers (snd (timeToNextRequest res w)) = timers w.
Proof.
  unfold estimate.
  destruct (headers_of res) as [headers|e] eqn:Hh.
  - rewrite !(timeToNextRequest_headers res headers) by exact Hh.
    destruct (get_property headers "x-rate-limit-remaining");
      destruct (get_property headers "date");
      destruct (get_property headers "x-rate-limit-reset");
      unfold estimate_from; try destruct (Num.gt _ _); cbn; auto 10.
  - rewrite !(timeToNextRequest_no_headers res e) by exact Hh. cbn. auto 10.
Qed.

Lemma estimate_headers res (hs : gmap string value) :
  headers_of res = Normal (VObj hs) ->
  estimate res =
    fst (estimate_from (default VUndefined (hs !! "x-rate-limit-remaining"))
                       (default VUndefined (hs !! "date"))
                       (default VUndefined (hs !! "x-rate-limit-reset"))
                       RequestScheduler_new).
Proof.
  intros Hh. unfold estimate.
  rewrite (timeToNextRequest_headers res (VObj hs)) by exact Hh.
  reflexivity.
Qed.

Lemma estimate_ample res (hs : gmap string value) remaining n :
  headers_of res = Normal (VObj hs) ->
  hs !! "x-rate-limit-remaining" = Some remaining ->
  ToNumber remaining = Fin n ->
  (Z.of_nat REQUEST_CONCURRENCY_LIMIT + 10 < n)%Z ->
  estimate res = Normal (Fin 0).
Proof.
  intros Hh Hrem Hn Hgt.
  rewrite (estimate_headers res hs Hh), Hrem. unfold estimate_from.
  cbn [from_option id]. rewrite Hn. unfold Num.gt.
  case_headroom n; [reflexivity|lia].
Qed.

Lemma estimate_scarce res (hs : gmap string value) D remaining R n :
  headers_of res = Normal (VObj hs) ->
  hs !! "date" = Some D ->
  hs !! "x-rate-limit-remaining" = Some remaining ->
  hs !! "x-rate-limit-reset" = Some R ->
  ToNumber remaining = Fin n ->
  (n <= Z.of_nat REQUEST_CONCURRENCY_LIMIT + 10)%Z ->
  estimate res =
    Normal (Num.add (Num.sub (Num.mul (ToNumber R) (Fin 1000)) (Date_parse D)) (Fin 1000)).
Proof.
  intros Hh HD Hrem HR Hn Hle.
  rewrite (estimate_headers res hs Hh), HD, Hrem, HR. unfold estimate_from.
  cbn [from_option id]. rewrite Hn. unfold Num.gt.
  case_headroom n; [lia|reflexivity].
Qed.

Lemma estimate_unclamped res (hs : gmap string value) D remaining R n r d :
  headers_of res = Normal (VObj hs) ->
  hs !! "date" = Some D ->
  hs !! "x-rate-limit-remaining" = Some remaining ->
  hs !! "x-rate-limit-reset" = Some R ->
  ToNumber remaining = Fin n -> ToNumber R = Fin r -> Date_parse D = Fin d ->
  estimate res = Normal (Fin (unclamped_delay n r d)).
Proof.
  intros Hh HD Hrem HR Hn Hr Hd. unfold unclamped_delay.
  case_headroom n.
  - eapply estimate_ample; eauto.
  - rewrite (estimate_scarce res hs D remaining R n) by assumption.
    rewrite Hr, Hd. reflexivity.
Qed.

Lemma estimate_full_response res :
  full_response res -> exists t, estimate res = Normal t.
Proof.
  intros (props & hs & -> & Hh).
  assert (Hof : headers_of (VObj props) = Normal (VObj hs))
    by (unfold headers_of; cbn; rewrite Hh; reflexivity).
  rewrite (estimate_headers _ hs Hof). unfold estimate_from.
  destruct (Num.gt _ _); cbn; eauto.
Qed.

(** When the estimator returns, [res.body] can be read. *)
Lemma estimate_normal_body res t :
  estimate res = Normal t ->
  exists body, get_property res "body" = Normal body.
Proof.
  destruct res; cbn; eauto; unfold estimate; cbn; discriminate.
Qed.

Lemma get_property_throws v key e :
  get_property v key = Throw e -> exists what, e = TypeError what key.
Proof. destruct v; cbn; intros [= <-]; eauto. Qed.

(** What the estimator throws is a [TypeError]. *)
Lemma estimate_throws_TypeError res e :
  estimate res = Throw e -> exists what key, e = TypeError what key.
Proof.
  unfold estimate. destruct (headers_of res) as [headers|e'] eqn:Hh.
  - rewrite (timeToNextRequest_headers res headers _ Hh).
    destruct (get_property headers "x-rate-limit-remaining") as [x|e1] eqn:H1.
    + destruct headers; try discriminate; cbn; unfold estimate_from;
        destruct (Num.gt _ _); discriminate.
    + cbn. intros [= <-]. apply get_property_throws in H1 as [what ->]. eauto.
  - rewrite (timeToNextRequest_no_headers res e' _ Hh). cbn. intros [= <-].
    unfold headers_of in Hh.
    destruct (get_property res "headers") as [h|e1] eqn:H1.
    + destruct (ToBoolean h); [discriminate|].
      destruct (get_property res "response") as [r|e2] eqn:H2.
      * apply get_property_throws in Hh as [what ->]. eauto.
      * injection Hh as <-. apply get_property_throws in H2 as [what ->]. eauto.
    + injection Hh as <-. apply get_property_throws in H1 as [what ->]. eauto.
Qed.

(** On a [TypeError] the estimator throws again: the error has neither
    [headers] nor [response]. *)
Lemma estimate_TypeError what key :
  estimate (TypeError what key) = Throw (TypeError "undefined" "headers").
Proof. reflexivity. Qed.

(** C2 (the code departs from it).  The claim: for an input with neither
    headers nor an embedded response the estimator returns a delay of 0 and
    does not throw.  The code on such an input, an object whose [headers] is
    missing (or falsy otherwise) and whose [response] is missing or
    [undefined], like the error of a reset connection: [res.headers] is
    falsy, so [res.response.headers] is evaluated, [res.response] is
    [undefined], and the read throws a [TypeError]; nothing is returned and
    nothing is logged. *)
Theorem timeToNextRequest_throws_without_response (props : gmap string value) w :
  ToBoolean (default VUndefined (props !! "headers")) = false ->
  default VUndefined (props !! "response") = VUndefined ->
  timeToNextRequest (VObj props) w = (Throw (TypeError "undefined" "headers"), w).
Proof.
  intros Hh Hr. apply timeToNextRequest_no_headers.
  unfold headers_of. cbn. rewrite Hh, Hr. reflexivity.
Qed.

(** X4.  Headers that lack the two rate-limit headers do not make the
    estimator throw, and do not give 0 either: the delay is [NaN]. *)
Theorem timeToNextRequest_missing_headers res (hs : gmap string value) w :
  headers_of res = Normal (VObj hs) ->
  hs !! "x-rate-limit-remaining" = None ->
  hs !! "x-rate-limit-reset" = None ->
  fst (timeToNextRequest res w) = Normal NaN.
Proof.
  intros Hh Hrem Hreset.
  destruct (timeToNextRequest_frame res w) as [-> _].
  rewrite (estimate_headers res hs Hh), Hrem, Hreset. reflexivity.
Qed.

(** C3.  For a response or error whose headers are
    [{date: D, x-rate-limit-remaining: remaining, x-rate-limit-reset: R}]
    with [remaining <= 100 + 10], where [R] reads as the integer [r] and
    [D] parses to [d] milliseconds, the estimator returns exactly
    [r * 1000 - d + 1000], for every reading whose product, difference and
    sum stay within [2^53] in magnitude (where the doubles of the code
    compute without rounding). *)
Theorem timeToNextRequest_scarce res (hs : gmap string value) D remaining R n r d w :
  headers_of res = Normal (VObj hs) ->
  hs !! "date" = Some D ->
  hs !! "x-rate-limit-remaining" = Some remaining ->
  hs !! "x-rate-limit-reset" = Some R ->
  ToNumber remaining = Fin n ->
  (n <= Z.of_nat REQUEST_CONCURRENCY_LIMIT + 10)%Z ->
  ToNumber R = Fin r ->
  Date_parse D = Fin d ->
  safe_reading r d ->
  fst (timeToNextRequest res w) = Normal (Fin (r * 1000 - d + 1000)).
Proof.
  intros Hh HD Hrem HR Hn Hle Hr Hd _.
  destruct (timeToNextRequest_frame res w) as [-> _].
  rewrite (estimate_scarce res hs D remaining R n) by assumption.
  rewrite Hr, Hd. reflexivity.
Qed.

(** C4.  For a response or error whose [x-rate-limit-remaining] header is
    greater than [100 + 10], the estimator returns 0. *)
Theorem timeToNextRequest_ample res (hs : gmap string value) remaining n w :
  headers_of res = Normal (VObj hs) ->
  hs !! "x-rate-limit-remaining" = Some remaining ->
  ToNumber remaining = Fin n ->
  (Z.of_nat REQUEST_CONCURRENCY_LIMIT + 10 < n)%Z ->
  fst (timeToNextRequest res w) = Normal (Fin 0).
Proof.
  intros Hh Hrem Hn Hgt.
  destruct (timeToNextRequest_frame res w) as [-> _].
  eapply estimate_ample; eauto.
Qed.

(** C10.  Two inputs, each a response or an error wrapping one, whose
    headers agree on [date], [x-rate-limit-remaining] and
    [x-rate-limit-reset] make the estimator return the same delay (and
    log the same): no other header or field of the input is read. *)
Theorem timeToNextRequest_reads_three_headers res1 res2 h1 h2 w :
  headers_of res1 = Normal h1 ->
  headers_of res2 = Normal h2 ->
  get_property h1 "date" = get_property h2 "date" ->
  get_property h1 "x-rate-limit-remaining" = get_property h2 "x-rate-limit-remaining" ->
  get_property h1 "x-rate-limit-reset" = get_property h2 "x-rate-limit-reset" ->
  timeToNextRequest res1 w = timeToNextRequest res2 w.
Proof.
  intros H1 H2 Hd Hrem Hreset.
  rewrite (timeToNextRequest_headers res1 h1 w H1),
          (timeToNextRequest_headers res2 h2 w H2).
  rewrite Hd, Hrem, Hreset. reflexivity.
Qed.

End Estimator.

(** The error of a reset connection. *)
Lemma timeToNextRequest_throws_without_response_witness :
  timeToNextRequest (rt := Reference.engine) Fixture.ECONNRESET RequestScheduler_new
  = (Throw (TypeError "undefined" "headers"), RequestScheduler_new).
Proof.
  apply (timeToNextRequest_throws_without_response (rt := Reference.engine)
           (Fixture.RequestError "Error: read ECONNRESET")
           RequestScheduler_new ltac:(by_running) ltac:(by_running)).
Defined.

(** The scenario of the design document: five requests left, a reset two
    seconds after the date, a delay of 3000 milliseconds. *)
Lemma timeToNextRequest_scarce_witness :
  fst (timeToNextRequest (rt := Reference.engine)
         (Fixture.response Fixture.scarce Fixture.user) RequestScheduler_new)
  = Normal (Fin 3000).
Proof.
  apply (timeToNextRequest_scarce (rt := Reference.engine)
           (Fixture.response Fixture.scarce Fixture.user) Fixture.scarce
           (VStr "2024-01-01T00:00:00Z") (VStr "5") (VStr "1704067202") 5
           1704067202%Z 1704067200000%Z RequestScheduler_new
           eq_refl eq_refl eq_refl eq_refl eq_refl
           ltac:(unfold REQUEST_CONCURRENCY_LIMIT; lia) eq_refl eq_refl
           ltac:(unfold safe_reading, safe_integer; lia)).
Defined.

(** A response that carries a date and no rate-limit header. *)
Lemma timeToNextRequest_missing_headers_witness :
  fst (timeToNextRequest (rt := Reference.engine)
         (Fixture.response {[ "date" := VStr "Mon, 01 Jan 2024 00:00:00 GMT" ]}
                           Fixture.user)
         RequestScheduler_new)
  = Normal NaN.
Proof.
  apply (timeToNextRequest_missing_headers (rt := Reference.engine)
           (Fixture.response {[ "date" := VStr "Mon, 01 Jan 2024 00:00:00 GMT" ]}
                             Fixture.user)
           {[ "date" := VStr "Mon, 01 Jan 2024 00:00:00 GMT" ]} RequestScheduler_new
           ltac:(by_running) ltac:(by_running) ltac:(by_running)).
Defined.

Lemma timeToNextRequest_ample_witness :
  fst (timeToNextRequest (rt := Reference.engine)
         (Fixture.StatusCodeError 404 Fixture.ample VNull) RequestScheduler_new)
  = Normal (Fin 0).
Proof.
  apply (timeToNextRequest_ample (rt := Reference.engine)
           (Fixture.StatusCodeError 404 Fixture.ample VNull) Fixture.ample
           (VStr "600") 600 RequestScheduler_new
           eq_refl eq_refl eq_refl ltac:(unfold REQUEST_CONCURRENCY_LIMIT; lia)).
Defined.

(** A response and an error that carry the same reading. *)
Lemma timeToNextRequest_reads_three_headers_witness :
  Fixture.response Fixture.scarce Fixture.user
    <> Fixture.StatusCodeError 429 Fixture.scarce_too VNull /\
  timeToNextRequest (rt := Reference.engine)
    (Fixture.response Fixture.scarce Fixture.user) RequestScheduler_new
  = timeToNextRequest (rt := Reference.engine)
      (Fixture.StatusCodeError 429 Fixture.scarce_too VNull) RequestScheduler_new.
Proof.
  split.
  - intros Heq. apply (f_equal (fun v => get_property v "body")) in Heq.
    vm_compute in Heq. discriminate.
  - apply (timeToNextRequest_reads_three_headers (rt := Reference.engine)
             (Fixture.response Fixture.scarce Fixture.user)
             (Fixture.StatusCodeError 429 Fixture.scarce_too VNull)
             (VObj Fixture.scarce) (VObj Fixture.scarce_too) RequestScheduler_new
             eq_refl eq_refl eq_refl eq_refl eq_refl).
Defined.

(** * The scheduler *)

Section Settling.
Context `{rt : Runtime}.

Lemma catch_block_spec id r err w :
  let p := (logger_log silly (Finished id FAILURE);;
            t ← timeToNextRequest err;
            setTimeout_release r t;;
            throw err) w in
  fst p = snd (on_failure r err) /\
  timers (snd p) = timers w ++ fst (on_failure r err) /\
  requestId (snd p) = requestId w /\
  pool (snd p) = pool w /\
  calls (snd p) = calls w /\
  transport (snd p) = transport w.
Proof.
  intros p. remember p as q eqn:Hq. unfold p in Hq. clear p.
  unfold on_failure.
  unfold mbind, sched_bind, throw, logger_log, setTimeout_release in Hq.
  match type of Hq with context [timeToNextRequest err ?w1] =>
    destruct (timeToNextRequest_frame err w1) as (He & H1 & H2 & H3 & H4 & H5);
    destruct (timeToNextRequest err w1) as [[t|e] w2] end;
  cbn in He, H1, H2, H3, H4, H5; rewrite <- He; subst q; cbn;
  rewrite ?app_nil_r, ?H1, ?H2, ?H3, ?H4, ?H5; unfold armed; auto 10.
Qed.

(** What the last part of [schedule] does to the state. *)
Lemma schedule_settled_spec id r outcome w :
  let p := schedule_settled id r outcome w in
  fst p = snd (on_settled r outcome) /\
  timers (snd p) = timers w ++ fst (on_settled r outcome) /\
  requestId (snd p) = requestId w /\
  pool (snd p) = pool w /\
  calls (snd p) = calls w /\
  transport (snd p) = transport w.
Proof.
  intros p. remember p as q eqn:Hq. unfold p in Hq. clear p.
  unfold schedule_settled, try_catch in Hq. unfold on_settled.
  destruct outcome as [res|err].
  - unfold mbind at 1, sched_bind at 1, lift at 1 in Hq.
    unfold mbind at 1, sched_bind at 1, logger_log at 1 in Hq.
    unfold mbind at 1, sched_bind at 1 in Hq.
    match type of Hq with context [timeToNextRequest res ?w1] =>
      destruct (timeToNextRequest_frame res w1) as (He & H1 & H2 & H3 & H4 & H5);
      destruct (timeToNextRequest res w1) as [[t|e] w2] end;
    cbn in He, H1, H2, H3, H4, H5; rewrite <- He.
    + destruct (estimate_normal_body res t (eq_sym He)) as [body Hbody].
      unfold mbind, sched_bind, setTimeout_release, lift in Hq.
      rewrite Hbody in Hq |- *. subst q. cbn.
      rewrite ?H1, ?H2, ?H3, ?H4, ?H5. unfold armed. auto 10.
    + destruct (catch_block_spec id r e w2) as (G0 & G1 & G2 & G3 & G4 & G5).
      cbn zeta in *. subst q.
      rewrite G0, G1, G2, G3, G4, G5, H1, H2, H3, H4, H5. auto 10.
  - unfold mbind at 1, sched_bind at 1, lift at 1 in Hq. subst q.
    destruct (catch_block_spec id r err w) as (G0 & G1 & G2 & G3 & G4 & G5).
    auto 10.
Qed.

Lemma on_settled_resources r outcome :
  resource <$> fst (on_settled r outcome) = [r] \/ fst (on_settled r outcome) = [].
Proof.
  unfold on_settled, on_failure.
  destruct outcome as [res|err].
  - destruct (estimate res) as [t|e]; [left; reflexivity|].
    destruct (estimate e); [left|right]; reflexivity.
  - destruct (estimate err); [left|right]; reflexivity.
Qed.

Lemma on_settled_readable r outcome t :
  estimate (outcome_value outcome) = Normal t ->
  fst (on_settled r outcome) = [armed r t].
Proof.
  intros He. destruct outcome as [res|err]; cbn in He;
    unfold on_settled, on_failure; rewrite He; reflexivity.
Qed.

End Settling.

Section Steps.
Context `{rt : Runtime}.

Lemma stringify_arguments_Plain args :
  stringify_arguments (Plain <$> args) = Normal args.
Proof. induction args as [|v args IH]; cbn; [|rewrite IH]; reflexivity. Qed.

Lemma stringify_arguments_Normal given args :
  stringify_arguments given = Normal args -> given = Plain <$> args.
Proof.
  revert args. induction given as [|[v|e] given IH]; intros args; cbn.
  - intros [= <-]. reflexivity.
  - destruct (stringify_arguments given) as [vs|e]; [|discriminate].
    intros [= <-]. cbn. rewrite (IH vs eq_refl). reflexivity.
  - discriminate.
Qed.

Lemma invoke_printed m given args w :
  stringify_arguments given = Normal args ->
  RequestScheduler.invoke m given w
  = schedule (match m with
              | GET => "GET" | PUT => "PUT"
              | POST => "POST" | DELETE => "DELETE"
              end, args) {| method := m; arguments := args |} w.
Proof.
  intros Hs.
  destruct m; cbn [RequestScheduler.invoke];
    unfold RequestScheduler.get, RequestScheduler.put, RequestScheduler.post,
      RequestScheduler.delete, mbind, sched_bind, lift; rewrite Hs; reflexivity.
Qed.

Lemma invoke_throws m given e w :
  stringify_arguments given = Throw e ->
  RequestScheduler.invoke m given w = (Throw e, w).
Proof.
  intros Hs.
  destruct m; cbn [RequestScheduler.invoke];
    unfold RequestScheduler.get, RequestScheduler.put, RequestScheduler.post,
      RequestScheduler.delete, mbind, sched_bind, lift; rewrite Hs; reflexivity.
Qed.

Lemma step_Invoke w m args :
  step w (Invoke m args) =
    Some {| requestId := requestId w + 1;
            pool := pool w;
            calls := calls w ++ [{| call_id := requestId w;
                                    call_fn := {| method := m; arguments := args |};
                                    call_phase := AwaitingSlot |}];
            transport := transport w;
            timers := timers w;
            logger := logger w ++
              [(silly, Scheduling (requestId w)
                         (match m with
                          | GET => "GET" | PUT => "PUT"
                          | POST => "POST" | DELETE => "DELETE"
                          end, args))] |}.
Proof.
  cbn [step]. rewrite (invoke_printed m _ args w (stringify_arguments_Plain args)).
  destruct m; reflexivity.
Qed.

Lemma step_Acquired w c w' :
  step w (Acquired c) = Some w' ->
  exists id fn,
    calls w !! c = Some {| call_id := id; call_fn := fn; call_phase := AwaitingSlot |} /\
    Pool.has_free_slot (pool w) = true /\
    requestId w' = requestId w /\
    pool w' = Pool.acquire c (pool w) /\
    calls w' = <[c := {| call_id := id; call_fn := fn;
                         call_phase := AwaitingTransport c |}]> (calls w) /\
    transport w' = transport w ++ [fn] /\
    timers w' = timers w.
Proof.
  unfold step. intros H.
  destruct (calls w !! c) as [[id fn []]|] eqn:Hc; try discriminate.
  destruct (Pool.has_free_slot (pool w)) eqn:Hfree; [|discriminate].
  injection H as <-. exists id, fn. cbn. auto 10.
Qed.

Lemma step_Settled w c outcome w' :
  step w (Settled c outcome) = Some w' ->
  exists id fn r,
    calls w !! c = Some {| call_id := id; call_fn := fn;
                           call_phase := AwaitingTransport r |} /\
    requestId w' = requestId w /\
    pool w' = pool w /\
    calls w' = <[c := {| call_id := id; call_fn := fn;
                         call_phase := Completed (snd (on_settled r outcome)) |}]>
                 (calls w) /\
    transport w' = transport w /\
    timers w' = timers w ++ fst (on_settled r outcome).
Proof.
  unfold step. intros H.
  destruct (calls w !! c) as [[id fn [|r|]]|] eqn:Hc; try discriminate.
  destruct (schedule_settled_spec id r outcome w) as (H0 & H1 & H2 & H3 & H4 & H5).
  destruct (schedule_settled id r outcome w) as [result w1].
  injection H as <-. cbn in *. subst result. exists id, fn, r.
  rewrite H1, H2, H3, H4, H5. auto 10.
Qed.

Lemma step_TimerFired w t w' :
  step w (TimerFired t) = Some w' ->
  exists r d,
    timers w !! t = Some (armed r d) /\
    requestId w' = requestId w /\
    pool w' = Pool.release r (pool w) /\
    calls w' = calls w /\
    transport w' = transport w /\
    timers w' = <[t := {| resource := r; delay := d; fired := true |}]> (timers w).
Proof.
  unfold step. intros H.
  destruct (timers w !! t) as [[r d []]|] eqn:Ht; try discriminate.
  injection H as <-. exists r, d. cbn. auto 10.
Qed.

Lemma step_Settled_result w c outcome w' :
  step w (Settled c outcome) = Some w' ->
  exists r,
    (exists id fn, calls w !! c = Some {| call_id := id; call_fn := fn;
                                          call_phase := AwaitingTransport r |}) /\
    result_of c w' = Some (snd (on_settled r outcome)) /\
    timers w' = timers w ++ fst (on_settled r outcome).
Proof.
  intros Hs. apply step_Settled in Hs as (id & fn & r & Hc & _ & _ & Hcalls & _ & Ht).
  exists r. split; [eauto|]. split; [|exact Ht].
  unfold result_of.
  rewrite Hcalls, list_lookup_insert_eq by (eapply lookup_lt_Some; eauto).
  reflexivity.
Qed.

Lemma run_app w es1 es2 :
  run w (es1 ++ es2) = w' ← run w es1; run w' es2.
Proof.
  revert w. induction es1 as [|e es1 IH]; intros w; cbn; [reflexivity|].
  destruct (step w e); cbn; auto.
Qed.

Lemma run_snoc w es e w' :
  run w (es ++ [e]) = Some w' <->
  exists w1, run w es = Some w1 /\ step w1 e = Some w'.
Proof.
  rewrite run_app. destruct (run w es) as [w1|]; cbn.
  - destruct (step w1 e) eqn:Hs; cbn; split.
    + intros [= <-]. eauto.
    + intros (w2 & [= <-] & Hs'). congruence.
    + discriminate.
    + intros (w2 & [= <-] & Hs'). congruence.
  - split; [discriminate|]. intros (w1 & H & _). discriminate.
Qed.

(** What every step preserves holds after every interleaving. *)
Lemma run_invariant (P : world -> Prop) :
  (forall w e w', P w -> step w e = Some w' -> P w') ->
  forall es w w', P w -> run w es = Some w' -> P w'.
Proof.
  intros Hstep. induction es as [|e es IH]; intros w w' HP Hrun; cbn in Hrun.
  - injection Hrun as <-. exact HP.
  - destruct (step w e) as [w1|] eqn:Hs; [|discriminate]. cbn in Hrun. eauto.
Qed.

Lemma fmap_insert_same {A B : Type} (f : A -> B) (l : list A) i x y :
  l !! i = Some x -> f y = f x -> f <$> <[i := y]> l = f <$> l.
Proof.
  intros Hl Hf. rewrite list_fmap_insert, Hf.
  apply list_insert_id. rewrite list_lookup_fmap, Hl. reflexivity.
Qed.

(** A step that is not an invocation keeps the counter, and the ids and
    the requests of the invocations. *)
Lemma step_keeps_calls w e w' :
  step w e = Some w' ->
  is_Invoke e = false ->
  requestId w' = requestId w /\
  call_id <$> calls w' = call_id <$> calls w /\
  call_fn <$> calls w' = call_fn <$> calls w.
Proof.
  intros Hs He. destruct e as [m args|c|c outcome|t]; [discriminate| | |].
  - apply step_Acquired in Hs as (id & fn & Hc & _ & Hid & _ & Hcalls & _).
    rewrite Hid, Hcalls.
    rewrite !(fmap_insert_same _ _ _ _ _ Hc) by reflexivity. auto.
  - apply step_Settled in Hs as (id & fn & r & Hc & Hid & _ & Hcalls & _).
    rewrite Hid, Hcalls.
    rewrite !(fmap_insert_same _ _ _ _ _ Hc) by reflexivity. auto.
  - apply step_TimerFired in Hs as (r & d & _ & Hid & _ & Hcalls & _).
    rewrite Hid, Hcalls. auto.
Qed.

Lemma step_keeps_call w e w' c call :
  step w e = Some w' ->
  calls w !! c = Some call ->
  exists call', calls w' !! c = Some call' /\
                call_id call' = call_id call /\ call_fn call' = call_fn call.
Proof.
  intros Hs Hc. destruct (is_Invoke e) eqn:He.
  - destruct e as [m args| | |]; try discriminate.
    rewrite step_Invoke in Hs. injection Hs as <-. cbn.
    exists call. rewrite lookup_app_l by (eapply lookup_lt_Some; eauto). auto.
  - destruct (step_keeps_calls w e w' Hs He) as (_ & Hids & Hfns).
    assert (Hi : (call_id <$> calls w') !! c = Some (call_id call))
      by (rewrite Hids, list_lookup_fmap, Hc; reflexivity).
    assert (Hf : (call_fn <$> calls w') !! c = Some (call_fn call))
      by (rewrite Hfns, list_lookup_fmap, Hc; reflexivity).
    rewrite list_lookup_fmap in Hi. rewrite list_lookup_fmap in Hf.
    destruct (calls w' !! c) as [call'|]; [|discriminate].
    injection Hi as Hi. injection Hf as Hf. eauto.
Qed.

Lemma run_keeps_call es w w' c call :
  run w es = Some w' ->
  calls w !! c = Some call ->
  exists call', calls w' !! c = Some call' /\
                call_id call' = call_id call /\ call_fn call' = call_fn call.
Proof.
  revert w call. induction es as [|e es IH]; intros w call Hrun Hc; cbn in Hrun.
  - injection Hrun as <-. eauto.
  - destruct (step w e) as [w1|] eqn:Hs; [|discriminate]. cbn in Hrun.
    destruct (step_keeps_call w e w1 c call Hs Hc) as (call1 & Hc1 & Hi1 & Hf1).
    destruct (IH w1 call1 Hrun Hc1) as (call' & Hc' & Hi' & Hf').
    exists call'. rewrite Hi', Hf'. auto.
Qed.

(** A settled promise stays settled, to the same result. *)
Lemma result_of_final w e w' c res :
  step w e = Some w' -> result_of c w = Some res -> result_of c w' = Some res.
Proof.
  intros Hs Hres. unfold result_of in Hres.
  destruct (calls w !! c) as [[id fn ph]|] eqn:Hc; [|discriminate].
  destruct ph as [| |res']; try discriminate. injection Hres as ->.
  destruct (step_keeps_call w e w' c _ Hs Hc) as (call' & Hc' & _ & _).
  destruct e as [m args|c'|c' outcome|t].
  - rewrite step_Invoke in Hs. injection Hs as <-. unfold result_of. cbn.
    rewrite lookup_app_l by (eapply lookup_lt_Some; eauto). rewrite Hc. reflexivity.
  - apply step_Acquired in Hs as (id' & fn' & Hc1 & _ & _ & _ & Hcalls & _).
    assert (c <> c') by (intros ->; congruence).
    unfold result_of. rewrite Hcalls, list_lookup_insert_ne, Hc by congruence.
    reflexivity.
  - apply step_Settled in Hs as (id' & fn' & r & Hc1 & _ & _ & Hcalls & _).
    assert (c <> c') by (intros ->; congruence).
    unfold result_of. rewrite Hcalls, list_lookup_insert_ne, Hc by congruence.
    reflexivity.
  - apply step_TimerFired in Hs as (r & d & _ & _ & _ & Hcalls & _).
    unfold result_of. rewrite Hcalls, Hc. reflexivity.
Qed.

Lemma run_result_final es w w' c res :
  run w es = Some w' -> result_of c w = Some res -> result_of c w' = Some res.
Proof.
  intros Hrun Hres.
  apply (run_invariant (fun w => result_of c w = Some res))
    with (es := es) (w := w) (w' := w'); auto.
  intros w1 e w2 H1 Hs. eapply result_of_final; eauto.
Qed.

End Steps.

(** * Call ids, arguments and results *)

Section Calls.
Context `{rt : Runtime}.

(** C6.  After any interleaving of invocations, acquisitions, settled
    requests and timers, the ids one scheduler issued are 0, 1, 2, ... in
    the order of the invocations, one for each, and the counter is their
    number; the next invocation takes the counter as its id and adds one
    to it, in the step that invokes the verb. *)
Theorem call_ids_count_up es w :
  run RequestScheduler_new es = Some w ->
  issued_ids w = Z.of_nat <$> seq 0 (invocations es) /\
  requestId w = Z.of_nat (invocations es) /\
  forall m args, exists w',
    step w (Invoke m args) = Some w' /\
    issued_ids w' = issued_ids w ++ [requestId w] /\
    requestId w' = (requestId w + 1)%Z.
Proof.
  intros Hrun.
  assert (Hinv : issued_ids w = Z.of_nat <$> seq 0 (invocations es) /\
                 requestId w = Z.of_nat (invocations es)).
  { revert w Hrun. induction es as [|e es IH] using rev_ind; intros w Hrun.
    - injection Hrun as <-. split; reflexivity.
    - apply run_snoc in Hrun as (w1 & Hrun & Hs).
      destruct (IH w1 Hrun) as [Hids Hctr].
      unfold invocations in *. rewrite filter_app, length_app.
      destruct (is_Invoke e) eqn:He.
      + destruct e as [m args| | |]; try discriminate.
        rewrite step_Invoke in Hs. injection Hs as <-.
        unfold issued_ids in *. cbn.
        rewrite fmap_app, Hids, Hctr. cbn.
        rewrite Nat.add_1_r, seq_S, fmap_app. cbn. split; [reflexivity|lia].
      + destruct (step_keeps_calls w1 e w Hs He) as (Hid & Hcalls & _).
        unfold issued_ids in *. rewrite Hcalls, Hid, Hids, Hctr.
        rewrite filter_cons_False by (rewrite He; discriminate).
        cbn. rewrite Nat.add_0_r. auto. }
  destruct Hinv as [Hids Hctr]. split; [exact Hids|]. split; [exact Hctr|].
  intros m args. eexists. split; [apply step_Invoke|].
  unfold issued_ids. cbn. rewrite fmap_app. auto.
Qed.

(** C9, as the code has it.  A verb first prints its arguments with
    [JSON.stringify].  When that succeeds the verb does not call the
    transport itself and, whatever happens in between, when its invocation
    gets a slot the transport method of the same verb is called with the
    arguments as they were given.  When [JSON.stringify] throws, the verb
    throws that error to its caller before [schedule] is reached: no id is
    issued, nothing is logged and the transport is never called for it. *)
Theorem verb_arguments_pass_through w m given :
  (forall args w1 es w2 w3,
     stringify_arguments given = Normal args ->
     snd (RequestScheduler.invoke m given w) = w1 ->
     run w1 es = Some w2 ->
     step w2 (Acquired (length (calls w))) = Some w3 ->
     given = Plain <$> args /\
     fst (RequestScheduler.invoke m given w) = Normal (length (calls w)) /\
     transport w1 = transport w /\
     transport w3 = transport w2 ++ [{| method := m; arguments := args |}]) /\
  (forall e,
     stringify_arguments given = Throw e ->
     RequestScheduler.invoke m given w = (Throw e, w)).
Proof.
  split; [|intros e He; apply invoke_throws, He].
  intros args w1 es w2 w3 Hprinted Hinv Hrun Hacq.
  pose proof (stringify_arguments_Normal given args Hprinted) as Hgiven.
  split; [exact Hgiven|].
  rewrite (invoke_printed m given args w Hprinted) in Hinv |- *.
  assert (Hstep : step w (Invoke m args) = Some w1).
  { cbn [step]. rewrite <- Hgiven, (invoke_printed m given args w Hprinted), Hinv.
    reflexivity. }
  split; [reflexivity|].
  rewrite step_Invoke in Hstep. injection Hstep as <-. cbn in Hrun |- *.
  split; [reflexivity|].
  eapply run_keeps_call in Hrun as (call' & Hc' & _ & Hfn);
    [|cbn; apply list_lookup_middle; reflexivity].
  apply step_Acquired in Hacq as (id & fn & Hc & _ & _ & _ & _ & Htr & _).
  rewrite Hc in Hc'. injection Hc' as <-. cbn in Hfn. rewrite Htr, Hfn. reflexivity.
Qed.

(** C8, as the code has it.  When the request of an invocation resolves
    to a value the estimator can read headers of, the promise of the
    invocation resolves to the [body] of that value; this is so for every
    full response (an object whose [headers] is an object, which is what
    the transport resolves to under the [resolveWithFullResponse: true] of
    the constructor).  The options of a call can make the transport resolve
    to something else; when the estimator cannot read headers of it, the
    invocation rejects with a [TypeError] although its request
    succeeded. *)
Theorem resolved_call_returns_body w c res w' :
  step w (Settled c (Normal res)) = Some w' ->
  (forall t, estimate res = Normal t ->
     exists body, get_property res "body" = Normal body /\
                  result_of c w' = Some (Normal body)) /\
  (full_response res ->
     exists body, get_property res "body" = Normal body /\
                  result_of c w' = Some (Normal body)) /\
  (forall e, estimate res = Throw e ->
     result_of c w' = Some (Throw (TypeError "undefined" "headers"))).
Proof.
  intros Hs. apply step_Settled_result in Hs as (r & _ & Hres & _).
  assert (Hreturns : forall t, estimate res = Normal t ->
            exists body, get_property res "body" = Normal body /\
                         result_of c w' = Some (Normal body)).
  { intros t Ht. destruct (estimate_normal_body res t Ht) as [body Hbody].
    exists body. split; [exact Hbody|].
    rewrite Hres. unfold on_settled. rewrite Ht, Hbody. reflexivity. }
  split; [exact Hreturns|]. split.
  - intros Hfull. destruct (estimate_full_response res Hfull) as [t Ht].
    apply (Hreturns t Ht).
  - intros e He. destruct (estimate_throws_TypeError res e He) as (what & key & ->).
    rewrite Hres. unfold on_settled, on_failure.
    rewrite He, estimate_TypeError. reflexivity.
Qed.

(** An error the estimator can read is thrown to the caller as it is. *)
Lemma rejected_call_rethrows_when_readable w c err t w' :
  step w (Settled c (Throw err)) = Some w' ->
  estimate err = Normal t ->
  result_of c w' = Some (Throw err).
Proof.
  intros Hs He. apply step_Settled_result in Hs as (r & _ & Hres & _).
  rewrite Hres. unfold on_settled, on_failure. rewrite He. reflexivity.
Qed.

(** C7 (the code departs from it).  The claim: a failed request makes the
    scheduler throw the error of the transport, unchanged.  The code on
    the error of a reset connection: the [catch] block calls the estimator
    on the error before [throw err], the estimator throws a [TypeError],
    and that is what the promise of the invocation rejects with. *)
Theorem connection_reset_replaces_error w c w' :
  step w (Settled c (Throw Fixture.ECONNRESET)) = Some w' ->
  result_of c w' = Some (Throw (TypeError "undefined" "headers")) /\
  TypeError "undefined" "headers" <> Fixture.ECONNRESET.
Proof.
  intros Hs. apply step_Settled_result in Hs as (r & _ & Hres & _).
  split; [exact Hres|].
  intros Heq. apply (f_equal (fun v => get_property v "message")) in Heq.
  vm_compute in Heq. discriminate.
Qed.

End Calls.

(** Three invocations, the first of which gets its slot in between. *)
Lemma call_ids_count_up_witness :
  issued_ids (Fixture.after [Invoke GET Fixture.users; Invoke POST Fixture.groups;
                             Acquired 0; Invoke DELETE Fixture.users])
  = [0; 1; 2]%Z.
Proof.
  apply (proj1 (call_ids_count_up (rt := Reference.engine)
                  [Invoke GET Fixture.users; Invoke POST Fixture.groups;
                   Acquired 0; Invoke DELETE Fixture.users]
                  (Fixture.after [Invoke GET Fixture.users; Invoke POST Fixture.groups;
                                  Acquired 0; Invoke DELETE Fixture.users])
                  ltac:(by_running))).
Defined.

(** A [put] whose slot comes after another invocation started and ran. *)
Lemma verb_arguments_pass_through_witness :
  [Plain (VStr "/api/v1/groups")] = Plain <$> Fixture.groups /\
  fst (RequestScheduler.invoke PUT [Plain (VStr "/api/v1/groups")] RequestScheduler_new)
  = Normal (length (calls RequestScheduler_new)) /\
  transport (Fixture.after [Invoke PUT Fixture.groups])
  = transport RequestScheduler_new /\
  transport (Fixture.after [Invoke PUT Fixture.groups; Invoke GET Fixture.users;
                            Acquired 1; Acquired 0])
  = transport (Fixture.after [Invoke PUT Fixture.groups; Invoke GET Fixture.users;
                              Acquired 1])
    ++ [{| method := PUT; arguments := Fixture.groups |}].
Proof.
  apply (proj1 (verb_arguments_pass_through (rt := Reference.engine)
                  RequestScheduler_new PUT [Plain (VStr "/api/v1/groups")])
               Fixture.groups
               (Fixture.after [Invoke PUT Fixture.groups])
               [Invoke GET Fixture.users; Acquired 1]
               (Fixture.after [Invoke PUT Fixture.groups; Invoke GET Fixture.users;
                               Acquired 1])
               (Fixture.after [Invoke PUT Fixture.groups; Invoke GET Fixture.users;
                               Acquired 1; Acquired 0])
               eq_refl ltac:(by_running) ltac:(by_running) ltac:(by_running)).
Defined.

(** C9, as claimed, fails: a [post] whose options hold a [BigInt] throws
    the [TypeError] of [JSON.stringify] to its caller; the scheduler is as
    it was, so the transport is not called with these arguments, now or
    later. *)
Lemma unprintable_argument_throws_before_transport :
  RequestScheduler.invoke POST
    [Plain (VStr "/api/v1/users"); Unprintable Sample.cannot_serialize]
    RequestScheduler_new
  = (Throw Sample.cannot_serialize, RequestScheduler_new) /\
  transport RequestScheduler_new = [].
Proof. split; reflexivity. Qed.

Lemma resolved_call_returns_body_witness :
  exists body,
    get_property (Fixture.response Fixture.scarce Fixture.user) "body" = Normal body /\
    result_of 0 (Fixture.after
                   (Fixture.get_users_executing ++
                    [Settled 0 (Normal (Fixture.response Fixture.scarce Fixture.user))]))
    = Some (Normal body).
Proof.
  apply (proj1 (proj2 (resolved_call_returns_body (rt := Reference.engine)
           (Fixture.after Fixture.get_users_executing) 0
           (Fixture.response Fixture.scarce Fixture.user)
           (Fixture.after
              (Fixture.get_users_executing ++
               [Settled 0 (Normal (Fixture.response Fixture.scarce Fixture.user))]))
           ltac:(by_running)))).
  eexists. exists Fixture.scarce. split; reflexivity.
Defined.

(** C8, as claimed, fails: [get] is called with [resolveWithFullResponse:
    false] among its options, the transport resolves to the parsed body
    alone, the estimator finds neither [headers] nor [response] on it, and
    the invocation rejects with a [TypeError] although its request
    succeeded. *)
Lemma body_only_response_rejects :
  run (rt := Reference.engine) RequestScheduler_new
      [Invoke GET Sample.body_only; Acquired 0; Settled 0 (Normal Fixture.user)]
  = Some (Fixture.after
            [Invoke GET Sample.body_only; Acquired 0; Settled 0 (Normal Fixture.user)]) /\
  get_property Fixture.user "body" = Normal VUndefined /\
  result_of 0 (Fixture.after
                 [Invoke GET Sample.body_only; Acquired 0;
                  Settled 0 (Normal Fixture.user)])
  = Some (Throw (TypeError "undefined" "headers")).
Proof. repeat split; by_running. Qed.

Lemma connection_reset_replaces_error_witness :
  result_of 0 (Fixture.after
                 (Fixture.get_users_executing ++ [Settled 0 (Throw Fixture.ECONNRESET)]))
  = Some (Throw (TypeError "undefined" "headers")).
Proof.
  apply (proj1 (connection_reset_replaces_error (rt := Reference.engine)
                  (Fixture.after Fixture.get_users_executing) 0
                  (Fixture.after
                     (Fixture.get_users_executing ++
                      [Settled 0 (Throw Fixture.ECONNRESET)]))
                  ltac:(by_running))).
Defined.

(** * Slots and release timers *)

Section Discipline.
Context `{rt : Runtime}.

Lemma size_without (X : gset nat) (x : nat) : size (X ∖ {[x]}) <= size X.
Proof. apply subseteq_size. apply subseteq_difference_l. reflexivity. Qed.

Lemma armed_in w t r d :
  timers w !! t = Some (armed r d) -> r ∈ armed_for w.
Proof.
  intros Ht. unfold armed_for. apply list_elem_of_fmap. exists (armed r d).
  split; [reflexivity|]. eapply list_elem_of_lookup_2; eauto.
Qed.

Lemma release_discipline_new : release_discipline RequestScheduler_new.
Proof.
  split; [|repeat split].
  - intros c call r Hc. discriminate.
  - constructor.
  - intros c Hc. cbn in Hc. inversion Hc.
  - cbn. rewrite size_empty. lia.
Qed.

Lemma release_discipline_step w e w' :
  release_discipline w -> step w e = Some w' -> release_discipline w'.
Proof.
  intros (Hnamed & Hnodup & Hdone & Hsize) Hs.
  assert (Hkeep : forall c, c ∈ armed_for w -> is_Some (result_of c w')).
  { intros c Hc. destruct (Hdone c Hc) as [res Hres].
    exists res. eapply result_of_final; eauto. }
  destruct e as [m args|c|c outcome|t].
  - rewrite step_Invoke in Hs. injection Hs as <-.
    split; [|repeat split]; cbn; auto.
    intros c call r Hc Hph. apply lookup_app_Some in Hc as [Hc|[_ Hc]].
    + eauto.
    + apply list_lookup_singleton_Some in Hc as [_ <-]. discriminate.
  - apply step_Acquired in Hs
      as (id & fn & Hc & Hfree & _ & Hpool & Hcalls & _ & Htimers).
    split; [|repeat split].
    + intros c' call r Hc' Hph. rewrite Hcalls in Hc'. rewrite Hpool. cbn.
      destruct (decide (c = c')) as [<-|Hne].
      * rewrite list_lookup_insert_eq in Hc' by (eapply lookup_lt_Some; eauto).
        injection Hc' as <-. cbn in Hph. injection Hph as <-.
        split; [reflexivity|set_solver].
      * rewrite list_lookup_insert_ne in Hc' by exact Hne.
        destruct (Hnamed c' call r Hc' Hph). split; [assumption|set_solver].
    + unfold armed_for. rewrite Htimers. exact Hnodup.
    + intros c' Hc'. unfold armed_for in Hc'. rewrite Htimers in Hc'. auto.
    + rewrite Hpool. cbn. unfold Pool.has_free_slot in Hfree.
      apply bool_decide_eq_true in Hfree.
      pose proof (size_union_alt {[c]} (held (pool w))) as Hu.
      rewrite size_singleton in Hu.
      pose proof (size_without (held (pool w)) c). lia.
  - apply step_Settled in Hs as (id & fn & r & Hc & _ & Hpool & Hcalls & _ & Htimers).
    assert (r = c) as -> by (eapply Hnamed; eauto).
    assert (Hfresh : c ∉ armed_for w).
    { intros Hin. destruct (Hdone c Hin) as [res Hres].
      unfold result_of in Hres. rewrite Hc in Hres. discriminate. }
    split; [|repeat split].
    + intros c' call r Hc' Hph. rewrite Hcalls in Hc'. rewrite Hpool.
      destruct (decide (c = c')) as [<-|Hne].
      * rewrite list_lookup_insert_eq in Hc' by (eapply lookup_lt_Some; eauto).
        injection Hc' as <-. discriminate.
      * rewrite list_lookup_insert_ne in Hc' by exact Hne. eauto.
    + unfold armed_for in *. rewrite Htimers, fmap_app.
      destruct (on_settled_resources c outcome) as [-> | ->].
      * apply NoDup_app. split; [exact Hnodup|]. split; [|apply NoDup_singleton].
        intros x Hx Hx'. apply list_elem_of_singleton in Hx'. subst x. contradiction.
      * cbn. rewrite app_nil_r. exact Hnodup.
    + intros c' Hc'. unfold armed_for in Hc'. rewrite Htimers, fmap_app in Hc'.
      apply elem_of_app in Hc' as [Hc'|Hc']; [auto|].
      destruct (on_settled_resources c outcome) as [Hr | Hr]; rewrite Hr in Hc'.
      * apply list_elem_of_singleton in Hc'. subst c'.
        unfold result_of. rewrite Hcalls.
        rewrite list_lookup_insert_eq by (eapply lookup_lt_Some; eauto). eauto.
      * inversion Hc'.
    + rewrite Hpool. exact Hsize.
  - apply step_TimerFired in Hs as (r & d & Ht & _ & Hpool & Hcalls & _ & Htimers).
    assert (Harmed : armed_for w' = armed_for w).
    { unfold armed_for. rewrite Htimers.
      apply (fmap_insert_same resource _ _ _ _ Ht). reflexivity. }
    split; [|repeat split].
    + intros c' call r' Hc' Hph. rewrite Hcalls in Hc'. rewrite Hpool. cbn.
      destruct (Hnamed c' call r' Hc' Hph) as [-> Hheld]. split; [reflexivity|].
      apply elem_of_difference. split; [assumption|].
      intros Hr. apply elem_of_singleton in Hr. subst r.
      destruct (Hdone c' (armed_in w t c' d Ht)) as [x Hx]. unfold result_of in Hx.
      rewrite Hc' in Hx. destruct call as [? ? ph]. cbn in Hph. subst ph.
      discriminate.
    + rewrite Harmed. exact Hnodup.
    + intros c' Hc'. rewrite Harmed in Hc'. auto.
    + rewrite Hpool. cbn. pose proof (size_without (held (pool w)) r). lia.
Qed.

Lemma reachable_release_discipline w :
  reachable w -> release_discipline w.
Proof.
  intros [es Hrun].
  eapply (run_invariant release_discipline); eauto using release_discipline_step.
  apply release_discipline_new.
Qed.

Lemma leaked_step c w e w' :
  release_discipline w -> leaked c w -> step w e = Some w' -> leaked c w'.
Proof.
  intros (Hnamed & _ & Hdone & _) ([res Hres] & Hheld & Hnone) Hs.
  split; [exists res; eapply result_of_final; eauto|].
  destruct e as [m args|c'|c' outcome|t].
  - rewrite step_Invoke in Hs. injection Hs as <-. split; assumption.
  - apply step_Acquired in Hs as (id & fn & _ & _ & _ & Hpool & _ & _ & Htimers).
    unfold armed_for. rewrite Hpool, Htimers. cbn. split; [set_solver|assumption].
  - apply step_Settled in Hs as (id & fn & r & Hc & _ & Hpool & _ & _ & Htimers).
    assert (r = c') as -> by (eapply Hnamed; eauto).
    assert (c <> c').
    { intros ->. unfold result_of in Hres. rewrite Hc in Hres. discriminate. }
    unfold armed_for in *. rewrite Hpool, Htimers, fmap_app. split; [assumption|].
    intros Hin. apply elem_of_app in Hin as [Hin|Hin]; [contradiction|].
    destruct (on_settled_resources c' outcome) as [Hr|Hr]; rewrite Hr in Hin.
    + apply list_elem_of_singleton in Hin. contradiction.
    + inversion Hin.
  - apply step_TimerFired in Hs as (r & d & Ht & _ & Hpool & _ & _ & Htimers).
    assert (Harmed : resource <$> timers w' = armed_for w).
    { rewrite Htimers. apply (fmap_insert_same resource _ _ _ _ Ht). reflexivity. }
    pose proof (armed_in w t r d Ht).
    unfold armed_for at 1. rewrite Hpool, Harmed. cbn.
    split; [|assumption]. apply elem_of_difference. split; [assumption|].
    intros Hr. apply elem_of_singleton in Hr. congruence.
Qed.

(** A slot that leaked stays held whatever happens later. *)
Lemma leaked_forever c es w w' :
  release_discipline w -> leaked c w -> run w es = Some w' -> leaked c w'.
Proof.
  intros Hd Hl Hrun.
  apply (run_invariant (fun w => release_discipline w /\ leaked c w))
    with (es := es) (w := w) (w' := w'); auto.
  intros w1 e w2 [Hd1 Hl1] Hs.
  split; [eapply release_discipline_step|eapply leaked_step]; eauto.
Qed.

(** An error the estimator cannot read arms no timer: the slot of the
    invocation leaks, and the caller receives what the estimator threw. *)
Lemma unreadable_error_leaks w c err e w' :
  release_discipline w ->
  step w (Settled c (Throw err)) = Some w' ->
  estimate err = Throw e ->
  leaked c w' /\ result_of c w' = Some (Throw e).
Proof.
  intros (Hnamed & _ & Hdone & _) Hs He.
  pose proof Hs as Hs'.
  apply step_Settled_result in Hs' as (r & (id & fn & Hc) & Hres & Htimers).
  destruct (Hnamed c _ r Hc eq_refl) as [_ Hheld].
  apply step_Settled in Hs as (_ & _ & _ & _ & _ & Hpool & _ & _ & _).
  assert (Hon : on_settled r (Throw err) = ([], Throw e))
    by (unfold on_settled, on_failure; rewrite He; reflexivity).
  rewrite Hon in Hres, Htimers. cbn in Hres, Htimers. rewrite app_nil_r in Htimers.
  split; [|exact Hres]. split; [rewrite Hres; eauto|].
  unfold armed_for. rewrite Hpool, Htimers. split; [assumption|].
  intros Hin. destruct (Hdone c Hin) as [x Hx].
  unfold result_of in Hx. rewrite Hc in Hx. discriminate.
Qed.

End Discipline.

Section Releases.
Context `{rt : Runtime}.

Lemma armed_for_step w e w' c :
  step w e = Some w' -> c ∈ armed_for w -> c ∈ armed_for w'.
Proof.
  intros Hs Hc. destruct e as [m args|c'|c' outcome|t].
  - rewrite step_Invoke in Hs. injection Hs as <-. exact Hc.
  - apply step_Acquired in Hs as (id & fn & _ & _ & _ & _ & _ & _ & Htimers).
    unfold armed_for. rewrite Htimers. exact Hc.
  - apply step_Settled in Hs as (id & fn & r & _ & _ & _ & _ & _ & Htimers).
    unfold armed_for. rewrite Htimers, fmap_app. apply elem_of_app. left. exact Hc.
  - apply step_TimerFired in Hs as (r & d & Ht & _ & _ & _ & _ & Htimers).
    unfold armed_for. rewrite Htimers.
    rewrite (fmap_insert_same resource _ _ _ _ Ht) by reflexivity. exact Hc.
Qed.

Lemma limit_step w e w' :
  step w e = Some w' -> limit (pool w') = limit (pool w).
Proof.
  intros Hs. destruct e as [m args|c'|c' outcome|t].
  - rewrite step_Invoke in Hs. injection Hs as <-. reflexivity.
  - apply step_Acquired in Hs as (id & fn & _ & _ & _ & -> & _). reflexivity.
  - apply step_Settled in Hs as (id & fn & r & _ & _ & -> & _). reflexivity.
  - apply step_TimerFired in Hs as (r & d & _ & _ & -> & _). reflexivity.
Qed.

(** C1 (the code departs from it).  The claim: the slot of every invocation
    is released exactly once, through a release timer, also when the outcome
    carries no headers.  The code on a request that fails with the error of a
    reset connection: the estimator throws inside the [catch] block, before
    [setTimeout], so no timer is armed for the slot, and the slot is still
    held after any continuation of the interleaving. *)
Theorem connection_reset_leaks_slot es w :
  run RequestScheduler_new
      ([Invoke GET Fixture.users; Acquired 0; Settled 0 (Throw Fixture.ECONNRESET)] ++ es)
    = Some w ->
  result_of 0 w = Some (Throw (TypeError "undefined" "headers")) /\
  0 ∈ held (pool w) /\
  0 ∉ armed_for w.
Proof.
  intros Hrun. rewrite run_app in Hrun.
  destruct (run RequestScheduler_new
              [Invoke GET Fixture.users; Acquired 0; Settled 0 (Throw Fixture.ECONNRESET)])
    as [w0|] eqn:H0; [|discriminate].
  cbn [mbind option_bind] in Hrun.
  change [Invoke GET Fixture.users; Acquired 0; Settled 0 (Throw Fixture.ECONNRESET)]
    with ([Invoke GET Fixture.users; Acquired 0] ++ [Settled 0 (Throw Fixture.ECONNRESET)])
    in H0.
  apply run_snoc in H0 as (w1 & H1 & Hs).
  assert (Hd1 : release_discipline w1)
    by (apply reachable_release_discipline; eexists; exact H1).
  destruct (unreadable_error_leaks w1 0 Fixture.ECONNRESET
              (TypeError "undefined" "headers") w0 Hd1 Hs eq_refl) as [Hleak Hres].
  assert (Hd0 : release_discipline w0) by (eapply release_discipline_step; eauto).
  destruct (leaked_forever 0 es w0 w Hd0 Hleak Hrun) as (_ & Hheld & Hnone).
  split; [eapply run_result_final; eauto|]. split; assumption.
Qed.

(** C5, as the code has it.  The delay handed to [setTimeout] is the value
    the estimator returned, as it is: with [remaining = n], a reset at [r]
    seconds and a date of [d] milliseconds it is 0 when [n > 110] and
    [r * 1000 - d + 1000] otherwise, and it is not below zero exactly when
    [n > 110] or [d <= r * 1000 + 1000].  The values are those of the code
    for every reading whose product, difference and sum stay within [2^53]
    in magnitude. *)
Theorem release_delay_is_unclamped w c outcome w' (hs : gmap string value)
    D remaining R n r d :
  step w (Settled c outcome) = Some w' ->
  headers_of (outcome_value outcome) = Normal (VObj hs) ->
  hs !! "date" = Some D ->
  hs !! "x-rate-limit-remaining" = Some remaining ->
  hs !! "x-rate-limit-reset" = Some R ->
  ToNumber remaining = Fin n -> ToNumber R = Fin r -> Date_parse D = Fin d ->
  safe_reading r d ->
  estimate (outcome_value outcome) = Normal (Fin (unclamped_delay n r d)) /\
  (exists res, timers w' = timers w ++ [armed res (Fin (unclamped_delay n r d))]) /\
  (Num.nonneg (Fin (unclamped_delay n r d)) <->
   (Z.of_nat REQUEST_CONCURRENCY_LIMIT + 10 < n \/ d <= r * 1000 + 1000)%Z).
Proof.
  intros Hs Hh HD Hrem HR Hn Hr Hd _.
  pose proof (estimate_unclamped _ hs D remaining R n r d Hh HD Hrem HR Hn Hr Hd) as He.
  split; [exact He|]. split.
  - apply step_Settled_result in Hs as (res & _ & _ & Ht).
    exists res. rewrite Ht, (on_settled_readable res outcome _ He). reflexivity.
  - unfold unclamped_delay, Num.nonneg. case_headroom n; lia.
Qed.

(** X1.  No slot ever gets a second release timer. *)
Theorem at_most_one_release_timer es w :
  run RequestScheduler_new es = Some w -> NoDup (armed_for w).
Proof.
  intros Hrun.
  destruct (reachable_release_discipline w) as (_ & Hnodup & _); [eexists; eauto|].
  exact Hnodup.
Qed.

(** X3.  The pool never holds more than its hundred slots. *)
Theorem held_slots_within_limit es w :
  run RequestScheduler_new es = Some w ->
  size (held (pool w)) <= REQUEST_CONCURRENCY_LIMIT.
Proof.
  intros Hrun.
  destruct (reachable_release_discipline w) as (_ & _ & _ & Hsize); [eexists; eauto|].
  assert (Hlimit : limit (pool w) = REQUEST_CONCURRENCY_LIMIT).
  { apply (run_invariant (fun w => limit (pool w) = REQUEST_CONCURRENCY_LIMIT))
      with (es := es) (w := RequestScheduler_new); auto.
    intros w1 e w2 H1 Hs. rewrite (limit_step w1 e w2 Hs). exact H1. }
  lia.
Qed.

(** X2.  An outcome whose headers the estimator can read arms the one
    release timer of its slot, with the delay the estimator returned. *)
Theorem readable_outcome_arms_one_timer es c outcome t w w' es' w'' :
  run RequestScheduler_new es = Some w ->
  step w (Settled c outcome) = Some w' ->
  estimate (outcome_value outcome) = Normal t ->
  run w' es' = Some w'' ->
  timers w' = timers w ++ [armed c t] /\
  c ∈ armed_for w'' /\
  NoDup (armed_for w'').
Proof.
  intros Hrun Hs He Hrun'.
  destruct (reachable_release_discipline w) as (Hnamed & _); [eexists; eauto|].
  pose proof Hs as Hs'.
  apply step_Settled_result in Hs' as (r & (id & fn & Hc) & _ & Ht).
  destruct (Hnamed c _ r Hc eq_refl) as [-> _].
  rewrite (on_settled_readable c outcome t He) in Ht.
  split; [exact Ht|]. split.
  - apply (run_invariant (fun w => c ∈ armed_for w))
      with (es := es') (w := w'); auto.
    + intros w1 e w2 H1 Hs1. eapply armed_for_step; eauto.
    + unfold armed_for. rewrite Ht, fmap_app. apply elem_of_app. right.
      apply list_elem_of_singleton. reflexivity.
  - destruct (reachable_release_discipline w'') as (_ & Hnodup & _); [|exact Hnodup].
    exists (es ++ Settled c outcome :: es'). rewrite run_app, Hrun.
    cbn [mbind option_bind].
    change (run w (Settled c outcome :: es'))
      with (w1 ← step w (Settled c outcome); run w1 es').
    rewrite Hs. exact Hrun'.
Qed.

End Releases.

(** After the reset connection a second invocation runs to the end and its
    slot is released; the slot of the first one is still held. *)
Lemma connection_reset_leaks_slot_witness :
  0 ∈ held (pool (Fixture.after
                    ([Invoke GET Fixture.users; Acquired 0;
                      Settled 0 (Throw Fixture.ECONNRESET)] ++ Fixture.put_groups_done))).
Proof.
  apply (proj1 (proj2 (connection_reset_leaks_slot (rt := Reference.engine)
                         Fixture.put_groups_done
                         (Fixture.after
                            ([Invoke GET Fixture.users; Acquired 0;
                              Settled 0 (Throw Fixture.ECONNRESET)]
                             ++ Fixture.put_groups_done))
                         ltac:(by_running)))).
Defined.

(** C5, as claimed, fails: the response says five requests are left and
    names a reset time ten seconds before its own date; the estimator
    returns [1704067200 * 1000 - 1704067210000 + 1000 = -9000], and that is
    the duration [setTimeout] receives. *)
Lemma stale_reset_arms_negative_delay :
  run (rt := Reference.engine) RequestScheduler_new
      (Fixture.get_users_executing ++
       [Settled 0 (Normal (Fixture.response Fixture.stale Fixture.user))])
  = Some (Fixture.after
            (Fixture.get_users_executing ++
             [Settled 0 (Normal (Fixture.response Fixture.stale Fixture.user))])) /\
  timers (Fixture.after
            (Fixture.get_users_executing ++
             [Settled 0 (Normal (Fixture.response Fixture.stale Fixture.user))]))
  = [armed 0 (Fin (-9000))] /\
  ~ delays_nonneg
      (Fixture.after
         (Fixture.get_users_executing ++
          [Settled 0 (Normal (Fixture.response Fixture.stale Fixture.user))])).
Proof.
  assert (Ht : timers (Fixture.after
                         (Fixture.get_users_executing ++
                          [Settled 0 (Normal (Fixture.response Fixture.stale Fixture.user))]))
               = [armed 0 (Fin (-9000))]) by by_running.
  split; [by_running|]. split; [exact Ht|].
  intros Hall. specialize (Hall (armed 0 (Fin (-9000)))).
  rewrite Ht in Hall. specialize (Hall (list_elem_of_here _ _)).
  cbn in Hall. lia.
Qed.

Lemma release_delay_is_unclamped_witness :
  estimate (rt := Reference.engine) (Fixture.response Fixture.stale Fixture.user)
  = Normal (Fin (-9000)).
Proof.
  apply (proj1 (release_delay_is_unclamped (rt := Reference.engine)
                  (Fixture.after Fixture.get_users_executing) 0
                  (Normal (Fixture.response Fixture.stale Fixture.user))
                  (Fixture.after
                     (Fixture.get_users_executing ++
                      [Settled 0 (Normal (Fixture.response Fixture.stale Fixture.user))]))
                  Fixture.stale
                  (VStr "Mon, 01 Jan 2024 00:00:10 GMT") (VStr "5") (VStr "1704067200")
                  5 1704067200 1704067210000
                  ltac:(by_running) eq_refl eq_refl eq_refl eq_refl eq_refl eq_refl eq_refl
                  ltac:(unfold safe_reading, safe_integer; lia))).
Defined.

Lemma at_most_one_release_timer_witness :
  NoDup (armed_for (Fixture.after
                      (Fixture.get_users_executing ++
                       [Settled 0 (Normal (Fixture.response Fixture.scarce Fixture.user))]
                       ++ Fixture.put_groups_done))).
Proof.
  apply (at_most_one_release_timer (rt := Reference.engine)
           (Fixture.get_users_executing ++
            [Settled 0 (Normal (Fixture.response Fixture.scarce Fixture.user))]
            ++ Fixture.put_groups_done)
           _ ltac:(by_running)).
Defined.

Lemma held_slots_within_limit_witness :
  size (held (pool (Fixture.after Fixture.get_users_executing)))
  <= REQUEST_CONCURRENCY_LIMIT.
Proof.
  apply (held_slots_within_limit (rt := Reference.engine)
           Fixture.get_users_executing _ ltac:(by_running)).
Defined.

Lemma readable_outcome_arms_one_timer_witness :
  timers (Fixture.after
            (Fixture.get_users_executing ++
             [Settled 0 (Throw (Fixture.StatusCodeError 429 Fixture.scarce VNull))]))
  = timers (Fixture.after Fixture.get_users_executing) ++ [armed 0 (Fin 3000)].
Proof.
  apply (proj1 (readable_outcome_arms_one_timer (rt := Reference.engine)
                  Fixture.get_users_executing 0
                  (Throw (Fixture.StatusCodeError 429 Fixture.scarce VNull))
                  (Fin 3000)
                  (Fixture.after Fixture.get_users_executing)
                  (Fixture.after
                     (Fixture.get_users_executing ++
                      [Settled 0 (Throw (Fixture.StatusCodeError 429 Fixture.scarce VNull))]))
                  [TimerFired 0]
                  (Fixture.after
                     (Fixture.get_users_executing ++
                      [Settled 0 (Throw (Fixture.StatusCodeError 429 Fixture.scarce VNull));
                       TimerFired 0]))
                  ltac:(by_running) ltac:(by_running) ltac:(by_running)
                  ltac:(by_running))).
Defined.

(** * Occupancy of the pool *)

Section Occupancy.
Context `{rt : Runtime}.

Lemma limit_reachable es w :
  run RequestScheduler_new es = Some w ->
  limit (pool w) = REQUEST_CONCURRENCY_LIMIT.
Proof.
  intros Hrun.
  apply (run_invariant (fun w => limit (pool w) = REQUEST_CONCURRENCY_LIMIT))
    with (es := es) (w := RequestScheduler_new); auto.
  intros w1 e w2 H1 Hs. rewrite (limit_step w1 e w2 Hs). exact H1.
Qed.


(** X5.  At most [REQUEST_CONCURRENCY_LIMIT] = 100 requests are on their
    way at any moment: after any interleaving, the invocations that are
    between [await fn()] and the settling of their request number at most
    100 (with the pool modelled from the spec). *)
Theorem in_flight_within_limit es w :
  run RequestScheduler_new es = Some w ->
  length (in_flight w) <= REQUEST_CONCURRENCY_LIMIT.
Proof.
  intros Hrun.
  destruct (reachable_release_discipline w) as (Hnamed & _ & _ & Hsize);
    [eexists; eauto|].
  rewrite (limit_reachable es w Hrun) in Hsize.
  assert (Hnd : NoDup (in_flight w)) by (apply NoDup_filter, NoDup_seq).
  rewrite <- (size_list_to_set (C := gset nat) _ Hnd).
  etransitivity; [|exact Hsize]. apply subseteq_size.
  intros c Hc. apply elem_of_list_to_set in Hc.
  apply list_elem_of_filter in Hc as [Hc _].
  destruct (calls w !! c) as [[id fn ph]|] eqn:Hcall; [|discriminate].
  destruct ph as [|r|res]; try discriminate.
  eapply Hnamed; eauto.
Qed.

Lemma has_fired_app w w' c ts :
  timers w' = timers w ++ ts ->
  (forall t, t ∈ ts -> fired t = false) ->
  has_fired c w' <-> has_fired c w.
Proof.
  intros Ht Hts. unfold has_fired. rewrite Ht. split.
  - intros (t & Hin & Hr & Hf). apply elem_of_app in Hin as [Hin|Hin]; [eauto|].
    rewrite (Hts t Hin) in Hf. discriminate.
  - intros (t & Hin & Hr & Hf). exists t. rewrite elem_of_app. auto.
Qed.

Lemma on_settled_unfired r outcome t :
  t ∈ fst (on_settled r outcome) -> fired t = false.
Proof.
  unfold on_settled, on_failure. intros Ht.
  destruct outcome as [res|err].
  - destruct (estimate res) as [d|e].
    + apply list_elem_of_singleton in Ht. subst t. reflexivity.
    + destruct (estimate e); [|inversion Ht].
      apply list_elem_of_singleton in Ht. subst t. reflexivity.
  - destruct (estimate err); [|inversion Ht].
    apply list_elem_of_singleton in Ht. subst t. reflexivity.
Qed.

Lemma cooling_step w e w' :
  release_discipline w ->
  (forall c, c ∈ held (pool w) <-> cooling_or_running c w) ->
  step w e = Some w' ->
  forall c, c ∈ held (pool w') <-> cooling_or_running c w'.
Proof.
  intros (Hnamed & _ & Hdone & _) IH Hs c.
  destruct e as [m args|c0|c0 outcome|t].
  - rewrite step_Invoke in Hs. injection Hs as <-.
    unfold cooling_or_running, result_of, has_fired in *. cbn.
    destruct (decide (c < length (calls w))) as [Hlt|Hge].
    + rewrite lookup_app_l by exact Hlt. apply IH.
    + rewrite lookup_app_r by lia.
      assert (Hnone : calls w !! c = None) by (apply lookup_ge_None; lia).
      pose proof (IH c) as IHc. rewrite Hnone in IHc. cbn in IHc.
      split.
      * intros Hin. apply IHc in Hin as [Hin|[[x Hx] _]]; discriminate.
      * intros [Hex|[[x Hx] _]].
        -- destruct (c - length (calls w)) as [|k]; cbn in Hex; discriminate.
        -- destruct (c - length (calls w)) as [|k]; cbn in Hx; discriminate.
  - apply step_Acquired in Hs as (id & fn & Hc0 & _ & _ & Hpool & Hcalls & _ & Htimers).
    unfold cooling_or_running, result_of, has_fired in *.
    rewrite Hpool, Hcalls, Htimers. cbn.
    destruct (decide (c0 = c)) as [->|Hne].
    + rewrite list_lookup_insert_eq by (eapply lookup_lt_Some; eauto). cbn.
      split; [auto|]. intros _. apply elem_of_union. left.
      apply elem_of_singleton. reflexivity.
    + rewrite list_lookup_insert_ne by exact Hne.
      rewrite <- IH, elem_of_union, elem_of_singleton.
      split; [intros [?|?]; [congruence|assumption]|auto].
  - pose proof Hs as Hs'.
    apply step_Settled in Hs as (id & fn & r & Hc0 & _ & Hpool & Hcalls & _ & Htimers).
    destruct (Hnamed c0 _ r Hc0 eq_refl) as [-> Hheld].
    assert (Hfired : has_fired c w' <-> has_fired c w)
      by (eapply has_fired_app; eauto using on_settled_unfired).
    unfold cooling_or_running. rewrite Hfired, Hpool.
    unfold result_of. rewrite Hcalls.
    destruct (decide (c0 = c)) as [->|Hne].
    + rewrite list_lookup_insert_eq by (eapply lookup_lt_Some; eauto). cbn.
      split; [|auto]. intros _. right. split; [eauto|].
      intros (t & Hin & Hr & Hf).
      assert (Harm : c ∈ armed_for w)
        by (unfold armed_for; apply list_elem_of_fmap; eauto).
      destruct (Hdone c Harm) as [x Hx]. unfold result_of in Hx.
      rewrite Hc0 in Hx. discriminate.
    + rewrite list_lookup_insert_ne by exact Hne. apply IH.
  - apply step_TimerFired in Hs as (r & d & Ht & _ & Hpool & Hcalls & _ & Htimers).
    pose proof (armed_in w t r d Ht) as Harm.
    destruct (Hdone r Harm) as [x Hx].
    unfold cooling_or_running, result_of in *. rewrite Hpool, Hcalls. cbn.
    assert (Hlt : t < length (timers w)) by (eapply lookup_lt_Some; eauto).
    destruct (decide (c = r)) as [->|Hne].
    + split; [rewrite elem_of_difference, elem_of_singleton; intros [_ ?]; congruence|].
      intros [Hex|[_ Hnf]].
      * destruct (calls w !! r) as [[? ? []]|]; discriminate.
      * exfalso. apply Hnf. exists {| resource := r; delay := d; fired := true |}.
        split; [|auto]. rewrite Htimers.
        eapply list_elem_of_lookup_2. apply list_lookup_insert_eq. exact Hlt.
    + assert (Hfired : has_fired c w' <-> has_fired c w).
      { unfold has_fired. rewrite Htimers. split.
        - intros (t0 & Hin & Hr & Hf).
          apply list_elem_of_lookup in Hin as [i Hi].
          destruct (decide (i = t)) as [->|Hi'].
          + rewrite list_lookup_insert_eq in Hi by exact Hlt.
            injection Hi as <-. cbn in Hr. subst c. contradiction.
          + rewrite list_lookup_insert_ne in Hi by congruence.
            exists t0. split; [eapply list_elem_of_lookup_2; eauto|auto].
        - intros (t0 & Hin & Hr & Hf).
          apply list_elem_of_lookup in Hin as [i Hi].
          destruct (decide (i = t)) as [->|Hi'].
          + rewrite Ht in Hi. injection Hi as <-. unfold armed in Hr. cbn in Hr.
            subst c. contradiction.
          + exists t0. split; [|auto].
            apply (list_elem_of_lookup_2 _ i).
            rewrite list_lookup_insert_ne by congruence. exact Hi. }
      rewrite Hfired, <- IH, elem_of_difference, elem_of_singleton.
      split; [intros [? _]; assumption|auto].
Qed.


(** X6.  A slot is held exactly from the acquisition to the run of the
    release timer: after any interleaving, slot [c] is held if and only if
    invocation [c] is executing its request, or has settled and no release
    timer of its slot has run.  In particular the slot stays held during
    the delay the estimator computed, and for ever when no timer was
    armed. *)
Theorem slot_held_until_timer_fires es w c :
  run RequestScheduler_new es = Some w ->
  c ∈ held (pool w) <-> cooling_or_running c w.
Proof.
  intros Hrun. revert c.
  apply (run_invariant
           (fun w => release_discipline w /\
                     forall c, c ∈ held (pool w) <-> cooling_or_running c w))
    with (es := es) (w := RequestScheduler_new); auto.
  - intros w1 e w2 [Hd IH] Hs.
    split; [eapply release_discipline_step; eauto|eapply cooling_step; eauto].
  - split; [apply release_discipline_new|].
    intros c. unfold cooling_or_running, result_of. cbn. split.
    + intros Hin. apply not_elem_of_empty in Hin. contradiction.
    + intros [H|[[x Hx] _]]; discriminate.
Qed.

Lemma filter_replace {A : Type} (P : A -> Prop) `{!forall x, Decision (P x)}
    (l : list A) i x y :
  l !! i = Some x ->
  filter P l = filter P (take i l) ++ filter P [x] ++ filter P (drop (S i) l) /\
  filter P (<[i := y]> l)
  = filter P (take i l) ++ filter P [y] ++ filter P (drop (S i) l).
Proof.
  intros Hl. pose proof (lookup_lt_Some _ _ _ Hl) as Hlt. split.
  - rewrite <- !filter_app. change ([x] ++ drop (S i) l) with (x :: drop (S i) l).
    rewrite take_drop_middle by exact Hl. reflexivity.
  - rewrite insert_take_drop by exact Hlt.
    change (y :: drop (S i) l) with ([y] ++ drop (S i) l).
    rewrite !filter_app. reflexivity.
Qed.

Lemma requests_started_step w e w' :
  step w e = Some w' ->
  transport w ≡ₚ requests_started w ->
  transport w' ≡ₚ requests_started w'.
Proof.
  intros Hs IH. unfold requests_started in *.
  destruct e as [m args|c|c outcome|t].
  - rewrite step_Invoke in Hs. injection Hs as <-. cbn.
    rewrite filter_app, filter_cons_False, filter_nil, app_nil_r by (cbn; discriminate).
    exact IH.
  - apply step_Acquired in Hs as (id & fn & Hc & _ & _ & _ & Hcalls & Htr & _).
    destruct (filter_replace (fun c => has_started c = true) (calls w) c _
                {| call_id := id; call_fn := fn; call_phase := AwaitingTransport c |} Hc)
      as [Hold Hnew].
    rewrite filter_cons_False, filter_nil in Hold by (cbn; discriminate).
    rewrite filter_cons_True, filter_nil in Hnew by reflexivity.
    rewrite Hcalls, Htr, Hnew. rewrite Hold in IH.
    rewrite !fmap_app, list_fmap_singleton. rewrite fmap_app in IH.
    cbn [call_fn app] in *. rewrite IH.
    rewrite <- app_assoc. apply Permutation_app_head.
    symmetry. apply Permutation_cons_append.
  - apply step_Settled in Hs as (id & fn & r & Hc & _ & _ & Hcalls & Htr & _).
    destruct (filter_replace (fun c => has_started c = true) (calls w) c _
                {| call_id := id; call_fn := fn;
                   call_phase := Completed (snd (on_settled r outcome)) |} Hc)
      as [Hold Hnew].
    rewrite filter_cons_True, filter_nil in Hold by reflexivity.
    rewrite filter_cons_True, filter_nil in Hnew by reflexivity.
    rewrite Hcalls, Htr, Hnew. rewrite Hold in IH.
    rewrite !fmap_app, !list_fmap_singleton in *. exact IH.
  - apply step_TimerFired in Hs as (r & d & _ & _ & _ & Hcalls & Htr & _).
    rewrite Hcalls, Htr. exact IH.
Qed.


(** X7.  The transport is called once for each invocation that got a
    slot and for no other: after any interleaving, the calls made on the
    transport are, up to their order, the requests of the invocations that
    got past [await scheduler.pool.acquire()]; no request is sent twice and
    none before its slot is acquired. *)
Theorem transport_called_once_per_slot es w :
  run RequestScheduler_new es = Some w ->
  transport w ≡ₚ requests_started w.
Proof.
  intros Hrun.
  apply (run_invariant (fun w => transport w ≡ₚ requests_started w))
    with (es := es) (w := RequestScheduler_new); auto.
  intros w1 e w2 H1 Hs. eapply requests_started_step; eauto.
Qed.


(** X8.  The estimator changes nothing of the scheduler: the counter, the
    pool, the invocations, the transport and the timers are as before, and
    the logger has got exactly one entry when a delay is returned and none
    when the estimator throws. *)
Theorem timeToNextRequest_only_logs res w :
  requestId (snd (timeToNextRequest res w)) = requestId w /\
  pool (snd (timeToNextRequest res w)) = pool w /\
  calls (snd (timeToNextRequest res w)) = calls w /\
  transport (snd (timeToNextRequest res w)) = transport w /\
  timers (snd (timeToNextRequest res w)) = timers w /\
  match fst (timeToNextRequest res w) with
  | Normal t =>
      exists l m, logger (snd (timeToNextRequest res w)) = logger w ++ [(l, m)]
  | Throw _ => logger (snd (timeToNextRequest res w)) = logger w
  end.
Proof.
  destruct (timeToNextRequest_frame res w) as (_ & H1 & H2 & H3 & H4 & H5).
  repeat (split; [assumption|]).
  destruct (headers_of res) as [headers|e] eqn:Hh.
  - rewrite (timeToNextRequest_headers res headers w Hh).
    destruct (get_property headers "x-rate-limit-remaining");
      destruct (get_property headers "date");
      destruct (get_property headers "x-rate-limit-reset");
      unfold estimate_from; try destruct (Num.gt _ _); cbn; eauto.
  - rewrite (timeToNextRequest_no_headers res e w Hh). reflexivity.
Qed.

(** X9.  When the three headers can be read, the one entry the estimator
    logs is at level [warn] if and only if [x-rate-limit-remaining] reads
    as exactly 11; at 10, at 12 or at [NaN] it is at level [silly]. *)
Theorem timeToNextRequest_warns_at_11 res headers x d y w :
  headers_of res = Normal headers ->
  get_property headers "x-rate-limit-remaining" = Normal x ->
  get_property headers "date" = Normal d ->
  get_property headers "x-rate-limit-reset" = Normal y ->
  exists l m,
    logger (snd (timeToNextRequest res w)) = logger w ++ [(l, m)] /\
    (l = warn <-> ToNumber x = Fin 11).
Proof.
  intros Hh Hx Hd Hy.
  rewrite (timeToNextRequest_headers res headers w Hh), Hx, Hd, Hy.
  unfold estimate_from.
  destruct (Num.gt (ToNumber x) _) eqn:Hgt.
  - eexists _, _. split; [reflexivity|]. split; [discriminate|].
    intros H11. rewrite H11 in Hgt. discriminate.
  - destruct (Num.strict_eq (ToNumber x) (Fin 11)) eqn:Heq;
      (eexists _, _; split; [reflexivity|]).
    + split; [intros _|reflexivity].
      destruct (ToNumber x) as [|z]; [discriminate|].
      cbn in Heq. apply Z.eqb_eq in Heq. congruence.
    + split; [discriminate|]. intros H11. rewrite H11 in Heq. discriminate.
Qed.

(** X10.  The path of a resolved request has the defect of the path of a
    rejected one: when the transport resolves to a value whose headers the
    estimator cannot read, the [TypeError] of the [try] block goes to the
    [catch] block, the estimator is called on that [TypeError] and throws
    again, so the invocation rejects with a [TypeError] although the
    request succeeded, no timer is armed and the slot stays held. *)
Theorem resolved_unreadable_rejects es w c res e w' :
  run RequestScheduler_new es = Some w ->
  step w (Settled c (Normal res)) = Some w' ->
  estimate res = Throw e ->
  result_of c w' = Some (Throw (TypeError "undefined" "headers")) /\
  timers w' = timers w /\
  c ∈ held (pool w').
Proof.
  intros Hrun Hs He.
  destruct (reachable_release_discipline w) as (Hnamed & _); [eexists; eauto|].
  destruct (estimate_throws_TypeError res e He) as (what & key & ->).
  pose proof Hs as Hs'.
  apply step_Settled_result in Hs' as (r & (id & fn & Hc) & Hres & Ht).
  apply step_Settled in Hs as (_ & _ & _ & _ & _ & Hpool & _).
  destruct (Hnamed c _ r Hc eq_refl) as [_ Hheld].
  assert (Hon : on_settled r (Normal res)
                = ([], Throw (TypeError "undefined" "headers"))).
  { unfold on_settled, on_failure. rewrite He, estimate_TypeError. reflexivity. }
  rewrite Hon in Hres, Ht. cbn in Hres, Ht. rewrite app_nil_r in Ht.
  rewrite Hpool. auto.
Qed.

End Occupancy.

Lemma in_flight_within_limit_witness :
  length (in_flight (Fixture.after Fixture.get_users_executing))
  <= REQUEST_CONCURRENCY_LIMIT.
Proof.
  apply (in_flight_within_limit (rt := Reference.engine)
           Fixture.get_users_executing _ ltac:(by_running)).
Defined.

(** The slot of an invocation whose timer has not run yet. *)
Lemma slot_held_until_timer_fires_witness :
  1 ∈ held (pool (Fixture.after (Fixture.get_users_executing ++ Fixture.put_groups_done)))
  <-> cooling_or_running 1
        (Fixture.after (Fixture.get_users_executing ++ Fixture.put_groups_done)).
Proof.
  apply (slot_held_until_timer_fires (rt := Reference.engine)
           (Fixture.get_users_executing ++ Fixture.put_groups_done) _ 1
           ltac:(by_running)).
Defined.

Lemma transport_called_once_per_slot_witness :
  transport (Fixture.after (Fixture.get_users_executing ++ [Invoke PUT Fixture.groups]))
  ≡ₚ requests_started
       (Fixture.after (Fixture.get_users_executing ++ [Invoke PUT Fixture.groups])).
Proof.
  apply (transport_called_once_per_slot (rt := Reference.engine)
           (Fixture.get_users_executing ++ [Invoke PUT Fixture.groups]) _
           ltac:(by_running)).
Defined.

Lemma timeToNextRequest_warns_at_11_witness :
  exists l m,
    logger (snd (timeToNextRequest (rt := Reference.engine)
                   (Fixture.response Sample.eleven_left Fixture.user)
                   RequestScheduler_new))
    = logger RequestScheduler_new ++ [(l, m)] /\
    (l = warn <-> ToNumber (rt := Reference.engine) (VStr "11") = Fin 11).
Proof.
  apply (timeToNextRequest_warns_at_11 (rt := Reference.engine)
           (Fixture.response Sample.eleven_left Fixture.user)
           (VObj Sample.eleven_left) (VStr "11") (VStr "2024-01-01T00:00:00Z")
           (VStr "1704067202") RequestScheduler_new
           ltac:(by_running) ltac:(by_running) ltac:(by_running) ltac:(by_running)).
Defined.

(** A response without headers. *)
Lemma resolved_unreadable_rejects_witness :
  result_of 0 (Fixture.after (Fixture.get_users_executing ++
                              [Settled 0 (Normal Sample.bare_response)]))
  = Some (Throw (TypeError "undefined" "headers")) /\
  timers (Fixture.after (Fixture.get_users_executing ++
                         [Settled 0 (Normal Sample.bare_response)]))
  = timers (Fixture.after Fixture.get_users_executing) /\
  0 ∈ held (pool (Fixture.after (Fixture.get_users_executing ++
                                 [Settled 0 (Normal Sample.bare_response)]))).
Proof.
  apply (resolved_unreadable_rejects (rt := Reference.engine)
           Fixture.get_users_executing
           (Fixture.after Fixture.get_users_executing) 0 Sample.bare_response
           (TypeError "undefined" "headers")
           (Fixture.after (Fixture.get_users_executing ++
                           [Settled 0 (Normal Sample.bare_response)]))
           ltac:(by_running) ltac:(by_running) ltac:(by_running)).
Defined.

(** * Objects under assignment *)

Section Objects.

Lemma own_None k (o : list (string * js)) : Js.own k o = None <-> k ∉ Js.keys o.
Proof.
  induction o as [|[k' v] o IH]; cbn.
  - split; [intros _ Hin; inversion Hin|reflexivity].
  - case_decide as Hk.
    + subst. split; [discriminate|]. intros Hn. exfalso. apply Hn. left.
    + rewrite IH, not_elem_of_cons. tauto.
Qed.

Lemma own_Some_elem k v (o : list (string * js)) : Js.own k o = Some v -> (k, v) ∈ o.
Proof.
  induction o as [|[k' v'] o IH]; cbn; [discriminate|].
  case_decide as Hk.
  - intros [= ->]. subst. left.
  - intros Ho. right. auto.
Qed.

Lemma own_app k (o1 o2 : list (string * js)) :
  Js.own k (o1 ++ o2) = match Js.own k o1 with Some v => Some v | None => Js.own k o2 end.
Proof.
  induction o1 as [|[k' v'] o1 IH]; cbn; [reflexivity|].
  case_decide; [reflexivity|exact IH].
Qed.

Lemma own_replace K k v (o : list (string * js)) :
  Js.own K (Js.replace k v o)
  = if decide (K = k) then (fun _ => v) <$> Js.own k o else Js.own K o.
Proof.
  induction o as [|[k' v'] o IH]; cbn.
  - case_decide; reflexivity.
  - destruct (decide (k = k')) as [->|Hkk']; cbn.
    + destruct (decide (K = k')) as [->|HK]; cbn; [reflexivity|].
      reflexivity.
    + destruct (decide (K = k')) as [->|HK]; cbn.
      * rewrite decide_False by congruence. reflexivity.
      * exact IH.
Qed.

Lemma own_insert_index K n k v (o : list (string * js)) :
  Js.own k o = None ->
  Js.own K (Js.insert_index n k v o) = if decide (K = k) then Some v else Js.own K o.
Proof.
  induction o as [|[k' v'] o IH]; cbn; intros Hnone.
  - reflexivity.
  - destruct (decide (k = k')) as [->|Hkk']; [discriminate|].
    destruct (Js.array_index k') as [n'|]; [destruct (n <? n')%Z|]; cbn.
    + reflexivity.
    + destruct (decide (K = k')) as [->|HK].
      * rewrite decide_False by congruence. reflexivity.
      * apply IH. exact Hnone.
    + reflexivity.
Qed.

Lemma own_create K k v (o : list (string * js)) :
  Js.own k o = None ->
  Js.own K (Js.create k v o) = if decide (K = k) then Some v else Js.own K o.
Proof.
  intros Hnone. unfold Js.create. destruct (Js.array_index k).
  - apply own_insert_index. exact Hnone.
  - rewrite own_app. cbn. destruct (decide (K = k)) as [->|HK].
    + rewrite Hnone. reflexivity.
    + destruct (Js.own K o); reflexivity.
Qed.

(** Reading after writing: except for [__proto__], an assignment sets the
    property and leaves the others alone. *)
Lemma own_assign K k v (o : Js.object) :
  K <> "__proto__" ->
  Js.own K (Js.props (Js.assign k v o))
  = if decide (K = k) then Some v else Js.own K (Js.props o).
Proof.
  intros HK. unfold Js.assign.
  destruct (Js.own k (Js.props o)) as [x|] eqn:Hk; cbn.
  - rewrite own_replace, Hk. reflexivity.
  - destruct (decide (k = "__proto__")) as [->|Hp].
    + rewrite decide_False by exact HK.
      destruct (Js.setter o); cbn; [reflexivity|].
      rewrite own_create by exact Hk. rewrite decide_False by exact HK. reflexivity.
    + cbn. apply own_create. exact Hk.
Qed.

Lemma own_assign_plain K k v (o : Js.object) :
  k <> "__proto__" ->
  Js.own K (Js.props (Js.assign k v o))
  = if decide (K = k) then Some v else Js.own K (Js.props o).
Proof.
  intros Hk. unfold Js.assign.
  destruct (Js.own k (Js.props o)) as [x|] eqn:Hown; cbn.
  - rewrite own_replace, Hown. reflexivity.
  - rewrite decide_False by exact Hk. cbn. apply own_create. exact Hown.
Qed.

Lemma keys_replace k v (o : list (string * js)) : Js.keys (Js.replace k v o) = Js.keys o.
Proof.
  unfold Js.keys. induction o as [|[k' v'] o IH]; cbn; [reflexivity|].
  case_decide; cbn; [reflexivity|]. rewrite IH. reflexivity.
Qed.

Lemma keys_insert_index n k v (o : list (string * js)) :
  Js.keys (Js.insert_index n k v o) ≡ₚ (k :: Js.keys o).
Proof.
  unfold Js.keys. induction o as [|[k' v'] o IH]; cbn; [reflexivity|].
  destruct (Js.array_index k') as [n'|]; [destruct (n <? n')%Z|]; cbn; try reflexivity.
  rewrite IH. apply Permutation_swap.
Qed.

Lemma keys_create k v (o : list (string * js)) :
  Js.keys (Js.create k v o) ≡ₚ (k :: Js.keys o).
Proof.
  unfold Js.create. destruct (Js.array_index k).
  - apply keys_insert_index.
  - unfold Js.keys. rewrite fmap_app. cbn. symmetry. apply Permutation_cons_append.
Qed.

Lemma keys_assign k v (o : Js.object) :
  Js.keys (Js.props (Js.assign k v o)) = Js.keys (Js.props o) \/
  ((k ∉ Js.keys (Js.props o)) /\
   (Js.keys (Js.props (Js.assign k v o)) ≡ₚ (k :: Js.keys (Js.props o)))).
Proof.
  unfold Js.assign.
  destruct (Js.own k (Js.props o)) as [x|] eqn:Hk; cbn.
  - left. apply keys_replace.
  - apply own_None in Hk.
    destruct (decide (k = "__proto__")); [destruct (Js.setter o)|]; cbn;
      auto using keys_create.
Qed.

Lemma NoDup_keys_assign k v (o : Js.object) :
  NoDup (Js.keys (Js.props o)) -> NoDup (Js.keys (Js.props (Js.assign k v o))).
Proof.
  intros Hnd. destruct (keys_assign k v o) as [->|[Hk ->]]; [exact Hnd|].
  constructor; assumption.
Qed.

Lemma elem_of_replace kv k v (o : list (string * js)) :
  kv ∈ Js.replace k v o -> kv ∈ o \/ kv.2 = v.
Proof.
  induction o as [|[k' v'] o IH]; cbn; [intros Hin; inversion Hin|].
  case_decide.
  - intros Hin. apply elem_of_cons in Hin as [->|Hin]; [right; reflexivity|].
    left. right. exact Hin.
  - intros Hin. apply elem_of_cons in Hin as [->|Hin]; [left; left|].
    destruct (IH Hin); [left; right; assumption|right; assumption].
Qed.

Lemma elem_of_assign kv k v (o : Js.object) :
  kv ∈ Js.props (Js.assign k v o) -> kv ∈ Js.props o \/ kv.2 = v.
Proof.
  unfold Js.assign.
  assert (Hcreate : kv ∈ Js.create k v (Js.props o) -> kv ∈ Js.props o \/ kv.2 = v).
  { intros Hin.
    assert (Hp : Js.create k v (Js.props o) ≡ₚ ((k, v) :: Js.props o)).
    { unfold Js.create. destruct (Js.array_index k) as [n|].
      - clear Hin. induction (Js.props o) as [|[k' v'] o' IH]; cbn; [reflexivity|].
        destruct (Js.array_index k') as [n'|]; [destruct (n <? n')%Z|]; try reflexivity.
        rewrite IH. apply Permutation_swap.
      - symmetry. apply Permutation_cons_append. }
    rewrite Hp in Hin. apply elem_of_cons in Hin as [->|Hin]; auto. }
  destruct (Js.own k (Js.props o)); cbn.
  - apply elem_of_replace.
  - destruct (decide (k = "__proto__")); [destruct (Js.setter o)|]; cbn; auto.
Qed.

Lemma own_last_cons K kv (l : list (string * js)) :
  own_last K (kv :: l)
  = match own_last K l with
    | Some v => Some v
    | None => if decide (K = kv.1) then Some kv.2 else None
    end.
Proof.
  unfold own_last. rewrite reverse_cons, own_app. destruct kv as [k v]. reflexivity.
Qed.

Lemma own_last_app K (l1 l2 : list (string * js)) :
  own_last K (l1 ++ l2)
  = match own_last K l2 with Some v => Some v | None => own_last K l1 end.
Proof. unfold own_last. rewrite reverse_app, own_app. reflexivity. Qed.

Lemma own_last_NoDup K (l : list (string * js)) :
  NoDup (Js.keys l) -> own_last K l = Js.own K l.
Proof.
  induction l as [|[k v] l IH]; [reflexivity|].
  intros Hnd. apply NoDup_cons in Hnd as [Hk Hnd]. cbn in Hk.
  rewrite own_last_cons, IH by exact Hnd. cbn.
  destruct (decide (K = k)) as [->|HK]; [|destruct (Js.own K l); reflexivity].
  apply own_None in Hk. rewrite Hk. reflexivity.
Qed.

Lemma own_Object_assign K (target : Js.object) (source : list (string * js)) :
  K <> "__proto__" ->
  Js.own K (Js.props (Js.Object_assign target source))
  = match own_last K source with
    | Some v => Some v
    | None => Js.own K (Js.props target)
    end.
Proof.
  intros HK. unfold Js.Object_assign. revert target.
  induction source as [|[k v] source IH]; intros target; [reflexivity|].
  cbn [foldl]. rewrite IH, own_last_cons. cbn [fst snd].
  destruct (own_last K source); [reflexivity|].
  rewrite own_assign by exact HK. case_decide; reflexivity.
Qed.

Lemma NoDup_keys_Object_assign (target : Js.object) (source : list (string * js)) :
  NoDup (Js.keys (Js.props target)) ->
  NoDup (Js.keys (Js.props (Js.Object_assign target source))).
Proof.
  unfold Js.Object_assign. revert target.
  induction source as [|[k v] source IH]; intros target Hnd; [exact Hnd|].
  cbn [foldl]. apply IH, NoDup_keys_assign, Hnd.
Qed.


Lemma elem_of_Object_assign kv (target : Js.object) (source : list (string * js)) :
  kv ∈ Js.props (Js.Object_assign target source) ->
  kv ∈ Js.props target \/ exists kv', kv' ∈ source /\ kv.2 = kv'.2.
Proof.
  unfold Js.Object_assign. revert target.
  induction source as [|[k v] source IH]; intros target Hin; [left; exact Hin|].
  cbn [foldl] in Hin. apply IH in Hin as [Hin|(kv' & Hin & Heq)].
  - apply elem_of_assign in Hin as [Hin|Heq]; [left; exact Hin|].
    right. exists (k, v). split; [left|exact Heq].
  - right. exists kv'. split; [right; exact Hin|exact Heq].
Qed.

Lemma get_assign K k v (o : Js.object) :
  k <> "__proto__" ->
  Js.get (Js.props (Js.assign k v o)) K
  = if decide (K = k) then v else Js.get (Js.props o) K.
Proof.
  intros Hk. unfold Js.get. rewrite own_assign_plain by exact Hk.
  case_decide; reflexivity.
Qed.

Lemma own_is_Some K (o : list (string * js)) : is_Some (Js.own K o) <-> K ∈ Js.keys o.
Proof.
  destruct (Js.own K o) eqn:Ho.
  - split; [intros _|eauto]. apply own_Some_elem in Ho.
    apply (list_elem_of_fmap_2 fst) in Ho. exact Ho.
  - split; [intros [? ?]; discriminate|]. intros Hin. apply own_None in Ho. contradiction.
Qed.

End Objects.

(** * Flattening custom data *)

Section Flatten.

Lemma flatten_property_object prefixStr key customData flattened :
  Account.flatten_property prefixStr key (JObj customData) flattened
  = Js.Object_assign flattened
      (Js.props (Account.flattenCustomData customData (prefixStr +:+ key))).
Proof.
  cbn [Account.flatten_property]. f_equal. f_equal.
  unfold Account.flattenCustomData, Account.flatten_properties.
  generalize Js.empty.
  generalize (if decide (prefixStr +:+ key = "") then "" else (prefixStr +:+ key) +:+ "_").
  intros ps. induction customData as [|[k v] cd IH]; intros fl; [reflexivity|].
  cbn [foldl fst snd]. apply IH.
Qed.

Lemma leaves_of_object prefixStr key customData :
  leaves_of prefixStr key (JObj customData) = leaves (prefixStr +:+ key) customData.
Proof.
  cbn [leaves_of]. unfold leaves.
  generalize (if decide (prefixStr +:+ key = "") then "" else (prefixStr +:+ key) +:+ "_").
  intros ps. induction customData as [|[k v] cd IH]; [reflexivity|].
  cbn [flat_map fst snd]. rewrite IH. reflexivity.
Qed.

Lemma flatten_properties_well prefixStr customData flattened :
  Forall (fun kv => flattens_well kv.2) customData ->
  NoDup (Js.keys (Js.props flattened)) ->
  NoDup (Js.keys (Js.props (Account.flatten_properties prefixStr customData flattened))) /\
  (forall K, K <> "__proto__" ->
     Js.own K (Js.props (Account.flatten_properties prefixStr customData flattened))
     = match own_last K (flat_map (fun kv => leaves_of prefixStr kv.1 kv.2) customData) with
       | Some v => Some v
       | None => Js.own K (Js.props flattened)
       end) /\
  (forall kv, kv ∈ Js.props (Account.flatten_properties prefixStr customData flattened) ->
     kv ∈ Js.props flattened \/ is_plain_object kv.2 = false).
Proof.
  unfold Account.flatten_properties. intros Hall. revert flattened.
  induction Hall as [|[k v] cd Hv Hall IH]; intros flattened Hnd.
  - cbn. auto.
  - cbn [foldl fst snd flat_map]. cbn [snd] in Hv.
    destruct (Hv prefixStr k flattened Hnd) as (Hnd1 & Hown1 & Hval1).
    destruct (IH _ Hnd1) as (Hnd2 & Hown2 & Hval2).
    split; [exact Hnd2|]. split.
    + intros K HK. rewrite (Hown2 K HK), own_last_app.
      destruct (own_last K (flat_map _ cd)); [reflexivity|]. apply Hown1, HK.
    + intros kv Hin. apply Hval2 in Hin as [Hin|Hin]; [|right; exact Hin].
      apply Hval1 in Hin. exact Hin.
Qed.

Lemma flattens_well_all val : flattens_well val.
Proof.
  induction val as [| | | | | |items _|customData IH] using js_nested_ind;
    try (intros prefixStr key flattened Hnd; cbn [Account.flatten_property leaves_of];
         split; [apply NoDup_keys_assign, Hnd|]; split;
         [intros K HK; rewrite own_assign by exact HK; unfold own_last; cbn;
          case_decide; reflexivity
         |intros kv Hin; apply elem_of_assign in Hin as [Hin | ->]; auto]).
  intros prefixStr key flattened Hnd.
  rewrite flatten_property_object, leaves_of_object.
  unfold Account.flattenCustomData, leaves.
  set (ps := if decide (prefixStr +:+ key = "") then "" else (prefixStr +:+ key) +:+ "_").
  destruct (flatten_properties_well ps customData Js.empty IH) as (Hnd1 & Hown1 & Hval1);
    [constructor|].
  split; [apply NoDup_keys_Object_assign, Hnd|]. split.
  - intros K HK. rewrite own_Object_assign by exact HK.
    rewrite (own_last_NoDup K _ Hnd1), (Hown1 K HK). cbn.
    destruct (own_last K _); reflexivity.
  - intros kv Hin. apply elem_of_Object_assign in Hin as [Hin|(kv' & Hin & Heq)].
    + left. exact Hin.
    + right. rewrite Heq. apply Hval1 in Hin as [Hin|Hin]; [inversion Hin|exact Hin].
Qed.

Lemma flatten_spec customData prefix :
  NoDup (Js.keys (Js.props (Account.flattenCustomData customData prefix))) /\
  (forall K, K <> "__proto__" ->
     Js.own K (Js.props (Account.flattenCustomData customData prefix))
     = own_last K (leaves prefix customData)) /\
  (forall kv, kv ∈ Js.props (Account.flattenCustomData customData prefix) ->
     is_plain_object kv.2 = false).
Proof.
  unfold Account.flattenCustomData, leaves.
  destruct (flatten_properties_well
              (if decide (prefix = "") then "" else prefix +:+ "_") customData Js.empty)
    as (Hnd & Hown & Hval).
  - apply Forall_forall. intros kv _. apply flattens_well_all.
  - constructor.
  - split; [exact Hnd|]. split.
    + intros K HK. rewrite (Hown K HK). cbn. destruct (own_last K _); reflexivity.
    + intros kv Hin. apply Hval in Hin as [Hin|Hin]; [inversion Hin|exact Hin].
Qed.

(** X11.  What [flattenCustomData] gives under a name other than
    [__proto__] is the last leaf of the nested value whose path, joined
    with underscores after the prefix, is that name: every leaf is kept
    under its path, a later leaf with the same path replaces an earlier
    one, nothing else is added, and an object without leaves (such as
    [{}]) leaves no trace. *)
Theorem flattenCustomData_leaves customData prefix K :
  K <> "__proto__" ->
  Js.own K (Js.props (Account.flattenCustomData customData prefix))
  = own_last K (leaves prefix customData).
Proof.
  intros HK. destruct (flatten_spec customData prefix) as (_ & Hown & _).
  apply Hown, HK.
Qed.

(** X12.  No value of the flattened object is a plain object: whatever
    the nesting of the custom data, flattening leaves only primitives,
    [null] and arrays as values. *)
Theorem flattenCustomData_no_objects customData prefix k v :
  (k, v) ∈ Js.props (Account.flattenCustomData customData prefix) ->
  is_plain_object v = false.
Proof.
  intros Hin. destruct (flatten_spec customData prefix) as (_ & _ & Hval).
  apply (Hval (k, v) Hin).
Qed.

Lemma leaves_flat customData :
  Forall (fun kv => is_plain_object kv.2 = false) customData ->
  leaves "" customData = customData.
Proof.
  unfold leaves. cbn. induction 1 as [|[k v] cd Hv _ IH]; [reflexivity|].
  cbn [flat_map fst snd]. rewrite IH. cbn in Hv.
  destruct v; try discriminate; reflexivity.
Qed.

Lemma flatten_flat customData K :
  Forall (fun kv => is_plain_object kv.2 = false) customData ->
  NoDup (Js.keys customData) ->
  K <> "__proto__" ->
  Js.own K (Js.props (Account.flattenCustomData customData "")) = Js.own K customData.
Proof.
  intros Hflat Hnd HK.
  destruct (flatten_spec customData "") as (_ & Hown & _). rewrite (Hown K HK).
  rewrite leaves_flat by exact Hflat. apply own_last_NoDup, Hnd.
Qed.

(** X13.  Flattening is idempotent: flattening the flattened object again
    (without prefix) gives the same value under every name other than
    [__proto__]. *)
Theorem flattenCustomData_idempotent customData prefix K :
  K <> "__proto__" ->
  Js.own K (Js.props (Account.flattenCustomData
                        (Js.props (Account.flattenCustomData customData prefix)) ""))
  = Js.own K (Js.props (Account.flattenCustomData customData prefix)).
Proof.
  intros HK. destruct (flatten_spec customData prefix) as (Hnd & _ & Hval).
  apply flatten_flat; [|exact Hnd|exact HK].
  apply Forall_forall. exact Hval.
Qed.

Lemma flattened_key_leaf customData prefix K :
  K <> "__proto__" ->
  K ∈ Js.keys (Js.props (Account.flattenCustomData customData prefix))
  <-> K ∈ Js.keys (leaves prefix customData).
Proof.
  intros HK. destruct (flatten_spec customData prefix) as (_ & Hown & _).
  rewrite <- own_is_Some, (Hown K HK).
  unfold own_last. rewrite own_is_Some. unfold Js.keys.
  rewrite fmap_reverse, elem_of_reverse. reflexivity.
Qed.

End Flatten.

(** The example of the comment on [flattenCustomData]. *)
Lemma flattenCustomData_leaves_witness :
  Js.own "address_street" (Js.props (Account.flattenCustomData Sample.address ""))
  = own_last "address_street" (leaves "" Sample.address).
Proof.
  apply (flattenCustomData_leaves Sample.address "" "address_street").
  discriminate.
Defined.

(** The tags of the sample stay an array. *)
Lemma flattenCustomData_no_objects_witness :
  is_plain_object (JArr [JStr "a"; JStr "b"]) = false.
Proof.
  apply (flattenCustomData_no_objects Sample.address "" "tags"
           (JArr [JStr "a"; JStr "b"])).
  vm_compute. do 2 apply list_elem_of_further. apply list_elem_of_here.
Defined.

Lemma flattenCustomData_idempotent_witness :
  Js.own "address_number"
    (Js.props (Account.flattenCustomData
                 (Js.props (Account.flattenCustomData Sample.address "home")) ""))
  = Js.own "address_number" (Js.props (Account.flattenCustomData Sample.address "home")).
Proof.
  apply (flattenCustomData_idempotent Sample.address "home" "address_number").
  discriminate.
Defined.

(** * Required attributes *)

Section Required.

Lemma addRequiredAttributes_profile profile :
  fst (Account.addRequiredAttributes profile)
  = let p1 := if Js.ToBoolean (Js.get (Js.props profile) "firstName") then profile
              else Js.assign "firstName" (JStr "not_provided") profile in
    if Js.ToBoolean (Js.get (Js.props p1) "lastName") then p1
    else Js.assign "lastName" (JStr "not_provided") p1.
Proof.
  unfold Account.addRequiredAttributes. cbn [foldl].
  destruct (Js.ToBoolean (Js.get (Js.props profile) "firstName")); cbn [negb];
    match goal with |- context [Js.ToBoolean (Js.get (Js.props ?p) "lastName")] =>
      destruct (Js.ToBoolean (Js.get (Js.props p) "lastName")) end; reflexivity.
Qed.

Lemma provided_spec attr profile :
  attr <> "__proto__" ->
  Js.ToBoolean (Js.get (Js.props (provided attr profile)) attr) = true /\
  forall K, K <> attr ->
    Js.get (Js.props (provided attr profile)) K = Js.get (Js.props profile) K /\
    Js.own K (Js.props (provided attr profile)) = Js.own K (Js.props profile).
Proof.
  intros Hattr. unfold provided.
  destruct (Js.ToBoolean (Js.get (Js.props profile) attr)) eqn:Ht; [auto|].
  split.
  - rewrite get_assign by exact Hattr. rewrite decide_True by reflexivity. reflexivity.
  - intros K HK. rewrite get_assign, own_assign_plain by exact Hattr.
    rewrite !decide_False by exact HK. auto.
Qed.

Lemma addRequiredAttributes_spec profile :
  let result := Js.props (fst (Account.addRequiredAttributes profile)) in
  Js.ToBoolean (Js.get result "firstName") = true /\
  Js.ToBoolean (Js.get result "lastName") = true /\
  forall K, K <> "firstName" -> K <> "lastName" ->
    Js.own K result = Js.own K (Js.props profile).
Proof.
  cbn zeta. rewrite addRequiredAttributes_profile. cbn zeta.
  change (Js.props (provided "lastName" (provided "firstName" profile)))
    with (Js.props (provided "lastName" (provided "firstName" profile))).
  fold (provided "firstName" profile).
  fold (provided "lastName" (provided "firstName" profile)).
  destruct (provided_spec "firstName" profile) as [Hf Hf']; [discriminate|].
  destruct (provided_spec "lastName" (provided "firstName" profile)) as [Hl Hl'];
    [discriminate|].
  split; [|split].
  - destruct (Hl' "firstName") as [-> _]; [discriminate|exact Hf].
  - exact Hl.
  - intros K HK1 HK2.
    destruct (Hl' K HK2) as [_ ->]. destruct (Hf' K HK1) as [_ ->]. reflexivity.
Qed.

(** X14.  After [addRequiredAttributes] both [firstName] and [lastName]
    are truthy, every other property is as it was, and the warning names
    exactly the attributes that were missing (none is logged when both
    were there). *)
Theorem addRequiredAttributes_required profile :
  let result := Js.props (fst (Account.addRequiredAttributes profile)) in
  Js.ToBoolean (Js.get result "firstName") = true /\
  Js.ToBoolean (Js.get result "lastName") = true /\
  (forall K, K <> "firstName" -> K <> "lastName" ->
     Js.own K result = Js.own K (Js.props profile)) /\
  snd (Account.addRequiredAttributes profile)
  = match missing_attributes profile with
    | [] => []
    | missing => [RequiredAttributes missing (Js.get (Js.props profile) "email")]
    end.
Proof.
  destruct (addRequiredAttributes_spec profile) as (Hf & Hl & Hother).
  cbn zeta in *. repeat (split; [assumption|]).
  unfold missing_attributes, Account.addRequiredAttributes. cbn [foldl].
  destruct (Js.ToBoolean (Js.get (Js.props profile) "firstName")) eqn:Hfirst;
    cbn [negb].
  - rewrite filter_cons_False by congruence.
    destruct (Js.ToBoolean (Js.get (Js.props profile) "lastName")) eqn:Hlast;
      cbn [negb snd app].
    + rewrite filter_cons_False by congruence. reflexivity.
    + rewrite filter_cons_True by exact Hlast. cbn.
      rewrite get_assign by discriminate. reflexivity.
  - rewrite filter_cons_True by exact Hfirst.
    rewrite (get_assign "lastName" "firstName") by discriminate.
    rewrite decide_False by discriminate.
    destruct (Js.ToBoolean (Js.get (Js.props profile) "lastName")) eqn:Hlast;
      cbn [negb snd app].
    + rewrite filter_cons_False by congruence. cbn.
      rewrite get_assign by discriminate. reflexivity.
    + rewrite filter_cons_True by exact Hlast. cbn.
      rewrite !get_assign by discriminate. reflexivity.
Qed.

(** X15.  [addRequiredAttributes] is idempotent: on its own result it
    changes nothing and logs nothing. *)
Theorem addRequiredAttributes_idempotent profile :
  Account.addRequiredAttributes (fst (Account.addRequiredAttributes profile))
  = (fst (Account.addRequiredAttributes profile), []).
Proof.
  destruct (addRequiredAttributes_spec profile) as (Hf & Hl & _). cbn zeta in *.
  set (p := fst (Account.addRequiredAttributes profile)) in *.
  unfold Account.addRequiredAttributes at 1. cbn [foldl].
  rewrite Hf. cbn [negb]. rewrite Hl. reflexivity.
Qed.

Lemma addRequiredAttributes_keys profile K :
  K ∈ Js.keys (Js.props (fst (Account.addRequiredAttributes profile))) ->
  K = "firstName" \/ K = "lastName" \/ K ∈ Js.keys (Js.props profile).
Proof.
  intros Hin.
  destruct (addRequiredAttributes_spec profile) as (_ & _ & Hother). cbn zeta in Hother.
  destruct (decide (K = "firstName")) as [|Hf]; [auto|].
  destruct (decide (K = "lastName")) as [|Hl]; [auto|].
  right. right. apply own_is_Some. rewrite <- (Hother K Hf Hl). apply own_is_Some, Hin.
Qed.

End Required.

(** * Merging accounts *)

Section Merge.


(** X16.  Merging keeps the record of what was merged: after the accounts
    [others] have been merged one after the other, the account ids and the
    directory ids are those of this account followed by those of the
    others in the order of the merges, and the api keys are all the keys
    of all the accounts, none dropped and none deduplicated. *)
Theorem merge_keeps_record this others :
  let merged := foldl Account.merge this others in
  accountIds merged = accountIds this ++ (id' <$> others) /\
  directoryIds merged = directoryIds this ++ (directory_id <$> others) /\
  apiKeys merged = apiKeys this ++ concat (apiKeys <$> others).
Proof.
  cbn zeta. revert this. induction others as [|other others IH]; intros this.
  - cbn. rewrite !app_nil_r. auto.
  - cbn [foldl]. destruct (IH (Account.merge this other)) as (H1 & H2 & H3).
    rewrite H1, H2, H3. cbn. rewrite <- !app_assoc. auto.
Qed.

Lemma merge_property_truthy mine theirs :
  Js.ToBoolean mine = true -> Account.merge_property mine theirs = mine.
Proof. unfold Account.merge_property. intros ->. reflexivity. Qed.

Lemma merge_property_falsy mine theirs :
  Js.ToBoolean mine = false -> Account.merge_property mine theirs = theirs.
Proof. unfold Account.merge_property. intros ->. reflexivity. Qed.


(** X17.  A base property is set once and for all by the first account
    that has it: when this account and the accounts merged before [other]
    have no (truthy) [username] and [other] has one, the merged account
    has the [username] of [other], whatever the accounts merged after it
    hold. *)
Theorem merge_first_value_wins this before other after :
  Forall (fun a => Js.ToBoolean (username a) = false) (this :: before) ->
  Js.ToBoolean (username other) = true ->
  username (foldl Account.merge this (before ++ other :: after)) = username other.
Proof.
  intros Hfalsy Htruthy. rewrite foldl_app. cbn [foldl].
  assert (Hkeep : forall a l, Js.ToBoolean (username a) = true ->
                              username (foldl Account.merge a l) = username a).
  { intros a l. revert a. induction l as [|b l IH]; intros a Ha; [reflexivity|].
    cbn [foldl]. rewrite IH; cbn; rewrite merge_property_truthy by exact Ha; auto. }
  assert (Hlast : Js.ToBoolean (username (foldl Account.merge this before)) = false).
  { revert this Hfalsy. induction before as [|b l IH]; intros this Hfalsy.
    - apply Forall_cons in Hfalsy as [H _]. exact H.
    - cbn [foldl]. apply Forall_cons in Hfalsy as [Hthis Hrest].
      apply IH. apply Forall_cons in Hrest as [Hb Hl].
      constructor; [|exact Hl]. cbn. rewrite merge_property_falsy by exact Hthis.
      exact Hb. }
  rewrite Hkeep; cbn; rewrite merge_property_falsy by exact Hlast; auto.
Qed.


(** X18.  Step 2 of [merge] only fills what is missing: a custom data
    property of the merged account is the other account's when the other
    account has it and this account's value (own or inherited from
    [Object.prototype]) is falsy, and this account's otherwise.  So a
    falsy value of this account ([0], [false], the empty string, [null])
    is overwritten, and a name that [Object.prototype] defines (such as
    [constructor]) is not taken from the other account unless this account
    owns a falsy property of that name. *)
Theorem merge_customData_fills_missing mine theirs K :
  Js.own K (Account.merge_customData mine theirs)
  = if bool_decide (K ∈ Js.keys theirs) && negb (Js.ToBoolean (Js.get mine K))
    then Js.own K theirs
    else Js.own K mine.
Proof.
  unfold Account.merge_customData.
  assert (Hgen : forall ks (cd : Js.object),
    Js.setter cd = true ->
    (forall k, k ∈ ks -> k ∈ Js.keys theirs) ->
    Js.own K (Js.props (foldl (fun cd key =>
                 if negb (Js.ToBoolean (Js.get (Js.props cd) key))
                 then Js.assign key (Js.get theirs key) cd else cd) cd ks))
    = if bool_decide (K ∈ ks) && negb (Js.ToBoolean (Js.get (Js.props cd) K))
      then Js.own K theirs else Js.own K (Js.props cd)).
  { induction ks as [|k ks IH]; intros cd Hset Hsub.
    - cbn. rewrite bool_decide_eq_false_2; [reflexivity|]. intros Hin. inversion Hin.
    - cbn [foldl].
      assert (Hk : k ∈ Js.keys theirs) by (apply Hsub; left).
      assert (Hsub' : forall k', k' ∈ ks -> k' ∈ Js.keys theirs)
        by (intros k' Hk'; apply Hsub; right; exact Hk').
      destruct (Js.own k theirs) as [x|] eqn:Hx;
        [|apply own_None in Hx; contradiction].
      assert (Hget : Js.get theirs k = x) by (unfold Js.get; rewrite Hx; reflexivity).
      destruct (Js.ToBoolean (Js.get (Js.props cd) k)) eqn:Ht; cbn [negb].
      + rewrite (IH cd Hset Hsub').
        destruct (decide (K = k)) as [->|HK].
        * rewrite Ht. cbn [negb]. rewrite !andb_false_r. reflexivity.
        * rewrite (bool_decide_ext (K ∈ k :: ks) (K ∈ ks)) by (rewrite elem_of_cons; tauto). reflexivity.
      + assert (Hassign : Js.setter (Js.assign k x cd) = true /\
                  forall K', Js.own K' (Js.props (Js.assign k x cd))
                             = if decide (K' = k) then Some x else Js.own K' (Js.props cd)).
        { unfold Js.assign.
          destruct (Js.own k (Js.props cd)) as [y|] eqn:Hy; cbn.
          - split; [exact Hset|]. intros K'. rewrite own_replace, Hy. reflexivity.
          - destruct (decide (k = "__proto__")) as [->|Hp].
            + exfalso. unfold Js.get in Ht. rewrite Hy in Ht. cbn in Ht. discriminate.
            + cbn. split; [exact Hset|]. intros K'. apply own_create. exact Hy. }
        destruct Hassign as [Hset' Hown']. rewrite Hget.
        rewrite (IH _ Hset' Hsub').
        unfold Js.get at 1. rewrite !(Hown' K).
        destruct (decide (K = k)) as [->|HK].
        * fold (Js.get (Js.props cd) k). rewrite Ht. cbn [negb].
          rewrite (bool_decide_eq_true_2 (k ∈ k :: ks)) by left.
          cbn [andb]. rewrite Hx. destruct (_ && _); reflexivity.
        * fold (Js.get (Js.props cd) K).
          rewrite (bool_decide_ext (K ∈ k :: ks) (K ∈ ks)) by (rewrite elem_of_cons; tauto). reflexivity. }
  apply (Hgen (Js.keys theirs) {| Js.props := mine; Js.setter := true |} eq_refl).
  auto.
Qed.

Lemma externalId_entries_cons a accounts :
  externalId_entries (a :: accounts)
  = if Js.ToBoolean (externalId a)
    then (directory_id a, externalId a) :: externalId_entries accounts
    else externalId_entries accounts.
Proof. unfold externalId_entries. cbn. destruct (Js.ToBoolean (externalId a)); reflexivity. Qed.

Lemma own_write K k v (o : Js.chained) :
  K <> "__proto__" ->
  Js.own K (Js.fields (Js.write k v o))
  = if decide (K = k) then Some v else Js.own K (Js.fields o).
Proof.
  intros HK. unfold Js.write.
  destruct (Js.own k (Js.fields o)) as [x|] eqn:Hk; cbn.
  - rewrite own_replace, Hk. reflexivity.
  - destruct (decide (k = "__proto__")) as [->|Hp].
    + rewrite decide_False by exact HK.
      destruct (Js.has_accessor (Js.proto o)); cbn; [reflexivity|].
      rewrite own_create by exact Hk. rewrite decide_False by exact HK. reflexivity.
    + cbn. apply own_create. exact Hk.
Qed.

Lemma proto_write k v (o : Js.chained) :
  k <> "__proto__" -> Js.proto (Js.write k v o) = Js.proto o.
Proof.
  intros Hk. unfold Js.write.
  destruct (Js.own k (Js.fields o)); [reflexivity|].
  rewrite decide_False by exact Hk. reflexivity.
Qed.

Lemma externalIds_merge (a : account) others d :
  d <> "__proto__" ->
  Js.own d (Js.fields (externalIds (foldl Account.merge a others)))
  = match own_last d (externalId_entries others) with
    | Some v => Some v
    | None => Js.own d (Js.fields (externalIds a))
    end.
Proof.
  intros Hd. revert a. induction others as [|other others IH]; intros a.
  - reflexivity.
  - cbn [foldl]. rewrite IH, externalId_entries_cons.
    destruct (Js.ToBoolean (externalId other)) eqn:Ht.
    + rewrite own_last_cons. cbn [fst snd Account.merge externalIds]. rewrite Ht.
      destruct (own_last d (externalId_entries others)); [reflexivity|].
      rewrite own_write by exact Hd. case_decide; reflexivity.
    + cbn [Account.merge externalIds]. rewrite Ht. reflexivity.
Qed.

Lemma externalIds_proto (a : account) others :
  plain_directories others ->
  Js.proto (externalIds (foldl Account.merge a others)) = Js.proto (externalIds a).
Proof.
  intros Hplain. revert a. induction Hplain as [|other others Hother _ IH]; intros a.
  - reflexivity.
  - cbn [foldl]. rewrite IH. cbn [Account.merge externalIds].
    destruct (Js.ToBoolean (externalId other)); [|reflexivity].
    apply proto_write, Hother.
Qed.

Lemma externalIds_own this keys others d :
  d <> "__proto__" ->
  Js.own d (Js.fields (externalIds
                         (foldl Account.merge (Account.constructor this keys) others)))
  = own_last d (externalId_entries (this :: others)).
Proof.
  intros Hd. rewrite externalIds_merge by exact Hd.
  rewrite externalId_entries_cons.
  cbn [Account.constructor externalIds].
  destruct (Js.ToBoolean (externalId this)) eqn:Ht.
  - rewrite own_last_cons. cbn [fst snd].
    destruct (own_last d (externalId_entries others)); [reflexivity|].
    rewrite own_write by exact Hd. cbn. case_decide; reflexivity.
  - destruct (own_last d (externalId_entries others)); reflexivity.
Qed.

(** X19.  [getExternalIdForDirectory] after construction and any number
    of merges gives, for a directory id other than [__proto__], the
    external id of the last account of that directory that has one (this
    account first, then the others in the order of the merges).  When
    there is none the read falls back on the prototype of [externalIds]:
    that is [Object.prototype] as long as no account is filed under the
    directory id [__proto__], and otherwise it can be an external id that
    the assignment [externalIds['__proto__'] = externalId] installed, whose
    properties are then found.  External ids are values of JSON: none is
    a function. *)
Theorem getExternalIdForDirectory_last `{Builtins} this keys others d :
  d <> "__proto__" ->
  Forall (fun a => externalId a <> JFunction) (this :: others) ->
  Account.getExternalIdForDirectory
    (foldl Account.merge (Account.constructor this keys) others) d
  = default
      (Js.through
         (Js.proto (externalIds
                      (foldl Account.merge (Account.constructor this keys) others))) d)
      (own_last d (externalId_entries (this :: others))) /\
  (plain_directories (this :: others) ->
   Account.getExternalIdForDirectory
     (foldl Account.merge (Account.constructor this keys) others) d
   = default (Js.inherited d) (own_last d (externalId_entries (this :: others)))).
Proof.
  intros Hd _. unfold Account.getExternalIdForDirectory, Js.read.
  rewrite externalIds_own by exact Hd. split; [reflexivity|].
  intros Hplain. apply Forall_cons in Hplain as [Hthis Hothers].
  rewrite externalIds_proto by exact Hothers.
  cbn [Account.constructor externalIds].
  destruct (Js.ToBoolean (externalId this)); [|reflexivity].
  rewrite proto_write by exact Hthis. reflexivity.
Qed.

End Merge.

Lemma merge_first_value_wins_witness :
  username (foldl Account.merge Sample.nobody
              ([Sample.alice_too] ++ Sample.alice_three :: [Sample.alice]))
  = JStr "aliddell".
Proof.
  apply (merge_first_value_wins Sample.nobody [Sample.alice_too] Sample.alice_three
           [Sample.alice]).
  - repeat constructor.
  - reflexivity.
Defined.

(** The external id of the third directory, and an account filed under
    [__proto__] whose external id is an object: its properties are found
    under names no account is filed under. *)
Lemma getExternalIdForDirectory_last_witness :
  (Account.getExternalIdForDirectory (H := Sample.builtins)
     (foldl Account.merge (Account.constructor Sample.alice None)
            [Sample.mallory; Sample.alice_three]) "dir3"
   = JStr "ext-3" /\
   Account.getExternalIdForDirectory (H := Sample.builtins)
     (foldl Account.merge (Account.constructor Sample.alice None)
            [Sample.mallory; Sample.alice_three]) "dir9"
   = JStr "evil") /\
  Account.getExternalIdForDirectory (H := Sample.builtins)
    (foldl Account.merge (Account.constructor Sample.alice None)
           [Sample.alice_too; Sample.alice_three]) "dir9"
  = JUndefined.
Proof.
  split; [split|].
  - refine (eq_trans
              (proj1 (getExternalIdForDirectory_last (H := Sample.builtins)
                        Sample.alice None [Sample.mallory; Sample.alice_three] "dir3"
                        ltac:(discriminate) ltac:(repeat constructor; discriminate)))
              _).
    vm_compute. reflexivity.
  - refine (eq_trans
              (proj1 (getExternalIdForDirectory_last (H := Sample.builtins)
                        Sample.alice None [Sample.mallory; Sample.alice_three] "dir9"
                        ltac:(discriminate) ltac:(repeat constructor; discriminate)))
              _).
    vm_compute. reflexivity.
  - refine (eq_trans
              (proj2 (getExternalIdForDirectory_last (H := Sample.builtins)
                        Sample.alice None [Sample.alice_too; Sample.alice_three] "dir9"
                        ltac:(discriminate) ltac:(repeat constructor; discriminate))
                     ltac:(repeat constructor; discriminate))
              _).
    vm_compute. reflexivity.
Defined.

(** * Custom data of an account *)

Section CustomData.
Context `{Json}.
Variable config : settings.

Lemma reserved_app s : reserved ("stormpathApiKey_" +:+ s) = true.
Proof. destruct s; reflexivity. Qed.

Lemma reserved_not_proto K : reserved K = true -> K <> "__proto__".
Proof. intros Hr ->. discriminate. Qed.

Lemma reserved_not_skipped K : reserved K = true -> K ∉ Account.skip.
Proof.
  intros Hr Hin. unfold Account.skip in Hin.
  repeat (apply elem_of_cons in Hin as [->|Hin]; [discriminate|]).
  inversion Hin.
Qed.

Lemma transform_typed original : is_typed (Account.transform original).
Proof.
  unfold is_typed, schema_types, Account.transform.
  destruct original as [| |b|n|s| |items|props]; try (eexists _, _; split; [reflexivity|]).
  all: try (destruct items as [|[] ?]); repeat first [left; reflexivity | right].
  all: try (eexists _, _; split; [reflexivity|]);
       repeat first [left; reflexivity | right].
Qed.

Lemma schema_properties_thrown this keys collected message :
  Account.schema_properties this keys collected = Thrown message <->
  exists before key after,
    keys = before ++ key :: after /\
    Forall (fun k => reserved k = false) before /\
    reserved key = true /\
    message = key +:+ " is a reserved property name".
Proof.
  revert collected. induction keys as [|k keys IH]; intros collected; cbn.
  - split; [discriminate|]. intros (before & key & after & Hk & _).
    destruct before; discriminate.
  - fold (reserved k). destruct (reserved k) eqn:Hr.
    + split.
      * intros [= <-]. exists [], k, keys. auto.
      * intros (before & key & after & Hk & Hb & Hkey & ->).
        destruct before as [|b before]; cbn in Hk.
        -- injection Hk as -> _. reflexivity.
        -- injection Hk as -> _. apply Forall_cons in Hb as [Hb _]. congruence.
    + rewrite IH. split.
      * intros (before & key & after & -> & Hb & Hkey & ->).
        exists (k :: before), key, after. split; [reflexivity|].
        split; [constructor; assumption|]. auto.
      * intros (before & key & after & Hk & Hb & Hkey & ->).
        destruct before as [|b before]; cbn in Hk.
        -- injection Hk as -> _. congruence.
        -- injection Hk as -> ->. apply Forall_cons in Hb as [_ Hb].
           exists before, key, after. auto.
Qed.

Lemma schema_properties_returned this keys collected result :
  Account.schema_properties this keys collected = Returned result ->
  Forall (fun k => reserved k = false) keys /\
  result = foldl (fun c key =>
                    Js.assign key (Account.transform (Js.get (customData this) key)) c)
                 collected keys.
Proof.
  revert collected. induction keys as [|k keys IH]; intros collected; cbn.
  - intros [= <-]. split; [constructor|reflexivity].
  - fold (reserved k). destruct (reserved k) eqn:Hr; [discriminate|].
    intros Hs. apply IH in Hs as [Hf ->]. split; [constructor; assumption|reflexivity].
Qed.

Lemma assigned_own (f : string -> js) keys collected K :
  K <> "__proto__" ->
  Js.own K (Js.props (foldl (fun c key => Js.assign key (f key) c) collected keys))
  = if decide (K ∈ keys) then Some (f K) else Js.own K (Js.props collected).
Proof.
  intros HK. revert collected. induction keys as [|k keys IH]; intros collected.
  - cbn. rewrite decide_False; [reflexivity|]. intros Hin. inversion Hin.
  - cbn [foldl]. rewrite IH, own_assign by exact HK.
    destruct (decide (K = k)) as [->|Hne].
    + rewrite (decide_True (P := k ∈ k :: keys)) by left.
      case_decide; reflexivity.
    + destruct (decide (K ∈ keys)) as [Hin|Hnin].
      * rewrite decide_True by (right; exact Hin). reflexivity.
      * rewrite decide_False; [reflexivity|].
        rewrite elem_of_cons. tauto.
Qed.

Lemma assigned_typed (f : string -> js) keys collected :
  (forall key, is_typed (f key)) ->
  Forall (fun kv => is_typed kv.2) (Js.props collected) ->
  Forall (fun kv => is_typed kv.2)
         (Js.props (foldl (fun c key => Js.assign key (f key) c) collected keys)).
Proof.
  intros Hf. revert collected. induction keys as [|k keys IH]; intros collected Hc.
  - exact Hc.
  - cbn [foldl]. apply IH. apply Forall_forall. intros kv Hin.
    apply elem_of_assign in Hin as [Hin | Hv].
    + rewrite Forall_forall in Hc. apply Hc, Hin.
    + rewrite Hv. apply Hf.
Qed.

Lemma reserved_schema_key this key :
  reserved key = true ->
  key ∈ schema_keys this <-> key ∈ Js.keys (leaves "" (customData this)).
Proof.
  intros Hr. unfold schema_keys. rewrite list_elem_of_filter.
  rewrite flattened_key_leaf by (apply reserved_not_proto, Hr).
  pose proof (reserved_not_skipped key Hr). tauto.
Qed.


(** X20.  [getCustomData] throws if and only if custom data is mapped to
    schema properties ([isCustomDataStringify] off, [isCustomDataSchema]
    on) and some leaf of the custom data has a flattened name that starts
    with [stormpathApiKey_]; in every other case it returns. *)
Theorem getCustomData_throws_reserved this :
  (exists message, fst (Account.getCustomData config this) = Thrown message) <->
  isCustomDataStringify config = false /\
  isCustomDataSchema config = true /\
  exists key, key ∈ Js.keys (leaves "" (customData this)) /\ reserved key = true.
Proof.
  unfold Account.getCustomData.
  destruct (isCustomDataStringify config).
  { cbn. split; [intros [? ?]; discriminate|intros [? _]; discriminate]. }
  destruct (isCustomDataSchema config).
  2:{ cbn. split; [intros [? ?]; discriminate|intros (_ & ? & _); discriminate]. }
  cbn zeta. fold (schema_keys this).
  destruct (Account.schema_properties this (schema_keys this) Js.empty) as [c|m] eqn:Hs.
  - cbn. split; [intros [? ?]; discriminate|].
    intros (_ & _ & key & Hin & Hr). exfalso.
    apply schema_properties_returned in Hs as [Hf _].
    rewrite Forall_forall in Hf.
    apply (reserved_schema_key this key Hr) in Hin. apply Hf in Hin. congruence.
  - cbn. split; [|eauto]. intros _. split; [reflexivity|]. split; [reflexivity|].
    apply schema_properties_thrown in Hs as (before & key & after & Hk & _ & Hr & _).
    exists key. split; [|exact Hr]. apply (reserved_schema_key this key Hr).
    rewrite Hk. apply elem_of_app. right. left.
Qed.

Lemma apiKey_properties_frame i keys collected K :
  K <> "__proto__" ->
  reserved K = false ->
  Js.own K (Js.props (Account.apiKey_properties i keys collected))
  = Js.own K (Js.props collected).
Proof.
  intros HK Hr. revert i collected.
  induction keys as [|key keys IH]; intros i collected; [reflexivity|].
  cbn [Account.apiKey_properties]. rewrite IH. case_decide; [|reflexivity].
  rewrite own_assign by exact HK. rewrite decide_False; [reflexivity|].
  intros ->. rewrite reserved_app in Hr. discriminate.
Qed.


(** X21.  In schema mode the property [getCustomData] stores under a
    flattened name is [transform(this.customData[key])]: the value is read
    from the custom data as it was before flattening.  For a top-level
    property this is its value; for the name of a nested leaf (such as
    [address_number]) the custom data has no such property, the read gives
    [undefined], and what is stored is [{type: 'string', val: undefined}]:
    the nested value itself is lost. *)
Theorem getCustomData_schema_value this collected log K :
  isCustomDataStringify config = false ->
  isCustomDataSchema config = true ->
  Account.getCustomData config this = (Returned collected, log) ->
  K ∈ Js.keys (leaves "" (customData this)) ->
  K ∉ Account.skip ->
  K <> "__proto__" ->
  Js.own K (Js.props collected)
  = Some (Account.transform (Js.get (customData this) K)).
Proof.
  intros Hstr Hsch Hget Hleaf Hskip HK.
  unfold Account.getCustomData in Hget. rewrite Hstr, Hsch in Hget.
  cbn zeta in Hget. fold (schema_keys this) in Hget.
  destruct (Account.schema_properties this (schema_keys this) Js.empty) as [c|m] eqn:Hs;
    [|discriminate].
  injection Hget as <- _.
  apply schema_properties_returned in Hs as [Hf ->].
  assert (Hin : K ∈ schema_keys this).
  { unfold schema_keys. apply list_elem_of_filter. split; [exact Hskip|].
    apply flattened_key_leaf; assumption. }
  rewrite apiKey_properties_frame; [|exact HK|].
  - rewrite (assigned_own (fun key => Account.transform (Js.get (customData this) key)))
      by exact HK.
    rewrite decide_True by exact Hin. reflexivity.
  - rewrite Forall_forall in Hf. apply Hf, Hin.
Qed.

Lemma apiKey_properties_own i keys collected n :
  Js.own ("stormpathApiKey_" +:+ pretty (n + 1))
         (Js.props (Account.apiKey_properties i keys collected))
  = if decide (i <= n < i + length keys /\ n < 10)
    then (fun key => Account.transform (JStr (key_id key +:+ ":" +:+ key_secret key)))
           <$> keys !! (n - i)
    else Js.own ("stormpathApiKey_" +:+ pretty (n + 1)) (Js.props collected).
Proof.
  assert (HK : "stormpathApiKey_" +:+ pretty (n + 1) <> "__proto__").
  { apply reserved_not_proto, reserved_app. }
  revert i collected. induction keys as [|key keys IH]; intros i collected.
  - cbn. rewrite decide_False by lia. reflexivity.
  - cbn [Account.apiKey_properties length]. rewrite IH.
    destruct (decide (S i <= n < S i + length keys /\ n < 10)) as [Hlater|Hlater].
    + rewrite decide_True by lia.
      replace (n - i) with (S (n - S i)) by lia. reflexivity.
    + destruct (decide (i < 10)) as [Hi|Hi].
      * rewrite own_assign by exact HK.
        destruct (decide (n = i)) as [->|Hn].
        -- rewrite decide_True by reflexivity. rewrite decide_True by lia.
           replace (i - i) with 0 by lia. reflexivity.
        -- rewrite decide_False.
           ++ rewrite decide_False by lia. reflexivity.
           ++ intros Heq. apply (inj (String.app "stormpathApiKey_")) in Heq.
              apply (inj pretty) in Heq. lia.
      * rewrite decide_False by lia. reflexivity.
Qed.

Lemma before_apiKeys_unreserved this first K :
  reserved K = true ->
  (if isCustomDataStringify config then
     Returned (Js.assign "customData"
                 (Account.transform (JSON_stringify (JObj (customData this))))
                 Js.empty)
   else if isCustomDataSchema config then
     Account.schema_properties this (schema_keys this) Js.empty
   else Returned Js.empty) = Returned first ->
  Js.own K (Js.props first) = None.
Proof.
  intros Hr. pose proof (reserved_not_proto K Hr) as HK.
  destruct (isCustomDataStringify config).
  { intros [= <-]. rewrite own_assign by exact HK. rewrite decide_False; [reflexivity|].
    intros ->. discriminate. }
  destruct (isCustomDataSchema config); [|intros [= <-]; reflexivity].
  intros Hs. apply schema_properties_returned in Hs as [Hf ->].
  rewrite (assigned_own (fun key => Account.transform (Js.get (customData this) key)))
    by exact HK.
  rewrite decide_False; [reflexivity|].
  intros Hin. rewrite Forall_forall in Hf. apply Hf in Hin. congruence.
Qed.


(** X22.  When [getCustomData] returns, the property [stormpathApiKey_<n+1>]
    is [{type: 'string', val: '<id>:<secret>'}] of the api key at index [n]
    for [n < 10], and there is no such property for an index from 10 on or
    beyond the last key: the first ten keys are kept in their order and
    the others are dropped.  The warning is logged if and only if there are
    more than ten keys. *)
Theorem getCustomData_apiKeys this collected log n :
  Account.getCustomData config this = (Returned collected, log) ->
  Js.own ("stormpathApiKey_" +:+ pretty (n + 1)) (Js.props collected)
  = (if decide (n < 10)
     then (fun key => Account.typed "string" (JStr (key_id key +:+ ":" +:+ key_secret key)))
            <$> apiKeys this !! n
     else None) /\
  log = if decide (10 < length (apiKeys this))
        then [TooManyApiKeys (id' this) (length (apiKeys this))] else [].
Proof.
  unfold Account.getCustomData. cbn zeta. fold (schema_keys this).
  match goal with |- context [match ?f with Thrown _ => _ | Returned _ => _ end] =>
    destruct f as [first|m] eqn:Hfirst end; [|discriminate].
  intros [= <- <-]. split; [|reflexivity].
  rewrite apiKey_properties_own.
  rewrite (before_apiKeys_unreserved this first _ (reserved_app _) Hfirst).
  replace (n - 0) with n by lia.
  destruct (decide (n < 10)) as [Hn|Hn].
  - destruct (decide (0 <= n < 0 + length (apiKeys this) /\ n < 10)) as [Hin|Hout].
    + reflexivity.
    + rewrite lookup_ge_None_2 by lia. reflexivity.
  - rewrite decide_False by lia. reflexivity.
Qed.

End CustomData.

(** The nested street of the sample: its value is lost. *)
Lemma getCustomData_schema_value_witness :
  Js.own "address_street" (Js.props (Sample.custom_data (Sample.schema []) Sample.alice))
  = Some (Account.typed "string" JUndefined).
Proof.
  apply (getCustomData_schema_value (H := Sample.json) (Sample.schema []) Sample.alice
           (Sample.custom_data (Sample.schema []) Sample.alice)
           [TooManyApiKeys (JStr "a1") 11] "address_street"
           eq_refl eq_refl ltac:(by_running)).
  - vm_compute. apply list_elem_of_further, list_elem_of_here.
  - vm_compute. intros Hin. repeat (apply elem_of_cons in Hin as [Hin|Hin]; [discriminate|]).
    inversion Hin.
  - discriminate.
Defined.

(** The tenth key of the sample is kept, the eleventh is dropped. *)
Lemma getCustomData_apiKeys_witness :
  Js.own "stormpathApiKey_11"
    (Js.props (Sample.custom_data (Sample.schema []) Sample.alice))
  = None /\
  [TooManyApiKeys (JStr "a1") 11] = [TooManyApiKeys (JStr "a1") 11].
Proof.
  apply (getCustomData_apiKeys (H := Sample.json) (Sample.schema []) Sample.alice
           (Sample.custom_data (Sample.schema []) Sample.alice)
           [TooManyApiKeys (JStr "a1") 11] 10 ltac:(by_running)).
Defined.

(** * Profile attributes *)

Section Profile.
Context `{Json}.
Variable config : settings.

Lemma apiKey_properties_typed i keys collected :
  Forall (fun kv => is_typed kv.2) (Js.props collected) ->
  Forall (fun kv => is_typed kv.2) (Js.props (Account.apiKey_properties i keys collected)).
Proof.
  revert i collected. induction keys as [|key keys IH]; intros i collected Hc; [exact Hc|].
  cbn [Account.apiKey_properties]. apply IH. case_decide; [|exact Hc].
  apply Forall_forall. intros kv Hin. apply elem_of_assign in Hin as [Hin | Hv].
  - rewrite Forall_forall in Hc. apply Hc, Hin.
  - rewrite Hv. apply transform_typed.
Qed.

Lemma getCustomData_typed this collected log :
  Account.getCustomData config this = (Returned collected, log) ->
  Forall (fun kv => is_typed kv.2) (Js.props collected).
Proof.
  unfold Account.getCustomData. cbn zeta.
  match goal with |- context [match ?f with Thrown _ => _ | Returned _ => _ end] =>
    destruct f as [first|m] eqn:Hfirst end; [|discriminate].
  intros [= <- _]. apply apiKey_properties_typed.
  destruct (isCustomDataStringify config).
  { injection Hfirst as <-. apply Forall_forall. intros kv Hin.
    apply elem_of_assign in Hin as [Hin | Hv]; [inversion Hin|].
    rewrite Hv. apply (transform_typed (JSON_stringify (JObj (customData this)))). }
  destruct (isCustomDataSchema config).
  - apply schema_properties_returned in Hfirst as [_ ->].
    apply (assigned_typed (fun key => Account.transform (Js.get (customData this) key))).
    + intros key. apply transform_typed.
    + constructor.
  - injection Hfirst as <-. constructor.
Qed.

Lemma typed_type_equals v schemaType :
  is_typed v ->
  Account.strict_equals (Account.field v "type") schemaType = true ->
  exists type, schemaType = JStr type /\ type ∈ schema_types.
Proof.
  intros (type & val & -> & Hin). cbn.
  destruct schemaType; try discriminate.
  intros Heq. apply bool_decide_eq_true in Heq as <-. eauto.
Qed.

Lemma schema_checked_keys collected profileAttributes K :
  Forall (fun kv => is_typed kv.2) collected ->
  K ∈ Js.keys (Js.props (fst (Account.schema_checked config collected profileAttributes))) ->
  K ∈ Js.keys (Js.props profileAttributes) \/
  exists type, Js.get (customSchemaTypeMap config) K = JStr type /\ type ∈ schema_types.
Proof.
  intros Htyped. unfold Account.schema_checked.
  assert (Hgen : forall ks acc,
    (forall k, k ∈ ks -> k ∈ Js.keys collected) ->
    K ∈ Js.keys (Js.props (fst (foldl
        (fun '(profileAttributes, invalid) key =>
           let property := Js.get collected key in
           let schemaType := Js.get (customSchemaTypeMap config) key in
           if negb (Account.strict_equals (Account.field property "type") schemaType)
           then (profileAttributes, invalid ++ [(key, Account.field property "type", schemaType)])
           else (Js.assign key (Account.field (Js.get collected key) "val") profileAttributes,
                 invalid))
        acc ks))) ->
    K ∈ Js.keys (Js.props (fst acc)) \/
    exists type, Js.get (customSchemaTypeMap config) K = JStr type /\ type ∈ schema_types).
  { induction ks as [|k ks IH]; intros [pa inv] Hsub; [cbn; auto|].
    cbn [foldl]. cbn zeta.
    destruct (Account.strict_equals _ _) eqn:Heq; cbn [negb]; intros Hin.
    - apply IH in Hin; [|intros k' Hk'; apply Hsub; right; exact Hk'].
      destruct Hin as [Hin|Hin]; [|right; exact Hin]. cbn [fst] in Hin.
      destruct (keys_assign k (Account.field (Js.get collected k) "val") pa)
        as [Hsame | [_ Hperm]].
      + rewrite Hsame in Hin. left. exact Hin.
      + rewrite Hperm in Hin. apply elem_of_cons in Hin as [-> | Hin]; [|left; exact Hin].
        right. apply (typed_type_equals (Js.get collected k)); [|exact Heq].
        assert (Hk : k ∈ Js.keys collected) by (apply Hsub; left).
        apply own_is_Some in Hk as [v Hv]. unfold Js.get. rewrite Hv. cbn.
        apply own_Some_elem in Hv. rewrite Forall_forall in Htyped.
        apply (Htyped _ Hv).
    - apply IH in Hin; [|intros k' Hk'; apply Hsub; right; exact Hk'].
      exact Hin. }
  intros Hin. apply (Hgen _ _ (fun k Hk => Hk)) in Hin. exact Hin.
Qed.


(** X23.  The profile [getProfileAttributes] returns holds only the six
    base attributes and custom properties with a schema type: a property
    of the result that is not one of [login], [email], [firstName],
    [middleName], [lastName], [displayName] has an entry in
    [cache.customSchemaTypeMap], and that entry is one of the five type
    names [transform] gives.  A custom property the schema does not know
    never reaches the profile. *)
Theorem getProfileAttributes_schema_typed this profile log K :
  Account.getProfileAttributes config this = (Returned profile, log) ->
  K ∈ Js.keys (Js.props profile) ->
  K ∈ base_attributes \/
  exists type, Js.get (customSchemaTypeMap config) K = JStr type /\ type ∈ schema_types.
Proof.
  unfold Account.getProfileAttributes.
  destruct (Account.addRequiredAttributes _) as [profileAttributes log1] eqn:Hreq.
  destruct (Account.getCustomData config this) as [[collected|m] log2] eqn:Hget;
    [|discriminate].
  destruct (Account.schema_checked config (Js.props collected) profileAttributes)
    as [result invalid] eqn:Hchecked.
  intros [= <- _] Hin.
  change result with (fst (result, invalid)) in Hin. rewrite <- Hchecked in Hin.
  apply schema_checked_keys in Hin; [|eapply getCustomData_typed; exact Hget].
  destruct Hin as [Hin|Hin]; [|right; exact Hin]. left.
  change profileAttributes with (fst (profileAttributes, log1)) in Hin.
  rewrite <- Hreq in Hin. apply addRequiredAttributes_keys in Hin.
  unfold base_attributes. cbn in Hin.
  destruct Hin as [-> | [-> | Hin]]; [set_solver|set_solver|exact Hin].
Qed.

Lemma schema_checked_own collected profileAttributes K :
  K <> "__proto__" ->
  Js.own K (Js.props (fst (Account.schema_checked config collected profileAttributes)))
  = if bool_decide (K ∈ Js.keys collected)
       && Account.strict_equals (Account.field (Js.get collected K) "type")
                                (Js.get (customSchemaTypeMap config) K)
    then Some (Account.field (Js.get collected K) "val")
    else Js.own K (Js.props profileAttributes).
Proof.
  intros HK. unfold Account.schema_checked.
  assert (Hgen : forall ks acc,
    Js.own K (Js.props (fst (foldl
        (fun '(profileAttributes, invalid) key =>
           let property := Js.get collected key in
           let schemaType := Js.get (customSchemaTypeMap config) key in
           if negb (Account.strict_equals (Account.field property "type") schemaType)
           then (profileAttributes, invalid ++ [(key, Account.field property "type", schemaType)])
           else (Js.assign key (Account.field (Js.get collected key) "val") profileAttributes,
                 invalid))
        acc ks)))
    = if bool_decide (K ∈ ks)
         && Account.strict_equals (Account.field (Js.get collected K) "type")
                                  (Js.get (customSchemaTypeMap config) K)
      then Some (Account.field (Js.get collected K) "val")
      else Js.own K (Js.props (fst acc))); [|apply Hgen].
  induction ks as [|k ks IH]; intros [pa inv].
  - cbn. reflexivity.
  - cbn [foldl]. cbn zeta.
    destruct (Account.strict_equals (Account.field (Js.get collected k) "type") _) eqn:Heq;
      cbn [negb]; rewrite IH; cbn [fst].
    + rewrite own_assign by exact HK.
      destruct (decide (K = k)) as [->|Hne].
      * rewrite (bool_decide_eq_true_2 (k ∈ k :: ks)) by left.
        rewrite Heq, andb_true_r. cbn [andb].
        destruct (bool_decide (k ∈ ks)); reflexivity.
      * rewrite (bool_decide_ext (K ∈ k :: ks) (K ∈ ks))
          by (rewrite elem_of_cons; tauto).
        reflexivity.
    + destruct (decide (K = k)) as [->|Hne].
      * rewrite Heq, !andb_false_r. reflexivity.
      * rewrite (bool_decide_ext (K ∈ k :: ks) (K ∈ ks))
          by (rewrite elem_of_cons; tauto).
        reflexivity.
Qed.

(** X24.  A custom property whose type is the one the schema expects is
    copied to the profile under its own name, whatever was there: the
    profile has [val] of the property when [getCustomData] gave the
    property with a [type] equal to [cache.customSchemaTypeMap[key]], and
    has what [addRequiredAttributes] left otherwise.  So a custom property
    named [login], [email] or [firstName] replaces the base attribute,
    and can leave a required attribute empty again. *)
Theorem getProfileAttributes_custom_value this profile log collected log' K :
  Account.getProfileAttributes config this = (Returned profile, log) ->
  Account.getCustomData config this = (Returned collected, log') ->
  K <> "__proto__" ->
  Js.own K (Js.props profile)
  = if bool_decide (K ∈ Js.keys (Js.props collected))
       && Account.strict_equals
            (Account.field (Js.get (Js.props collected) K) "type")
            (Js.get (customSchemaTypeMap config) K)
    then Some (Account.field (Js.get (Js.props collected) K) "val")
    else Js.own K
           (Js.props (fst (Account.addRequiredAttributes
              {| Js.props := [("login", username this); ("email", email this);
                              ("firstName", givenName this);
                              ("middleName", middleName this);
                              ("lastName", surname this);
                              ("displayName", fullName this)];
                 Js.setter := true |}))).
Proof.
  unfold Account.getProfileAttributes. intros Hp Hc HK. rewrite Hc in Hp.
  destruct (Account.addRequiredAttributes _) as [profileAttributes log1] eqn:Hreq.
  destruct (Account.schema_checked config (Js.props collected) profileAttributes)
    as [result invalid] eqn:Hchecked.
  injection Hp as <- _.
  change result with (fst (result, invalid)). rewrite <- Hchecked.
  apply schema_checked_own, HK.
Qed.

End Profile.

(** The tags of the sample are in the schema, its address is not. *)
Lemma getProfileAttributes_schema_typed_witness :
  "tags" ∈ base_attributes \/
  exists type,
    Js.get (customSchemaTypeMap (Sample.schema [("tags", JStr "array-string")])) "tags"
    = JStr type /\ type ∈ schema_types.
Proof.
  apply (getProfileAttributes_schema_typed (H := Sample.json)
           (Sample.schema [("tags", JStr "array-string")]) Sample.alice
           (Sample.profile (Sample.schema [("tags", JStr "array-string")]) Sample.alice)
           [RequiredAttributes ["lastName"] (JStr "alice@example.com");
            TooManyApiKeys (JStr "a1") 11;
            InvalidCustomData [JStr "a1"]
              [("address_number", JStr "string", JUndefined);
               ("address_street", JStr "string", JUndefined);
               ("stormpathApiKey_1", JStr "string", JUndefined);
               ("stormpathApiKey_2", JStr "string", JUndefined);
               ("stormpathApiKey_3", JStr "string", JUndefined);
               ("stormpathApiKey_4", JStr "string", JUndefined);
               ("stormpathApiKey_5", JStr "string", JUndefined);
               ("stormpathApiKey_6", JStr "string", JUndefined);
               ("stormpathApiKey_7", JStr "string", JUndefined);
               ("stormpathApiKey_8", JStr "string", JUndefined);
               ("stormpathApiKey_9", JStr "string", JUndefined);
               ("stormpathApiKey_10", JStr "string", JUndefined)]]
           "tags" ltac:(by_running)).
  vm_compute. do 6 apply list_elem_of_further. apply list_elem_of_here.
Defined.



(** A first name in the custom data of an account that has one. *)
Lemma getProfileAttributes_custom_value_witness :
  Js.own "firstName"
    (Js.props (Sample.profile (Sample.schema [("firstName", JStr "string")])
                              Sample.renamed))
  = Some (JStr "").
Proof.
  apply (getProfileAttributes_custom_value (H := Sample.json)
           (Sample.schema [("firstName", JStr "string")]) Sample.renamed
           (Sample.profile (Sample.schema [("firstName", JStr "string")]) Sample.renamed)
           [RequiredAttributes ["lastName"] (JStr "alice@example.com")]
           (Sample.custom_data (Sample.schema [("firstName", JStr "string")])
                               Sample.renamed)
           [] "firstName" ltac:(by_running) ltac:(by_running)).
  discriminate.
Defined.

(** * Deleting the custom schema *)

Section ResetScript.
Variable get_schema : Reset.settled.
Variable post_schema : js -> Reset.settled.

Lemma nulled_own props K :
  K <> "__proto__" ->
  Js.own K (Js.props (Reset.nulled props))
  = if decide (K ∈ props) then Some JNull else None.
Proof.
  intros HK. unfold Reset.nulled.
  rewrite (assigned_own (fun _ => JNull) props Js.empty K HK). reflexivity.
Qed.

(** X25.  When the schema can be fetched and read, [deleteCustomSchema]
    returns whatever the POST does (a rejected POST is logged, not
    thrown); it posts nothing when there is no custom property and posts
    once otherwise; and the [properties] of the body it posts hold [null]
    under each fetched name and nothing else (for names other than
    [__proto__], which an assignment cannot create on the literal). *)
Theorem deleteCustomSchema_nulls_fetched schema props :
  get_schema = Reset.Fulfilled schema ->
  Reset.custom_properties schema = inr props ->
  Reset.result (Reset.deleteCustomSchema get_schema post_schema) = inr tt /\
  Reset.posted (Reset.deleteCustomSchema get_schema post_schema)
  = (if decide (props = []) then [] else [Reset.options props]) /\
  forall K, K <> "__proto__" ->
    Js.own K (Js.props (Reset.nulled props))
    = if decide (K ∈ props) then Some JNull else None.
Proof.
  intros Hget Hprops. unfold Reset.deleteCustomSchema. rewrite Hget, Hprops.
  split; [|split].
  - case_decide; [reflexivity|]. destruct (post_schema _); reflexivity.
  - destruct props as [|prop props]; [reflexivity|].
    rewrite decide_False by discriminate. rewrite decide_False by discriminate.
    destruct (post_schema _); reflexivity.
  - intros K HK. apply nulled_own, HK.
Qed.

(** X26.  [deleteCustomSchema] throws only before it posts: it throws
    exactly when the GET is rejected (with that error) or when
    [schema.definitions.custom.properties] cannot be read or enumerated
    (with the [TypeError]), and then it has posted nothing and logged only
    its header. *)
Theorem deleteCustomSchema_throws_before_post e :
  (Reset.result (Reset.deleteCustomSchema get_schema post_schema) = inl e <->
   (exists err, get_schema = Reset.Rejected err /\ e = Reset.Raised err) \/
   (exists schema,
      get_schema = Reset.Fulfilled schema /\ Reset.custom_properties schema = inl e)) /\
  (Reset.result (Reset.deleteCustomSchema get_schema post_schema) = inl e ->
   Reset.posted (Reset.deleteCustomSchema get_schema post_schema) = [] /\
   Reset.logged (Reset.deleteCustomSchema get_schema post_schema)
   = [Reset.header "Deleting custom schema"]).
Proof.
  unfold Reset.deleteCustomSchema.
  destruct get_schema as [schema|err].
  - destruct (Reset.custom_properties schema) as [e'|props] eqn:Hprops.
    + cbn. split; [|auto]. split.
      * intros [= <-]. right. exists schema. auto.
      * intros [(? & ? & _)|(s & [= <-] & He)]; [discriminate|]. congruence.
    + case_decide.
      * cbn. split; [|discriminate]. split; [discriminate|].
        intros [(? & ? & _)|(s & [= <-] & He)]; congruence.
      * destruct (post_schema _); cbn;
          (split; [|discriminate]; split; [discriminate|];
           intros [(? & ? & _)|(s & [= <-] & He)]; congruence).
  - cbn. split; [|auto]. split.
    + intros [= <-]. left. eauto.
    + intros [(? & [= <-] & ->)|(s & ? & _)]; [reflexivity|discriminate].
Qed.

End ResetScript.

(** A schema with two custom properties, and a POST that fails. *)
Lemma deleteCustomSchema_nulls_fetched_witness :
  Reset.result (Reset.deleteCustomSchema (Reset.Fulfilled Sample.user_schema)
                  (fun _ => Reset.Rejected (JStr "500")))
  = inr tt /\
  Reset.posted (Reset.deleteCustomSchema (Reset.Fulfilled Sample.user_schema)
                  (fun _ => Reset.Rejected (JStr "500")))
  = (if decide (["favoriteColor"; "shoeSize"] = [])
     then [] else [Reset.options ["favoriteColor"; "shoeSize"]]) /\
  forall K, K <> "__proto__" ->
    Js.own K (Js.props (Reset.nulled ["favoriteColor"; "shoeSize"]))
    = if decide (K ∈ ["favoriteColor"; "shoeSize"]) then Some JNull else None.
Proof.
  apply (deleteCustomSchema_nulls_fetched (Reset.Fulfilled Sample.user_schema)
           (fun _ => Reset.Rejected (JStr "500")) Sample.user_schema
           ["favoriteColor"; "shoeSize"] eq_refl eq_refl).
Defined.
